(** * Slideshow-to-video pipeline: duration estimate, WAV encoder,
      frame compositor, playback scheduler and export controller.

    The development follows [src/App.tsx] ([bufferToWav], [handleDownload])
    and the [PresentationViewer] component.  JavaScript numbers are IEEE 754
    binary64 values; they are modelled with the executable specification of
    the Standard Library ([SpecFloat], precision 53, [emax] 1024), which
    needs no axiom. *)

From Stdlib Require Import ZArith QArith Qpower Zpower Lqa.
From Stdlib Require Import Floats.SpecFloat.
From stdpp Require Import base option list strings gmap.

Local Open Scope Z_scope.

(* ===================================================================== *)
(** * JavaScript numbers as binary64 *)
(* ===================================================================== *)

Module Binary64.

Definition prec : Z := 53.
Definition emax : Z := 1024.

Abbreviation float := spec_float.

(** An integer literal or an integer-valued property as a number. *)
Definition of_Z (z : Z) : float := binary_normalize prec emax z 0 false.

Definition add : float -> float -> float := SFadd prec emax.
Definition sub : float -> float -> float := SFsub prec emax.
Definition mul : float -> float -> float := SFmul prec emax.
Definition div : float -> float -> float := SFdiv prec emax.

(** [x < y] and [x > y] are false as soon as one side is NaN. *)
Definition ltb (x y : float) : bool := SFltb x y.
Definition gtb (x y : float) : bool := SFltb y x.

Definition valid (x : float) : Prop := valid_binary prec emax x = true.

Definition zero : float := S754_zero false.
Definition one : float := Eval vm_compute in of_Z 1.
Definition minus_one : float := Eval vm_compute in of_Z (-1).
(** The literal [0.5]. *)
Definition half : float := Eval vm_compute in div (of_Z 1) (of_Z 2).
Definition k32767 : float := Eval vm_compute in of_Z 32767.
Definition k32768 : float := Eval vm_compute in of_Z 32768.

(** [Math.min(a, b)]: NaN if either argument is NaN, and [-0] counts as
    lower than [+0]. *)
Definition Math_min (a b : float) : float :=
  match a, b with
  | S754_nan, _ | _, S754_nan => S754_nan
  | S754_zero false, S754_zero true => b
  | _, _ => if SFltb b a then b else a
  end.

(** [Math.max(a, b)]: NaN if either argument is NaN, and [+0] counts as
    higher than [-0]. *)
Definition Math_max (a b : float) : float :=
  match a, b with
  | S754_nan, _ | _, S754_nan => S754_nan
  | S754_zero true, S754_zero false => b
  | _, _ => if SFltb a b then b else a
  end.

(** The mathematical integer obtained by dropping the fraction of a
    finite number (truncation toward zero). *)
Definition truncate (x : float) : Z :=
  match x with
  | S754_finite s m e => cond_Zopp s (Z.shiftl (Z.pos m) e)
  | _ => 0
  end.

(** Two's complement reading of the low [w] bits of an integer. *)
Definition wrap_signed (w : Z) (z : Z) : Z :=
  let r := z mod 2 ^ w in
  if r <? 2 ^ (w - 1) then r else r - 2 ^ w.

(** [x | 0] is ToInt32: NaN, zeros and infinities give 0, any other
    number is truncated and reduced modulo 2^32. *)
Definition ToInt32 (x : float) : Z := wrap_signed 32 (truncate x).

(** The rational number a finite value stands for; zeros, infinities and
    NaN are read as 0. *)
Definition to_Q (x : float) : Q :=
  match x with
  | S754_finite s m e => (inject_Z (cond_Zopp s (Z.pos m)) * 2 ^ e)%Q
  | _ => 0%Q
  end.

(** A positive normal number, that is one with a mantissa of 53 bits,
    whose exponent lies between [lo] and [hi]. *)
Definition normal_in (lo hi : Z) (x : float) : Prop :=
  match x with
  | S754_finite false m e => 2 ^ 52 <= Z.pos m < 2 ^ 53 /\ lo <= e <= hi
  | _ => False
  end.

(** Two neighbouring normal numbers differ by at most [2^-52] of their
    value. *)
Definition ulp_ratio : Q := (2 ^ (-52))%Q.

(** [r] is [x] rounded to a neighbouring number: the two differ by less
    than one unit in the last place of [r]. *)
Definition faithful (x : Q) (r : float) : Prop :=
  (to_Q r * (1 - ulp_ratio) <= x /\ x <= to_Q r * (1 + ulp_ratio))%Q.

(** Rounding does not step over a number that can be represented: [r]
    stays below every such number that [x] stays below. *)
Definition below_bounds (x : Q) (r : float) : Prop :=
  forall b k, 0 < b < 2 ^ 53 ->
    (x <= inject_Z b * 2 ^ k)%Q -> (to_Q r <= inject_Z b * 2 ^ k)%Q.

Definition rounded (x : Q) (r : float) : Prop :=
  faithful x r /\ below_bounds x r.

End Binary64.

(* ===================================================================== *)
(** * PCM-to-container encoder: [bufferToWav] *)
(* ===================================================================== *)

Module Wav.
Import Binary64.

(** Line 102: [Math.max(-1, Math.min(1, channels[i][offset]))]. *)
Definition clamp (x : float) : float :=
  Math_max minus_one (Math_min one x).

(** Line 103, before [| 0]:
    [0.5 + sample < 0 ? sample * 32768 : sample * 32767]. *)
Definition scale (s : float) : float :=
  if ltb (add half s) zero then mul s k32768 else mul s k32767.

(** The value of [sample] after line 103. *)
Definition sampleToInt (x : float) : Z := ToInt32 (scale (clamp x)).

(** An [AudioBuffer]: [channelData] lists what [getChannelData(i)]
    returns for [i = 0 .. numberOfChannels - 1]; the entries of a
    [Float32Array] are read as numbers without change of value. *)
Record AudioBuffer := {
  buffer_length : Z;
  sampleRate : Z;
  channelData : list (list float)
}.

Definition numberOfChannels (buffer : AudioBuffer) : Z :=
  Z.of_nat (length (channelData buffer)).

(** Every channel holds [buffer.length] samples, each a binary64 value. *)
Definition well_formed (buffer : AudioBuffer) : Prop :=
  0 <= buffer_length buffer /\
  Forall (fun c : list float =>
            Z.of_nat (length c) = buffer_length buffer /\ Forall valid c)
         (channelData buffer).

(** The [n] low bytes of an integer, least significant first: what
    [DataView.setUint16], [setUint32] and [setInt16] store with
    [littleEndian = true] (the value is reduced modulo [2^(8n)]). *)
Fixpoint le_bytes (n : nat) (v : Z) : list Z :=
  match n with
  | O => []
  | S n' => v mod 256 :: le_bytes n' (v / 256)
  end.

(** Reading a little-endian field back, unsigned and signed. *)
Fixpoint le_value (bs : list Z) : Z :=
  match bs with
  | [] => 0
  | b :: bs' => b + 256 * le_value bs'
  end.

Definition le_signed (bs : list Z) : Z :=
  wrap_signed (8 * Z.of_nat (length bs)) (le_value bs).

(** The closure state of [bufferToWav]: the bytes behind [view] and the
    write cursor [pos]. *)
Record writer := { view : list Z; pos : Z }.

(** [new ArrayBuffer(length)] is zero-filled; a negative length throws. *)
Definition ArrayBuffer (len : Z) : option (list Z) :=
  if bool_decide (0 <= len) then Some (replicate (Z.to_nat len) 0) else None.

(** A [DataView] store of [n] bytes at [byteOffset]; a store that does
    not fit throws a RangeError ([None]). *)
Definition DataView_set (n : nat) (byteOffset value : Z) (v : list Z)
  : option (list Z) :=
  if bool_decide (0 <= byteOffset /\
                  byteOffset + Z.of_nat n <= Z.of_nat (length v))
  then Some (list_inserts (Z.to_nat byteOffset) (le_bytes n value) v)
  else None.

Definition setUint16 (data : Z) (w : writer) : option writer :=
  v ← DataView_set 2 (pos w) data (view w);
  Some {| view := v; pos := pos w + 2 |}.

Definition setUint32 (data : Z) (w : writer) : option writer :=
  v ← DataView_set 4 (pos w) data (view w);
  Some {| view := v; pos := pos w + 4 |}.

(** Lines 102-105 for one channel: [view.setInt16(pos, sample, true);
    pos += 2].  Reading a typed array past its end gives [undefined],
    which [Math.min] turns into NaN. *)
Definition write_sample (c : list float) (offset : nat) (w : writer)
  : option writer :=
  let sample := sampleToInt (default S754_nan (c !! offset)) in
  v ← DataView_set 2 (pos w) sample (view w);
  Some {| view := v; pos := pos w + 2 |}.

(** The [for] loop of lines 101-106 over the channels. *)
Fixpoint write_frame (channels : list (list float)) (offset : nat)
                     (w : writer) : option writer :=
  match channels with
  | [] => Some w
  | c :: rest => w' ← write_sample c offset w; write_frame rest offset w'
  end.

(** The [while (pos < length)] loop of lines 100-108; [fuel] bounds the
    number of iterations and [None] also reports its exhaustion. *)
Fixpoint write_frames (fuel : nat) (channels : list (list float))
                      (len : Z) (offset : nat) (w : writer)
  : option writer :=
  if pos w <? len then
    match fuel with
    | O => None
    | S fuel' =>
        w' ← write_frame channels offset w;
        write_frames fuel' channels len (S offset) w'
    end
  else Some w.

(** [bufferToWav], lines 70-110; the result is the content of the Blob. *)
Definition bufferToWav (buffer : AudioBuffer) : option (list Z) :=
  let numOfChan := numberOfChannels buffer in
  let len := buffer_length buffer * numOfChan * 2 + 44 in
  bufferArr ← ArrayBuffer len;
  let w := {| view := bufferArr; pos := 0 |} in
  w ← setUint32 0x46464952 w;
  w ← setUint32 (len - 8) w;
  w ← setUint32 0x45564157 w;
  w ← setUint32 0x20746d66 w;
  w ← setUint32 16 w;
  w ← setUint16 1 w;
  w ← setUint16 numOfChan w;
  w ← setUint32 (sampleRate buffer) w;
  w ← setUint32 (sampleRate buffer * 2 * numOfChan) w;
  w ← setUint16 (numOfChan * 2) w;
  w ← setUint16 16 w;
  w ← setUint32 0x61746164 w;
  w ← setUint32 (len - pos w - 4) w;
  let channels := channelData buffer in
  w ← write_frames (Z.to_nat len) channels len 0 w;
  Some (view w).

(** ** The encoder as the specification words it *)

(** "Clamp the floating sample to [-1, 1]". *)
Definition spec_clamp (x : float) : float :=
  if gtb x one then one else if ltb x minus_one then minus_one else x.

(** "Scale by 32767 if the clamped value (after adding 0.5) is >= 0,
    else by 32768; truncate toward zero". *)
Definition spec_sample (x : float) : Z :=
  let c := spec_clamp x in
  let k := if SFleb zero (add c half) then k32767 else k32768 in
  truncate (mul c k).

(** The four ASCII bytes of a chunk tag. *)
Definition tag (a b c d : Z) : list Z := [a; b; c; d].

(** The 44-byte header of section 4.2, field by field. *)
Definition spec_header (frameCount channelCount rate : Z) : list Z :=
  let dataLength := frameCount * channelCount * 2 in
  tag 82 73 70 70                          (* "RIFF" *)
  ++ le_bytes 4 (44 + dataLength - 8)
  ++ tag 87 65 86 69                       (* "WAVE" *)
  ++ tag 102 109 116 32                    (* "fmt " *)
  ++ le_bytes 4 16
  ++ le_bytes 2 1
  ++ le_bytes 2 channelCount
  ++ le_bytes 4 rate
  ++ le_bytes 4 (rate * channelCount * 2)
  ++ le_bytes 2 (channelCount * 2)
  ++ le_bytes 2 16
  ++ tag 100 97 116 97                     (* "data" *)
  ++ le_bytes 4 dataLength.

(** The interleaved samples: frame after frame, channel after channel. *)
Definition spec_frame (channels : list (list float)) (offset : nat)
  : list Z :=
  flat_map (fun c => le_bytes 2 (spec_sample (default S754_nan (c !! offset))))
           channels.

Definition spec_samples (buffer : AudioBuffer) : list Z :=
  flat_map (spec_frame (channelData buffer))
           (seq 0 (Z.to_nat (buffer_length buffer))).

(** The writer once [written] has been stored in a buffer that has [k]
    more bytes, all still zero. *)
Definition writer_after (written : list Z) (k : nat) : writer :=
  {| view := written ++ replicate k 0; pos := Z.of_nat (length written) |}.

(** The bytes that one pass of the [for] loop stores. *)
Definition frame_bytes (channels : list (list float)) (offset : nat)
  : list Z :=
  flat_map (fun c => le_bytes 2 (sampleToInt (default S754_nan (c !! offset))))
           channels.

(** Reading the file back: the unsigned [n]-byte field at [offset], and
    the signed 16-bit sample at [offset]. *)
Definition field (out : list Z) (offset n : nat) : Z :=
  le_value (take n (drop offset out)).

Definition sample_at (out : list Z) (offset : nat) : Z :=
  le_signed (take 2 (drop offset out)).

(** The sign bit of a number (NaN has none). *)
Definition negative (x : float) : bool :=
  match x with
  | S754_zero s | S754_infinity s | S754_finite s _ _ => s
  | S754_nan => false
  end.

(** A mono buffer of two frames holding the samples 1.0 and 0.0. *)
Definition two_samples : AudioBuffer :=
  {| buffer_length := 2; sampleRate := 24000; channelData := [[one; zero]] |}.

(** A shifted mantissa has lost non-zero bits. *)
Definition inexact (mrs : shr_record) : bool := shr_r mrs || shr_s mrs.

(** A number of magnitude at most one (or NaN). *)
Definition unit_range (x : float) : Prop :=
  match x with
  | S754_finite _ m e => e <= 0 /\ Z.pos m <= 2 ^ (- e)
  | S754_infinity _ => False
  | _ => True
  end.

End Wav.

(* ===================================================================== *)
(** * Arithmetic shared by the duration estimate and the compositor *)
(* ===================================================================== *)

(** The operations these two computations use.  The binary64 instance is
    what the program runs; the instance over [Q] is the same computation
    without rounding, in which the geometric and proportionality statements
    are exact. *)
Class Arith (T : Type) := {
  of_int : Z -> T;
  minus : T -> T -> T;
  times : T -> T -> T;
  divide : T -> T -> T;
  less : T -> T -> bool
}.

#[export] Instance binary64_arith : Arith spec_float := {|
  of_int := Binary64.of_Z;
  minus := Binary64.sub;
  times := Binary64.mul;
  divide := Binary64.div;
  less := Binary64.ltb
|}.

#[export] Instance rational_arith : Arith Q := {|
  of_int := inject_Z;
  minus := Qminus;
  times := Qmult;
  divide := Qdiv;
  less := fun x y => negb (Qle_bool y x)
|}.

(* ===================================================================== *)
(** * Duration estimator *)
(* ===================================================================== *)

Module Duration.

(** A JavaScript string is a sequence of UTF-16 code units. *)
Definition jsstring := list Z.

(** The characters matched by [\s]: WhiteSpace and LineTerminator. *)
Definition isWhiteSpace (c : Z) : bool :=
  (9 <=? c) && (c <=? 13)
  || (c =? 32) || (c =? 160) || (c =? 5760)
  || (8192 <=? c) && (c <=? 8202)
  || (c =? 8232) || (c =? 8233) || (c =? 8239) || (c =? 8287)
  || (c =? 12288) || (c =? 65279).

(** [s.split(/\s+/)]: the pieces between maximal runs of white space.
    [cur] is the piece being read (reversed), [inrun] tells that the
    previous character belonged to a separator.  The piece before a
    leading separator and the piece after a trailing one are empty
    strings, and so is the only piece of the empty string. *)
Fixpoint split_from (inrun : bool) (cur : jsstring) (s : jsstring)
  : list jsstring :=
  match s with
  | [] => [rev cur]
  | c :: rest =>
      if isWhiteSpace c then
        if inrun then split_from true cur rest
        else rev cur :: split_from true [] rest
      else split_from false (c :: cur) rest
  end.

Definition split_whitespace (s : jsstring) : list jsstring :=
  split_from false [] s.

(** [slide.narration.split(/\s+/).length] *)
Definition wordCount (narration : jsstring) : Z :=
  Z.of_nat (length (split_whitespace narration)).

Definition averageWPM : Z := 180.

(** [(wordCount / averageWPM) * 60 * 1000], in milliseconds. *)
Definition estimate {T} `{Arith T} (narration : jsstring) : T :=
  times (times (divide (of_int (wordCount narration)) (of_int averageWPM))
               (of_int 60))
        (of_int 1000).

(** [slides.map(slide => ...)] *)
Definition slideDurations {T} `{Arith T} (narrations : list jsstring)
  : list T :=
  map estimate narrations.

(** White space as ECMAScript lists it: the code units of the classes
    WhiteSpace (TAB, VT, FF, the space separators of Unicode, NBSP and
    ZWNBSP) and LineTerminator (LF, CR, LS, PS). *)
Definition whitespace_code_units : list Z :=
  [9; 10; 11; 12; 13; 32; 160; 5760;
   8192; 8193; 8194; 8195; 8196; 8197; 8198; 8199; 8200; 8201; 8202;
   8232; 8233; 8239; 8287; 12288; 65279].

(** The word count as the specification words it: the words are
    delimited by white space, so there is one more word than there are
    maximal runs of white space.  A run starts at each white-space
    character that is the first of the text or follows a character that is
    not white space; [run_starts] lists these, each with the character
    before it (code unit 0 stands before the first). *)
Definition run_starts (s : jsstring) : list (Z * Z) :=
  List.filter (fun pc => negb (isWhiteSpace pc.1) && isWhiteSpace pc.2)
              (zip (0 :: s) s).

Definition spec_wordCount (s : jsstring) : Z :=
  1 + Z.of_nat (length (run_starts s)).

(** The formula of the specification:
    [max(1, wordCount) / 180 * 60000]. *)
Definition spec_duration (narration : jsstring) : Q :=
  (inject_Z (Z.max 1 (spec_wordCount narration)) / 180 * 60000)%Q.

(** An ASCII text as a string of code units, used to write examples. *)
Definition of_ascii (s : String.string) : jsstring :=
  map (fun a => Z.of_N (Ascii.N_of_ascii a)) (String.list_ascii_of_string s).

(** A narration of [n] one-letter words separated by single spaces. *)
Definition words (n : nat) : jsstring := tail (mjoin (replicate n [32; 97])).

(** A narration of thirty words and a presentation of five such slides. *)
Definition thirty_words : jsstring :=
  of_ascii "a b c d e f g h i j k l m n o p q r s t u v w x y z a b c d".

Definition five_slides : list jsstring := replicate 5 thirty_words.

End Duration.

(* ===================================================================== *)
(** * Frame compositor: the rectangle drawn by [renderLoop] *)
(* ===================================================================== *)

Module Compositor.

Record rect (T : Type) := {
  dx : T; dy : T; drawWidth : T; drawHeight : T
}.
Arguments dx {T}. Arguments dy {T}.
Arguments drawWidth {T}. Arguments drawHeight {T}.

Section Draw.
Context {T : Type} `{Arith T}.

(** Lines 196-208 of [renderLoop]; the four numbers are the arguments
    of [ctx.drawImage(img, dx, dy, drawWidth, drawHeight)]. *)
Definition drawRect (canvas_width canvas_height img_width img_height : T)
  : rect T :=
  let canvasAspect := divide canvas_width canvas_height in
  let imgAspect := divide img_width img_height in
  let '(drawWidth, drawHeight) :=
    if less imgAspect canvasAspect then
      let drawHeight := canvas_height in
      (times drawHeight imgAspect, drawHeight)
    else
      let drawWidth := canvas_width in
      (drawWidth, divide drawWidth imgAspect) in
  {| dx := divide (minus canvas_width drawWidth) (of_int 2);
     dy := divide (minus canvas_height drawHeight) (of_int 2);
     drawWidth := drawWidth;
     drawHeight := drawHeight |}.

(** The draw size as section 4.3 words it. *)
Definition spec_drawSize (W Hc imgW imgH : T) : T * T :=
  let canvasAspect := divide W Hc in
  let imgAspect := divide imgW imgH in
  if less imgAspect canvasAspect
  then (times Hc imgAspect, Hc)          (* pillarbox *)
  else (W, divide W imgAspect).          (* letterbox *)
End Draw.

(** The statements of section 8 about the rectangle, over exact numbers. *)
Definition within_canvas (W Hc : Q) (r : rect Q) : Prop :=
  (0 <= dx r /\ dx r + drawWidth r <= W /\
   0 <= dy r /\ dy r + drawHeight r <= Hc)%Q.

Definition centered (W Hc : Q) (r : rect Q) : Prop :=
  (dx r == (W - drawWidth r) / 2 /\ dy r == (Hc - drawHeight r) / 2)%Q.

Definition exactly_one_offset_zero (r : rect Q) : Prop :=
  (dx r == 0 /\ ~ dy r == 0 \/ ~ dx r == 0 /\ dy r == 0)%Q.

(** The rectangle a binary64 computation yields, each number read as the
    rational it stands for. *)
Definition exact (r : rect Binary64.float) : rect Q :=
  {| dx := Binary64.to_Q (dx r); dy := Binary64.to_Q (dy r);
     drawWidth := Binary64.to_Q (drawWidth r);
     drawHeight := Binary64.to_Q (drawHeight r) |}.

(** Centered up to rounding: each offset is within one part in [2^50] of
    half of what the image leaves free on its axis. *)
Definition nearly_centered (W Hc : Q) (r : rect Q) : Prop :=
  ((W - drawWidth r) / 2 * (1 - 2 ^ (-50)) <= dx r /\
   dx r <= (W - drawWidth r) / 2 * (1 + 2 ^ (-50)) /\
   (Hc - drawHeight r) / 2 * (1 - 2 ^ (-50)) <= dy r /\
   dy r <= (Hc - drawHeight r) / 2 * (1 + 2 ^ (-50)))%Q.

(** The number [+0] or a positive normal number. *)
Definition zero_or_normal (x : Binary64.float) : Prop :=
  x = Binary64.zero \/ Binary64.normal_in (-1074) 971 x.

End Compositor.

(* ===================================================================== *)
(** * The host's timers: [setTimeout] and [clearTimeout] *)
(* ===================================================================== *)

Module Timers.

(** A pending timer: the time at which it is due and, as a ghost field,
    the slide index for which its callback was scheduled. *)
Record timer := { due : Z; captured : Z }.

(** The host's table of pending timers, by handle, and the next fresh
    handle.  Handles are positive, so a handle is truthy. *)
Record table := { pending : gmap nat timer; next_id : nat }.

Definition initial : table := {| pending := ∅; next_id := 1 |}.

(** [setTimeout(callback, delay)] at time [now]: a negative delay
    counts as zero; the result is the new handle. *)
Definition setTimeout (now delay index : Z) (t : table) : nat * table :=
  (next_id t,
   {| pending := <[next_id t := {| due := now + Z.max 0 delay;
                                   captured := index |}]> (pending t);
      next_id := S (next_id t) |}).

(** [clearTimeout(id)]: a handle that is not pending is ignored. *)
Definition clearTimeout (id : nat) (t : table) : table :=
  {| pending := delete id (pending t); next_id := next_id t |}.

(** The delay the host derives from a number (conversion to [long]);
    [undefined] counts as zero. *)
Definition delay_of (d : option spec_float) : Z :=
  match d with
  | Some x => Binary64.ToInt32 x
  | None => 0
  end.

(** The timer that fires first: least due time, then least handle. *)
Definition earlier (a b : nat * timer) : bool :=
  (due a.2 <? due b.2) || (due a.2 =? due b.2) && (a.1 <? b.1)%nat.

Definition pick (x : nat * timer) (acc : option (nat * timer))
  : option (nat * timer) :=
  match acc with
  | None => Some x
  | Some y => if earlier x y then Some x else Some y
  end.

Definition earliest (t : table) : option (nat * timer) :=
  foldr pick None (map_to_list (pending t)).

(** Letting the clock run to [target]: the due timers fire one after
    the other, each at its due time; [fire] removes the timer and runs
    its callback, [arrive] sets the clock.  [fuel] bounds the number of
    firings. *)
Fixpoint run_due {S : Type} (table_of : S -> table)
         (fire : nat -> timer -> S -> S) (arrive : Z -> S -> S)
         (fuel : nat) (target : Z) (s : S) : S :=
  match fuel with
  | O => s
  | S fuel' =>
      match earliest (table_of s) with
      | Some (id, t) =>
          if due t <=? target
          then run_due table_of fire arrive fuel' target (fire id t s)
          else arrive target s
      | None => arrive target s
      end
  end.

End Timers.

(* ===================================================================== *)
(** * Timer-driven playback: the [PresentationViewer] component *)
(* ===================================================================== *)

Module Viewer.
Import Timers.

(** The component state ([useState]), the ref holding the timer handle
    ([useRef]), the host's timers and clock, the [ended] flag of the
    audio element, and a count of the scheduled advances that fired.

    A state update and the effects it triggers are taken as one step:
    no timer fires between a [setState] call and the effect cleanup
    that follows the re-render. *)
Record state := {
  currentSlideIndex : Z;
  isPlaying : bool;
  slideTimeoutRef : option nat;
  timers : table;
  now : Z;
  audio_ended : bool;
  advances : nat
}.

Definition mount : state :=
  {| currentSlideIndex := 0; isPlaying := false; slideTimeoutRef := None;
     timers := initial; now := 0; audio_ended := false; advances := 0 |}.

Definition with_timers (tb : table) (s : state) : state :=
  {| currentSlideIndex := currentSlideIndex s; isPlaying := isPlaying s;
     slideTimeoutRef := slideTimeoutRef s; timers := tb; now := now s;
     audio_ended := audio_ended s; advances := advances s |}.

Definition with_ref (r : option nat) (s : state) : state :=
  {| currentSlideIndex := currentSlideIndex s; isPlaying := isPlaying s;
     slideTimeoutRef := r; timers := timers s; now := now s;
     audio_ended := audio_ended s; advances := advances s |}.

Definition setIsPlaying (b : bool) (s : state) : state :=
  {| currentSlideIndex := currentSlideIndex s; isPlaying := b;
     slideTimeoutRef := slideTimeoutRef s; timers := timers s; now := now s;
     audio_ended := audio_ended s; advances := advances s |}.

Definition setCurrentSlideIndex (i : Z) (s : state) : state :=
  {| currentSlideIndex := i; isPlaying := isPlaying s;
     slideTimeoutRef := slideTimeoutRef s; timers := timers s; now := now s;
     audio_ended := audio_ended s; advances := advances s |}.

Definition with_audio_ended (b : bool) (s : state) : state :=
  {| currentSlideIndex := currentSlideIndex s; isPlaying := isPlaying s;
     slideTimeoutRef := slideTimeoutRef s; timers := timers s; now := now s;
     audio_ended := b; advances := advances s |}.

Definition arrive (t : Z) (s : state) : state :=
  {| currentSlideIndex := currentSlideIndex s; isPlaying := isPlaying s;
     slideTimeoutRef := slideTimeoutRef s; timers := timers s; now := t;
     audio_ended := audio_ended s; advances := advances s |}.

Definition count_advance (s : state) : state :=
  {| currentSlideIndex := currentSlideIndex s; isPlaying := isPlaying s;
     slideTimeoutRef := slideTimeoutRef s; timers := timers s; now := now s;
     audio_ended := audio_ended s; advances := S (advances s) |}.

Inductive event := PlayPause | AudioEnded | Elapse (dt : Z).

Section WithSlides.
(** The [slides] prop, each slide by its narration. *)
Variable slides : list Duration.jsstring.

Definition slides_length : Z := Z.of_nat (length slides).

(** The [slideDurations] state once the first effect has run. *)
Definition slideDurations : list spec_float :=
  Duration.slideDurations slides.

(** [if (slideTimeoutRef.current) clearTimeout(slideTimeoutRef.current)] *)
Definition clear_ref (s : state) : state :=
  match slideTimeoutRef s with
  | Some (S _ as id) => with_timers (clearTimeout id (timers s)) s
  | _ => s
  end.

(** [scheduleNextSlide], lines 39-51. *)
Definition scheduleNextSlide (s : state) : state :=
  let s := clear_ref s in
  if currentSlideIndex s <? slides_length - 1 then
    let delay :=
      delay_of (if 0 <=? currentSlideIndex s
                then slideDurations !! Z.to_nat (currentSlideIndex s)
                else None) in
    let '(id, tb) :=
      setTimeout (now s) delay (currentSlideIndex s) (timers s) in
    with_ref (Some id) (with_timers tb s)
  else setIsPlaying false s.

(** The effect of lines 53-65 and its cleanup. *)
Definition playback_effect (s : state) : state :=
  if isPlaying s then scheduleNextSlide s else clear_ref s.

Definition cleanup (s : state) : state := clear_ref s.

(** The effect depends on [isPlaying], [currentSlideIndex] and
    [scheduleNextSlide], which itself changes with the index. *)
Definition deps_changed (old new : state) : bool :=
  negb (Bool.eqb (isPlaying old) (isPlaying new)
        && (currentSlideIndex old =? currentSlideIndex new)).

(** Re-rendering after a batch of updates: when a dependency changed
    the cleanup of the previous effect runs, then the effect; the
    effect may itself stop playback, which re-renders once more. *)
Definition commit (old new : state) : state :=
  if deps_changed old new then
    let s1 := playback_effect (cleanup new) in
    if deps_changed new s1 then playback_effect (cleanup s1) else s1
  else new.

(** [handlePlayPause], lines 67-81. *)
Definition handlePlayPause (s : state) : state :=
  let s1 :=
    if isPlaying s then s                         (* audio.pause() *)
    else
      let s2 :=
        if audio_ended s || (currentSlideIndex s =? slides_length - 1)
        then setCurrentSlideIndex 0 s             (* audio.currentTime = 0 *)
        else s in
      with_audio_ended false s2 in                (* audio.play() *)
  commit s (setIsPlaying (negb (isPlaying s)) s1).

(** The [ended] listener of the audio element, lines 87-90. *)
Definition onEnded (s : state) : state :=
  commit s (setCurrentSlideIndex (slides_length - 1)
              (setIsPlaying false (with_audio_ended true s))).

(** A pending timer fires: [setCurrentSlideIndex(prev => prev + 1)]. *)
Definition fire (id : nat) (t : timer) (s : state) : state :=
  let s0 := count_advance
              (arrive (Z.max (now s) (due t))
                 (with_timers (clearTimeout id (timers s)) s)) in
  commit s0 (setCurrentSlideIndex (currentSlideIndex s0 + 1) s0).

(** The clock advances by [dt] milliseconds. *)
Definition elapse (dt : Z) (s : state) : state :=
  run_due timers fire arrive (S (length slides)) (now s + Z.max 0 dt) s.

Definition step (s : state) (e : event) : state :=
  match e with
  | PlayPause => handlePlayPause s
  | AudioEnded => onEnded s
  | Elapse dt => elapse dt s
  end.

Definition run (events : list event) : state := foldl step mount events.

(** The timer table holds at most the timer the ref points to. *)
Definition tidy (s : state) : Prop :=
  pending (timers s) = ∅ \/
  exists id t, pending (timers s) = {[ id := t ]} /\
               slideTimeoutRef s = Some id /\ (1 <= id)%nat.

(** What holds of every state of a session. *)
Record invariant (s : state) : Prop := {
  inv_index : 0 <= currentSlideIndex s < slides_length;
  inv_fresh : (1 <= next_id (timers s))%nat;
  inv_pending :
    pending (timers s) = ∅ \/
    exists id t,
      pending (timers s) = {[ id := t ]} /\
      slideTimeoutRef s = Some id /\ (1 <= id)%nat /\
      isPlaying s = true /\
      captured t = currentSlideIndex s /\
      currentSlideIndex s < slides_length - 1
}.
End WithSlides.

End Viewer.

(* ===================================================================== *)
(** * Capture and mux controller: [handleDownload] *)
(* ===================================================================== *)

Module Capture.
Import Timers.

(** The calls of [handleDownload] that can throw or reject, in program
    order. *)
Inductive call :=
| GetContext | CaptureStream | NewAudioContext | FetchAudio
| ReadArrayBuffer | DecodeAudioData | CreateAudioNodes | NewMediaStream
| NewMediaRecorder | RecorderStart | AudioStart | LoadImages
| RecorderStop.

(** What is thrown: an [Error] with its message, or another value (an
    image that fails to load rejects with an event). *)
Inductive exn := JsError (message : string) | NotAnError.

(** The environment decides which calls fail. *)
Definition oracle := call -> option exn.

Inductive recorder_state := NoRecorder | Inactive | Recording.

(** The media resources held by the export: the canvas capture stream,
    the audio context, its nodes (buffer source and stream destination)
    and the recorder. *)
Record resources := {
  videoStream : bool;
  audioContext : bool;
  audioNodes : bool;
  recorder : recorder_state
}.

(** The variables of the slide show, lines 186-187 and 216. *)
Record slideshow := {
  currentSlideIndex : Z;
  slideIndex : Z;
  slideTimeoutId : option nat;
  timers : table;
  now : Z;
  advances : nat
}.

(** Where an export stands.  [Loading]: the audio has been started and
    the images are awaited (line 176).  [Awaiting]: the slide show runs and
    the handler of the [ended] event has been installed (line 231).
    [LoadingOver] and [Stranded] are these two places when the audio ended
    while the images were awaited: no handler was installed then, the event
    is gone, and the promise of line 231 is never resolved. *)
Inductive phase :=
| Idle | Loading | LoadingOver | Awaiting | Stranded | Finished.

Record state := {
  isDownloading : bool;
  error : option string;
  messages : list string;     (* the messages passed to [setError] *)
  res : resources;
  show : slideshow;
  attempted : list call;      (* the fallible calls made, latest first *)
  stop_calls : nat;           (* calls of [recorder.stop()] *)
  downloads : nat;            (* files handed to the user *)
  stage : phase
}.

Definition no_resources : resources :=
  {| videoStream := false; audioContext := false; audioNodes := false;
     recorder := NoRecorder |}.

Definition initial_show : slideshow :=
  {| currentSlideIndex := 0; slideIndex := 0; slideTimeoutId := None;
     timers := initial; now := 0; advances := 0 |}.

Definition idle : state :=
  {| isDownloading := false; error := None; messages := [];
     res := no_resources; show := initial_show; attempted := [];
     stop_calls := 0; downloads := 0; stage := Idle |}.

Definition with_res (r : resources) (s : state) : state :=
  {| isDownloading := isDownloading s; error := error s;
     messages := messages s; res := r; show := show s;
     attempted := attempted s; stop_calls := stop_calls s;
     downloads := downloads s; stage := stage s |}.

Definition with_show (sh : slideshow) (s : state) : state :=
  {| isDownloading := isDownloading s; error := error s;
     messages := messages s; res := res s; show := sh;
     attempted := attempted s; stop_calls := stop_calls s;
     downloads := downloads s; stage := stage s |}.

Definition with_stage (p : phase) (s : state) : state :=
  {| isDownloading := isDownloading s; error := error s;
     messages := messages s; res := res s; show := show s;
     attempted := attempted s; stop_calls := stop_calls s;
     downloads := downloads s; stage := p |}.

Definition setIsDownloading (b : bool) (s : state) : state :=
  {| isDownloading := b; error := error s;
     messages := messages s; res := res s; show := show s;
     attempted := attempted s; stop_calls := stop_calls s;
     downloads := downloads s; stage := stage s |}.

(** [setError(null)] clears the message, [setError(msg)] shows one. *)
Definition setError (m : option string) (s : state) : state :=
  {| isDownloading := isDownloading s; error := m;
     messages := match m with Some msg => msg :: messages s
                 | None => messages s end;
     res := res s; show := show s;
     attempted := attempted s; stop_calls := stop_calls s;
     downloads := downloads s; stage := stage s |}.

Definition log_call (c : call) (s : state) : state :=
  {| isDownloading := isDownloading s; error := error s;
     messages := messages s; res := res s; show := show s;
     attempted := c :: attempted s;
     stop_calls := match c with RecorderStop => S (stop_calls s)
                   | _ => stop_calls s end;
     downloads := downloads s; stage := stage s |}.

Definition download (s : state) : state :=
  {| isDownloading := isDownloading s; error := error s;
     messages := messages s; res := res s; show := show s;
     attempted := attempted s; stop_calls := stop_calls s;
     downloads := S (downloads s); stage := stage s |}.

(** What a successful call acquires or changes. *)
Definition acquire (c : call) (r : resources) : resources :=
  match c with
  | CaptureStream =>
      {| videoStream := true; audioContext := audioContext r;
         audioNodes := audioNodes r; recorder := recorder r |}
  | NewAudioContext =>
      {| videoStream := videoStream r; audioContext := true;
         audioNodes := audioNodes r; recorder := recorder r |}
  | CreateAudioNodes =>
      {| videoStream := videoStream r; audioContext := audioContext r;
         audioNodes := true; recorder := recorder r |}
  | NewMediaRecorder =>
      {| videoStream := videoStream r; audioContext := audioContext r;
         audioNodes := audioNodes r; recorder := Inactive |}
  | RecorderStart =>
      {| videoStream := videoStream r; audioContext := audioContext r;
         audioNodes := audioNodes r; recorder := Recording |}
  | RecorderStop =>
      {| videoStream := videoStream r; audioContext := audioContext r;
         audioNodes := audioNodes r; recorder := Inactive |}
  | _ => r
  end.

(** ** The body of the [try] block as a state and exception monad *)

Definition M (A : Type) : Type := state -> state * (exn + A).

Definition ret {A} (a : A) : M A := fun s => (s, inr a).

Definition bind {A B} (m : M A) (k : A -> M B) : M B :=
  fun s => match m s with
           | (s', inl e) => (s', inl e)
           | (s', inr a) => k a s'
           end.

Definition modify (f : state -> state) : M unit := fun s => (f s, inr tt).

(** One fallible call: it is logged, and either throws what the
    environment says or takes effect. *)
Definition attempt (o : oracle) (c : call) : M unit :=
  fun s =>
    let s := log_call c s in
    match o c with
    | Some e => (s, inl e)
    | None => (with_res (acquire c (res s)) s, inr tt)
    end.

Notation "m1 >> m2" := (bind m1 (fun _ => m2))
  (at level 65, right associativity).

(** The state once the calls [cs] have been made and have succeeded. *)
Definition made (cs : list call) (s : state) : state :=
  foldl (fun s c => with_res (acquire c (res s)) (log_call c s)) s cs.

(** [err instanceof Error ? err.message : 'Failed to generate video.'] *)
Definition message_of (e : exn) : string :=
  match e with
  | JsError m => m
  | NotAnError => "Failed to generate video."
  end.

(** A canvas without a 2D context makes line 134 throw. *)
Definition context_check (o : oracle) : oracle :=
  fun c => match c, o c with
           | GetContext, Some _ => Some (JsError "Could not get canvas context")
           | _, r => r
           end.

Section WithSlides.
(** [generatedSlides], each slide by its narration. *)
Variable generatedSlides : list Duration.jsstring.

Definition slides_length : Z := Z.of_nat (length generatedSlides).

Definition slideDurations : list spec_float :=
  Duration.slideDurations generatedSlides.

(** [nextSlide], lines 217-224. *)
Definition nextSlide (sh : slideshow) : slideshow :=
  if slides_length <=? slideIndex sh then sh
  else
    let delay :=
      delay_of (if 0 <=? slideIndex sh
                then slideDurations !! Z.to_nat (slideIndex sh)
                else None) in
    let '(id, tb) := setTimeout (now sh) delay (slideIndex sh) (timers sh) in
    {| currentSlideIndex := slideIndex sh; slideIndex := slideIndex sh;
       slideTimeoutId := Some id; timers := tb; now := now sh;
       advances := advances sh |}.

(** [startSlideShow], lines 215-226. *)
Definition startSlideShow (sh : slideshow) : slideshow :=
  nextSlide
    {| currentSlideIndex := currentSlideIndex sh; slideIndex := 0;
       slideTimeoutId := slideTimeoutId sh; timers := timers sh;
       now := now sh; advances := advances sh |}.

(** The timer callback of line 220: [slideIndex++; nextSlide()]. *)
Definition fire (id : nat) (t : timer) (sh : slideshow) : slideshow :=
  nextSlide
    {| currentSlideIndex := currentSlideIndex sh;
       slideIndex := slideIndex sh + 1;
       slideTimeoutId := slideTimeoutId sh;
       timers := clearTimeout id (timers sh);
       now := Z.max (now sh) (due t);
       advances := S (advances sh) |}.

Definition arrive (t : Z) (sh : slideshow) : slideshow :=
  {| currentSlideIndex := currentSlideIndex sh;
     slideIndex := slideIndex sh;
     slideTimeoutId := slideTimeoutId sh; timers := timers sh;
     now := t; advances := advances sh |}.

(** [clearTimeout(slideTimeoutId)] in the [onended] handler. *)
Definition cancel_advance (sh : slideshow) : slideshow :=
  match slideTimeoutId sh with
  | Some id =>
      {| currentSlideIndex := currentSlideIndex sh;
         slideIndex := slideIndex sh;
         slideTimeoutId := slideTimeoutId sh;
         timers := clearTimeout id (timers sh);
         now := now sh; advances := advances sh |}
  | None => sh
  end.

(** Lines 130-171: everything up to [audioSource.start()].  The awaits
    of lines 139-141 come before the audio is started and before any timer
    is set, so nothing can happen in between that this part would see. *)
Definition start_audio (o : oracle) : M unit :=
  attempt o GetContext >>
  attempt o CaptureStream >>
  attempt o NewAudioContext >>
  attempt o FetchAudio >>
  attempt o ReadArrayBuffer >>
  attempt o DecodeAudioData >>
  attempt o CreateAudioNodes >>
  attempt o NewMediaStream >>
  attempt o NewMediaRecorder >>
  attempt o RecorderStart >>
  attempt o AudioStart.

(** Lines 176-229: the images have settled; the slide show is started. *)
Definition start_show (o : oracle) : M unit :=
  attempt o LoadImages >>
  modify (fun s => with_show (startSlideShow (show s)) s).

(** Lines 239-244: [catch] shows one message, [finally] clears the
    flag; nothing else is done. *)
Definition catch_finally (r : state * (exn + unit)) (after : state -> state)
  : state :=
  match r with
  | (s, inl e) =>
      with_stage Finished
        (setIsDownloading false (setError (Some (message_of e)) s))
  | (s, inr _) => after s
  end.

(** [handleDownload] up to the [await] of line 176, where it waits for
    the images while the audio is already playing. *)
Definition handleDownload (o : oracle) (audioUrl : bool) (s : state)
  : state :=
  if bool_decide (generatedSlides = []) || negb audioUrl then s
  else
    let s := setError None (setIsDownloading true s) in
    catch_finally (start_audio (context_check o) s) (with_stage Loading).

(** The images have settled: [handleDownload] resumes at line 176, starts
    the slide show and installs the handler of the [ended] event at line
    232; it then waits at line 231. *)
Definition images_settled (o : oracle) (s : state) : state :=
  match stage s with
  | Loading =>
      catch_finally (start_show (context_check o) s) (with_stage Awaiting)
  | LoadingOver =>
      catch_finally (start_show (context_check o) s) (with_stage Stranded)
  | _ => s
  end.

(** The audio source ends.  When the handler of lines 232-235 is
    installed it cancels the pending advance and resolves the promise;
    [handleDownload] resumes with [recorder.stop()] (line 238), whose
    [stop] event hands the file to the user (lines 158-168), and leaves
    through [finally].  While the images are awaited no handler is
    installed and the event is lost.  A buffer source ends only once: an
    [AudioEnded] that follows the first one stands for no event of the
    program and changes nothing. *)
Definition onended_handler (s : state) : state :=
  with_show (cancel_advance (show s)) s.

Definition resume (o : oracle) (s : state) : state :=
  catch_finally (attempt o RecorderStop s)
    (fun s => with_stage Finished (setIsDownloading false (download s))).

Definition onended (o : oracle) (s : state) : state :=
  match stage s with
  | Awaiting => resume o (onended_handler s)
  | Loading => with_stage LoadingOver s
  | _ => s
  end.

Definition elapse (dt : Z) (s : state) : state :=
  with_show
    (run_due timers fire arrive (S (length generatedSlides))
             (now (show s) + Z.max 0 dt) (show s)) s.

Inductive event := AudioEnded | Elapse (dt : Z) | ImagesSettled.

Definition step (o : oracle) (s : state) (e : event) : state :=
  match e with
  | AudioEnded => onended o s
  | Elapse dt => elapse dt s
  | ImagesSettled => images_settled o s
  end.

Definition run (o : oracle) (events : list event) : state :=
  foldl (step o) (handleDownload o true idle) events.

(** Lines 260 and 289: the error paragraph is part of the form, which is
    on screen only while there are no slides; an empty message is not
    rendered. *)
Definition error_shown (s : state) : option string :=
  match generatedSlides, error s with
  | [], Some m => if String.eqb m "" then None else Some m
  | _, _ => None
  end.

(** What holds of the slide show at every moment of an export. *)
Record invariant (sh : slideshow) : Prop := {
  inv_index : 0 <= currentSlideIndex sh < slides_length;
  inv_slideIndex :
    currentSlideIndex sh <= slideIndex sh <= currentSlideIndex sh + 1;
  inv_pending :
    pending (timers sh) = ∅ \/
    exists id t,
      pending (timers sh) = {[ id := t ]} /\
      slideTimeoutId sh = Some id /\
      slideIndex sh = currentSlideIndex sh /\
      captured t = currentSlideIndex sh
}.

(** What holds of every state of an export: while the images are awaited
    the slide show has not started. *)
Record wellformed (s : state) : Prop := {
  wf_show : invariant (show s);
  wf_loading :
    stage s = Loading \/ stage s = LoadingOver ->
    pending (timers (show s)) = ∅ /\ currentSlideIndex (show s) = 0
}.
End WithSlides.

(** The fallible calls made up to the start of the audio, and all those
    made before the slide show starts, in program order. *)
Definition audio_order : list call :=
  [GetContext; CaptureStream; NewAudioContext; FetchAudio; ReadArrayBuffer;
   DecodeAudioData; CreateAudioNodes; NewMediaStream; NewMediaRecorder;
   RecorderStart; AudioStart].

Definition program_order : list call := audio_order ++ [LoadImages].

Definition call_eqb (a b : call) : bool :=
  match a, b with
  | GetContext, GetContext | CaptureStream, CaptureStream
  | NewAudioContext, NewAudioContext | FetchAudio, FetchAudio
  | ReadArrayBuffer, ReadArrayBuffer | DecodeAudioData, DecodeAudioData
  | CreateAudioNodes, CreateAudioNodes | NewMediaStream, NewMediaStream
  | NewMediaRecorder, NewMediaRecorder | RecorderStart, RecorderStart
  | AudioStart, AudioStart | LoadImages, LoadImages
  | RecorderStop, RecorderStop => true
  | _, _ => false
  end.

(** The first of the calls [cs] that the environment fails, with what it
    throws. *)
Fixpoint first_failure (o : oracle) (cs : list call) : option (call * exn) :=
  match cs with
  | [] => None
  | c :: rest =>
      match o c with
      | Some e => Some (c, e)
      | None => first_failure o rest
      end
  end.

(** The calls that precede [c] in program order. *)
Fixpoint calls_before (c : call) (cs : list call) : list call :=
  match cs with
  | [] => []
  | c' :: rest => if call_eqb c' c then [] else c' :: calls_before c rest
  end.

(** The resources held once the calls [cs] have succeeded. *)
Definition held_after (cs : list call) : resources :=
  foldl (fun r c => acquire c r) no_resources cs.

(** An environment in which one call fails. *)
Definition failing (c : call) (e : exn) : oracle :=
  fun c' => if call_eqb c' c then Some e else None.

Definition all_succeed : oracle := fun _ => None.

(** No media resource is held. *)
Definition released (r : resources) : Prop :=
  videoStream r = false /\ audioContext r = false /\ audioNodes r = false /\
  recorder r <> Recording.

(** The state in which an export whose calls so far succeeded waits for
    the images, at time [t]; [over] tells that the audio has ended
    already. *)
Definition loading (t : Z) (over : bool) : state :=
  {| isDownloading := true; error := None; messages := [];
     res := held_after audio_order;
     show := arrive t initial_show;
     attempted := rev audio_order;
     stop_calls := 0; downloads := 0;
     stage := if over then LoadingOver else Loading |}.

(** The state in which such an export is left when the images fail to
    load with [e], at time [t]. *)
Definition images_failed (e : exn) (t : Z) : state :=
  {| isDownloading := false; error := Some (message_of e);
     messages := [message_of e];
     res := held_after audio_order;
     show := arrive t initial_show;
     attempted := LoadImages :: rev audio_order;
     stop_calls := 0; downloads := 0; stage := Finished |}.

(** The state in which it is once the images have loaded at time [t]
    and the slide show has been started. *)
Definition started (generatedSlides : list Duration.jsstring) (t : Z)
           (over : bool) : state :=
  {| isDownloading := true; error := None; messages := [];
     res := held_after program_order;
     show := startSlideShow generatedSlides (arrive t initial_show);
     attempted := rev program_order;
     stop_calls := 0; downloads := 0;
     stage := if over then Stranded else Awaiting |}.

End Capture.

(* ===================================================================== *)
(** * The slide schedule the timers realise *)
(* ===================================================================== *)

Module Schedule.
Import Timers.

Section WithSlides.
Variable slides : list Duration.jsstring.

(** The delay the host applies to the timer set while slide [i] is
    shown: [slideDurations[i]] converted, a negative value counting as
    zero. *)
Definition delay_at (i : Z) : Z :=
  Z.max 0 (delay_of (if 0 <=? i
                     then Duration.slideDurations slides !! Z.to_nat i
                     else None)).

(** The delays of all slides, in order. *)
Definition delays : list Z :=
  map (fun d => Z.max 0 (delay_of (Some d))) (Duration.slideDurations slides).
End WithSlides.

(** The time at which slide [i] comes on screen when slide [j] stays for
    [ds[j]] milliseconds. *)
Definition starts (ds : list Z) (i : nat) : Z := foldr Z.add 0 (take i ds).

(** The slide on screen [t] milliseconds after the start: each slide
    stays for its delay, and the last one stays on. *)
Fixpoint slide_at (ds : list Z) (t : Z) : Z :=
  match ds with
  | [] => 0
  | d :: rest =>
      match rest with
      | [] => 0
      | _ :: _ => if d <=? t then 1 + slide_at rest (t - d) else 0
      end
  end.

(** The time a sequence of clock steps takes; a negative step counts as
    zero. *)
Definition elapsed (dts : list Z) : Z := foldr Z.add 0 (Z.max 0 <$> dts).

(** A viewer session is on schedule, started at time [t0], when the
    slide on screen began at its scheduled time and the pending advance
    is due when the next one begins. *)
Definition on_schedule (slides : list Duration.jsstring) (t0 : Z)
           (s : Viewer.state) : Prop :=
  Viewer.invariant slides s /\
  t0 + starts (delays slides) (Z.to_nat (Viewer.currentSlideIndex s))
    <= Viewer.now s /\
  if Viewer.currentSlideIndex s <? Viewer.slides_length slides - 1 then
    exists id tm,
      pending (Viewer.timers s) = {[ id := tm ]} /\
      Viewer.now s <= due tm /\
      due tm = t0 + starts (delays slides)
                      (S (Z.to_nat (Viewer.currentSlideIndex s)))
  else pending (Viewer.timers s) = ∅.

(** While the play flag is set an advance is pending and the audio has
    not ended. *)
Definition playing_facts (s : Viewer.state) : Prop :=
  Viewer.isPlaying s = true ->
  pending (Viewer.timers s) <> ∅ /\ Viewer.audio_ended s = false.

(** The slide show of an export, started at time [t0], is on schedule
    when the slide on screen began at its scheduled time and either the
    advance to the next one is pending, due when that one begins, or the
    last slide has had its time. *)
Definition show_on_schedule (generatedSlides : list Duration.jsstring)
           (t0 : Z) (sh : Capture.slideshow) : Prop :=
  Capture.invariant generatedSlides sh /\
  t0 + starts (delays generatedSlides)
         (Z.to_nat (Capture.currentSlideIndex sh))
    <= Capture.now sh /\
  ((Capture.slideIndex sh = Capture.currentSlideIndex sh /\
    exists id tm,
      pending (Capture.timers sh) = {[ id := tm ]} /\
      Capture.now sh <= due tm /\
      due tm = t0 + starts (delays generatedSlides)
                      (S (Z.to_nat (Capture.currentSlideIndex sh))))
   \/ (Capture.slideIndex sh = Capture.slides_length generatedSlides /\
       Capture.currentSlideIndex sh
         = Capture.slides_length generatedSlides - 1 /\
       pending (Capture.timers sh) = ∅)).

End Schedule.

(* ===================================================================== *)
(** * The narration script and what the viewer displays *)
(* ===================================================================== *)

Module Script.
Import Duration.

(** [parts.join(' ')] *)
Fixpoint join_space (parts : list jsstring) : jsstring :=
  match parts with
  | [] => []
  | p :: rest =>
      match rest with
      | [] => p
      | _ :: _ => p ++ 32 :: join_space rest
      end
  end.

(** A text that is not empty and neither starts nor ends with white
    space. *)
Definition trimmed (p : jsstring) : Prop :=
  (exists c, head p = Some c /\ isWhiteSpace c = false) /\
  (exists c, last p = Some c /\ isWhiteSpace c = false).

(** Whether the text read so far ends inside a run of white space;
    [b] is the answer for the text before [s]. *)
Fixpoint ends_in_space (b : bool) (s : jsstring) : bool :=
  match s with
  | [] => b
  | c :: rest => ends_in_space (isWhiteSpace c) rest
  end.

(** The sum of the slide estimates. *)
Definition total {T} `{Arith T} (zero : T) (plus : T -> T -> T)
           (narrations : list jsstring) : T :=
  foldr (fun n acc => plus (estimate n) acc) zero narrations.

(** [slides[currentSlideIndex]], line 99 of the viewer. *)
Definition currentSlide {A} (slides : list A) (currentSlideIndex : Z)
  : option A :=
  if 0 <=? currentSlideIndex then slides !! Z.to_nat currentSlideIndex
  else None.

(** [((currentSlideIndex + 1) / slides.length) * 100], line 100. *)
Definition progressPercentage {T} `{Arith T} (currentSlideIndex : Z)
           (slides_length : Z) : T :=
  times (divide (of_int (currentSlideIndex + 1)) (of_int slides_length))
        (of_int 100).

End Script.

(* ===================================================================== *)
(** * Generating a presentation: the services and [handleGenerate] *)
(* ===================================================================== *)

Module Generate.
Import Duration.

(** [Slide] and [GeneratedSlide]; the latter is [{...slide, imageUrl}]. *)
Record Slide := {
  title : jsstring; narration : jsstring; imagePrompt : jsstring
}.

Record GeneratedSlide := { slide : Slide; imageUrl : jsstring }.

(** How an awaited promise settles: rejected with what was thrown, or
    resolved with a value. *)
Definition outcome (A : Type) : Type := Capture.exn + A.

(** ** The services *)

(** What the services read of a model response,
    [response.candidates?.[0]?.content?.parts?.[0]] and the
    [inlineData?.data] of that part; a property that is missing is
    [None]. *)
Record Part := { inlineData : option (option jsstring) }.
Record Content := { parts : option (list Part) }.
Record Candidate := { content : option Content }.
Record Response := { candidates : option (list Candidate) }.

Definition first_part (response : Response) : option Part :=
  cs ← candidates response; c ← head cs; ct ← content c;
  ps ← parts ct; head ps.

(** [generateImageForSlide]: the result is [part.inlineData.data], which
    may be [undefined]. *)
Definition generateImageForSlide (response : outcome Response)
  : outcome (option jsstring) :=
  match response with
  | inl e => inl e
  | inr r =>
      match first_part r ≫= inlineData with
      | Some data => inr data
      | None =>
          inl (Capture.JsError "Image generation failed or returned no data.")
      end
  end.

(** [generateNarrationAudio]: [!base64Audio] holds of [undefined] and of
    the empty string. *)
Definition generateNarrationAudio (response : outcome Response)
  : outcome jsstring :=
  match response with
  | inl e => inl e
  | inr r =>
      match first_part r ≫= inlineData with
      | Some (Some (c :: rest)) => inr (c :: rest)
      | _ => inl (Capture.JsError "Audio generation failed.")
      end
  end.

(** [Promise.all]: each promise is given with the time at which it
    settles.  The result is rejected with the reason of the promise that
    rejects first (the lower index on a tie), and resolved with all the
    values, in order, when none rejects. *)
Fixpoint first_rejection {A} (settled : list (Z * outcome A))
  : option (Z * Capture.exn) :=
  match settled with
  | [] => None
  | (t, r) :: rest =>
      match r, first_rejection rest with
      | inl e, Some (t', e') => if t' <? t then Some (t', e') else Some (t, e)
      | inl e, None => Some (t, e)
      | inr _, later => later
      end
  end.

Fixpoint values {A} (settled : list (Z * outcome A)) : list A :=
  match settled with
  | [] => []
  | (_, inr a) :: rest => a :: values rest
  | (_, inl _) :: rest => values rest
  end.

Definition Promise_all {A} (settled : list (Z * outcome A))
  : outcome (list A) :=
  match first_rejection settled with
  | Some (_, e) => inl e
  | None => inr (values settled)
  end.

(** ** The component state and [handleGenerate] *)

(** Where a running [handleGenerate] waits: at line 31, 36, 47 or 53. *)
Inductive stage :=
| Idle
| AwaitScript
| AwaitImages (scriptSlides : list Slide)
| AwaitNarration
| AwaitAudio.

(** The requests made to the services. *)
Inductive request :=
| ScriptRequest (topic : jsstring)
| ImageRequest (prompt : jsstring)
| NarrationRequest (script : jsstring).

(** The state of [App] that [handleGenerate] reads and writes, where the
    running call waits, and the requests made so far, in order. *)
Record state := {
  topic : jsstring;
  isLoading : bool;
  loadingMessage : string;
  error : option string;
  generatedSlides : list GeneratedSlide;
  audioUrl : jsstring;
  running : stage;
  requests : list request
}.

Definition initial : state :=
  {| topic := []; isLoading := false; loadingMessage := ""; error := None;
     generatedSlides := []; audioUrl := []; running := Idle;
     requests := [] |}.

Definition setTopic (t : jsstring) (s : state) : state :=
  {| topic := t; isLoading := isLoading s;
     loadingMessage := loadingMessage s; error := error s;
     generatedSlides := generatedSlides s; audioUrl := audioUrl s;
     running := running s; requests := requests s |}.

Definition setIsLoading (b : bool) (s : state) : state :=
  {| topic := topic s; isLoading := b;
     loadingMessage := loadingMessage s; error := error s;
     generatedSlides := generatedSlides s; audioUrl := audioUrl s;
     running := running s; requests := requests s |}.

Definition setLoadingMessage (m : string) (s : state) : state :=
  {| topic := topic s; isLoading := isLoading s;
     loadingMessage := m; error := error s;
     generatedSlides := generatedSlides s; audioUrl := audioUrl s;
     running := running s; requests := requests s |}.

Definition setError (m : option string) (s : state) : state :=
  {| topic := topic s; isLoading := isLoading s;
     loadingMessage := loadingMessage s; error := m;
     generatedSlides := generatedSlides s; audioUrl := audioUrl s;
     running := running s; requests := requests s |}.

Definition setGeneratedSlides (g : list GeneratedSlide) (s : state) : state :=
  {| topic := topic s; isLoading := isLoading s;
     loadingMessage := loadingMessage s; error := error s;
     generatedSlides := g; audioUrl := audioUrl s;
     running := running s; requests := requests s |}.

Definition setAudioUrl (u : jsstring) (s : state) : state :=
  {| topic := topic s; isLoading := isLoading s;
     loadingMessage := loadingMessage s; error := error s;
     generatedSlides := generatedSlides s; audioUrl := u;
     running := running s; requests := requests s |}.

Definition wait_at (w : stage) (s : state) : state :=
  {| topic := topic s; isLoading := isLoading s;
     loadingMessage := loadingMessage s; error := error s;
     generatedSlides := generatedSlides s; audioUrl := audioUrl s;
     running := w; requests := requests s |}.

Definition request_all (rs : list request) (s : state) : state :=
  {| topic := topic s; isLoading := isLoading s;
     loadingMessage := loadingMessage s; error := error s;
     generatedSlides := generatedSlides s; audioUrl := audioUrl s;
     running := running s; requests := requests s ++ rs |}.

(** [s.trim()] *)
Fixpoint trimStart (s : jsstring) : jsstring :=
  match s with
  | [] => []
  | c :: rest => if isWhiteSpace c then trimStart rest else s
  end.

Definition trim (s : jsstring) : jsstring :=
  rev (trimStart (rev (trimStart s))).

(** [err instanceof Error ? err.message : 'An unknown error occurred.'] *)
Definition message_of (e : Capture.exn) : string :=
  match e with
  | Capture.JsError m => m
  | Capture.NotAnError => "An unknown error occurred."
  end.

(** The [finally] block, lines 63-66, and the [catch] block before it. *)
Definition finally (s : state) : state :=
  wait_at Idle (setLoadingMessage "" (setIsLoading false s)).

Definition catch (e : Capture.exn) (s : state) : state :=
  finally (setError (Some (message_of e)) s).

(** Lines 18-31: up to the first [await]. *)
Definition handleGenerate (s : state) : state :=
  if bool_decide (trim (topic s) = []) then
    setError (Some "Please enter a topic.") s
  else
    wait_at AwaitScript
      (request_all [ScriptRequest (topic s)]
         (setLoadingMessage "Crafting the presentation script..."
            (setAudioUrl []
               (setGeneratedSlides []
                  (setError None (setIsLoading true s)))))).

(** Lines 31-36: the script has arrived, one image is requested for
    each slide. *)
Definition script_settled (r : outcome (list Slide)) (s : state) : state :=
  match r with
  | inl e => catch e s
  | inr scriptSlides =>
      wait_at (AwaitImages scriptSlides)
        (request_all (map (fun sl => ImageRequest (imagePrompt sl))
                          scriptSlides)
           (setLoadingMessage "Generating visuals for each slide..." s))
  end.

(** A value placed in a template literal: [undefined] reads
    "undefined". *)
Definition template (x : option (option jsstring)) : jsstring :=
  match x with
  | Some (Some d) => d
  | _ => of_ascii "undefined"
  end.

(** Lines 38-41. *)
Definition slidesWithImages (scriptSlides : list Slide)
           (base64Images : list (option jsstring)) : list GeneratedSlide :=
  imap (fun index sl =>
          {| slide := sl;
             imageUrl := of_ascii "data:image/png;base64,"
                         ++ template (base64Images !! index) |})
       scriptSlides.

(** Line 46. *)
Definition fullNarrationScript (slides : list GeneratedSlide) : jsstring :=
  Script.join_space (map (fun g => narration (slide g)) slides).

(** Lines 36-47: the images have arrived; the slides are shown and the
    narration is requested. *)
Definition images_settled (scriptSlides : list Slide)
           (r : outcome (list (option jsstring))) (s : state) : state :=
  match r with
  | inl e => catch e s
  | inr base64Images =>
      let slides := slidesWithImages scriptSlides base64Images in
      wait_at AwaitNarration
        (request_all [NarrationRequest (fullNarrationScript slides)]
           (setLoadingMessage "Recording the voice narration..."
              (setGeneratedSlides slides s)))
  end.

(** Lines 47-53: the narration has arrived and is being decoded. *)
Definition narration_settled (r : outcome jsstring) (s : state) : state :=
  match r with
  | inl e => catch e s
  | inr _ => wait_at AwaitAudio (setLoadingMessage "Finalizing audio..." s)
  end.

(** Lines 53-66: the audio is decoded and encoded again, and the URL of
    the result is stored; [r] is that URL, or what one of these steps
    threw. *)
Definition audio_settled (r : outcome jsstring) (s : state) : state :=
  match r with
  | inl e => catch e s
  | inr url => finally (setAudioUrl url s)
  end.

(** ** What is on screen, and what the user can do *)

(** Line 260: the form, or the presentation with its two buttons. *)
Inductive view := Form | Presentation.

Definition shown (s : state) : view :=
  if bool_decide (generatedSlides s = []) then Form else Presentation.

(** Line 289: the error paragraph belongs to the form. *)
Definition error_shown (s : state) : option string :=
  match shown s, error s with
  | Form, Some m => if String.eqb m "" then None else Some m
  | _, _ => None
  end.

(** Line 296, "Create a New Presentation". *)
Definition newPresentation (s : state) : state :=
  setAudioUrl [] (setTopic [] (setGeneratedSlides [] s)).

(** Line 124, the guard of [handleDownload]. *)
Definition download_refused (s : state) : bool :=
  bool_decide (generatedSlides s = []) || bool_decide (audioUrl s = []).

Inductive event :=
| Input (text : jsstring)
| ClickGenerate
| ClickNew
| ScriptSettled (r : outcome (list Slide))
| ImagesSettled (r : outcome (list (option jsstring)))
| NarrationSettled (r : outcome jsstring)
| AudioSettled (r : outcome jsstring).

(** The field and the button of the form are disabled while
    [isLoading]; a promise settles only where the call waits for it. *)
Definition step (s : state) (e : event) : state :=
  match e with
  | Input text =>
      match shown s with
      | Form => if isLoading s then s else setTopic text s
      | Presentation => s
      end
  | ClickGenerate =>
      match shown s with
      | Form => if isLoading s then s else handleGenerate s
      | Presentation => s
      end
  | ClickNew =>
      match shown s with
      | Presentation => newPresentation s
      | Form => s
      end
  | ScriptSettled r =>
      match running s with AwaitScript => script_settled r s | _ => s end
  | ImagesSettled r =>
      match running s with
      | AwaitImages scriptSlides => images_settled scriptSlides r s
      | _ => s
      end
  | NarrationSettled r =>
      match running s with AwaitNarration => narration_settled r s | _ => s end
  | AudioSettled r =>
      match running s with AwaitAudio => audio_settled r s | _ => s end
  end.

Definition run (events : list event) : state := foldl step initial events.

(** ** The name of the downloaded file *)

(** [topic.replace(/\s+/g, '_')] *)
Fixpoint replace_whitespace (inrun : bool) (s : jsstring) : jsstring :=
  match s with
  | [] => []
  | c :: rest =>
      if isWhiteSpace c then
        if inrun then replace_whitespace true rest
        else 95 :: replace_whitespace true rest
      else c :: replace_whitespace false rest
  end.

(** Line 163. *)
Definition fileName (topic : jsstring) : jsstring :=
  match replace_whitespace false topic with
  | [] => of_ascii "presentation"
  | name => name
  end ++ of_ascii ".webm".

(** What holds of every state the component reaches. *)
Record invariant (s : state) : Prop := {
  inv_loading : isLoading s = true <-> running s <> Idle;
  inv_message : isLoading s = false -> loadingMessage s = "";
  inv_topic : generatedSlides s <> [] -> trim (topic s) <> [];
  inv_audio : running s <> Idle -> audioUrl s = [];
  inv_early :
    match running s with
    | AwaitScript | AwaitImages _ =>
        generatedSlides s = [] /\ trim (topic s) <> []
    | _ => True
    end
}.

End Generate.

(* ===================================================================== *)
(** * Proofs: rounding, the sample conversion and the encoder *)
(* ===================================================================== *)

Section Rounding.
Import Binary64 Wav.

Lemma shr_1_m mrs : 0 <= shr_m mrs -> shr_m (shr_1 mrs) = shr_m mrs / 2.
Proof.
  destruct mrs as [m r s]; simpl. intros Hm.
  destruct m as [|[p|p|]|p]; try lia; cbn [shr_m].
  - reflexivity.
  - apply (Z.div_unique _ _ _ 1); lia.
  - apply (Z.div_unique _ _ _ 0); lia.
  - reflexivity.
Qed.

Lemma shr_1_inexact mrs :
  0 <= shr_m mrs -> inexact (shr_1 mrs) = inexact mrs || Z.odd (shr_m mrs).
Proof.
  destruct mrs as [m r s]; unfold inexact; simpl. intros Hm.
  destruct m as [|[p|p|]|p]; try lia; simpl; destruct r, s; reflexivity.
Qed.

Lemma iter_pos_nat {A} (f : A -> A) p x :
  SpecFloat.iter_pos f p x = Nat.iter (Pos.to_nat p) f x.
Proof.
  revert x. induction p as [p IH|p IH|]; intros x; cbn [SpecFloat.iter_pos].
  - rewrite !IH, Pos2Nat.inj_xI, <- Nat.iter_succ_r, <- Nat.iter_add.
    f_equal. lia.
  - rewrite !IH, Pos2Nat.inj_xO, <- Nat.iter_add. f_equal. lia.
  - reflexivity.
Qed.

Lemma iter_shr_1 n mrs :
  0 <= shr_m mrs ->
  let r := Nat.iter n shr_1 mrs in
  shr_m r = shr_m mrs / 2 ^ Z.of_nat n /\
  (inexact r = false <->
   inexact mrs = false /\ shr_m mrs mod 2 ^ Z.of_nat n = 0).
Proof.
  intros Hm. induction n as [|n [IHm IHi]]; cbn zeta.
  - simpl. rewrite Z.div_1_r, Z.mod_1_r. tauto.
  - rewrite Nat2Z.inj_succ, Z.pow_succ_r by lia. simpl Nat.iter.
    assert (Hpos : 0 <= shr_m (Nat.iter n shr_1 mrs)).
    { rewrite IHm. apply Z.div_pos; lia. }
    split.
    + rewrite shr_1_m, IHm by assumption.
      rewrite Z.div_div by lia. f_equal. lia.
    + rewrite shr_1_inexact by assumption.
      rewrite orb_false_iff, IHi, IHm, (Z.mul_comm 2), Z.rem_mul_r by lia.
      rewrite (Zmod_odd (shr_m mrs / 2 ^ Z.of_nat n)).
      pose proof (Z.mod_pos_bound (shr_m mrs) (2 ^ Z.of_nat n) ltac:(lia)).
      destruct (Z.odd (shr_m mrs / 2 ^ Z.of_nat n));
        intuition (try congruence; try nia).
Qed.

Lemma digits2_pos_size p : digits2_pos p = Pos.size p.
Proof. induction p; simpl; congruence. Qed.

Lemma Zdigits2_le M d : 0 <= M -> 0 <= d -> M < 2 ^ d -> Zdigits2 M <= d.
Proof.
  intros HM Hd Hlt. destruct M as [|p|p]; simpl; try lia.
  rewrite digits2_pos_size.
  pose proof (Pos.size_le p) as Hs.
  apply Pos2Z.pos_le_pos in Hs. rewrite Pos2Z.inj_pow in Hs.
  assert (H2 : 2 ^ Z.pos (Pos.size p) < 2 ^ (d + 1)).
  { rewrite Z.pow_add_r, Z.pow_1_r by lia. lia. }
  apply Z.pow_lt_mono_r_iff in H2; lia.
Qed.

Lemma shr_fexp_bound M E K :
  0 <= M -> 0 <= K < 2 ^ 53 -> E <= 0 -> M <= K * 2 ^ (- E) ->
  let r := shr_fexp prec emax M E loc_Exact in
  snd r <= 0 /\ 0 <= shr_m (fst r) /\
  shr_m (fst r) <= K * 2 ^ (- snd r) /\
  (inexact (fst r) = true -> shr_m (fst r) < K * 2 ^ (- snd r)).
Proof.
  intros HM HK HE Hle. unfold shr_fexp, shr; cbn [shr_record_of_loc].
  assert (Hdig : Zdigits2 M <= 53 - E).
  { apply Zdigits2_le; try lia.
    replace (53 - E) with (53 + - E) by lia. rewrite Z.pow_add_r by lia.
    assert (0 < 2 ^ (- E)) by (apply Z.pow_pos_nonneg; lia). nia. }
  assert (Hf : fexp prec emax (Zdigits2 M + E) <= 0).
  { unfold fexp, emin, prec, emax. lia. }
  destruct (fexp prec emax (Zdigits2 M + E) - E) as [|n|n] eqn:Hn;
    cbn [fst snd shr_m]; unfold inexact; cbn [shr_r shr_s orb];
    try (repeat split; (lia || discriminate)).
  rewrite iter_pos_nat.
  destruct (iter_shr_1 (Pos.to_nat n) (Build_shr_record M false false) HM)
    as [Hm Hi]. cbn [shr_m] in Hm, Hi. fold (inexact (Nat.iter (Pos.to_nat n) shr_1 (Build_shr_record M false false))).
  rewrite positive_nat_Z in Hm, Hi.
  set (E' := E + Z.pos n) in *.
  assert (HP : 0 < 2 ^ Z.pos n) by (apply Z.pow_pos_nonneg; lia).
  assert (HX : K * 2 ^ (- E) = 2 ^ Z.pos n * (K * 2 ^ (- E'))).
  { replace (- E) with (Z.pos n + - E') by lia.
    rewrite Z.pow_add_r by lia. ring. }
  rewrite HX in Hle. rewrite Hm.
  repeat split.
  - lia.
  - apply Z.div_pos; lia.
  - apply Z.div_le_upper_bound; lia.
  - intros Hin.
    assert (Hle' : M / 2 ^ Z.pos n <= K * 2 ^ (- E'))
      by (apply Z.div_le_upper_bound; lia).
    destruct (Z.eq_dec (M / 2 ^ Z.pos n) (K * 2 ^ (- E'))) as [Heq|]; [|lia].
    exfalso.
    assert (M mod 2 ^ Z.pos n = 0).
    { pose proof (Z.div_mod M (2 ^ Z.pos n) ltac:(lia)).
      pose proof (Z.mod_pos_bound M (2 ^ Z.pos n) HP). nia. }
    assert (inexact (Nat.iter (Pos.to_nat n) shr_1 (Build_shr_record M false false)) = false).
    { apply Hi. split; [reflexivity | assumption]. }
    congruence.
Qed.

Lemma round_nearest_even_bound mrs X :
  0 <= shr_m mrs -> shr_m mrs <= X ->
  (inexact mrs = true -> shr_m mrs < X) ->
  0 <= round_nearest_even (shr_m mrs) (loc_of_shr_record mrs) <= X.
Proof.
  destruct mrs as [m [|] [|]]; unfold inexact; cbn; intros H0 H1 H2;
    try destruct (Z.even m); lia.
Qed.

(** Rounding a non-negative value that does not exceed the integer [K]
    yields a number whose integer part does not exceed [K] either. *)
Lemma binary_round_aux_truncate sx M E K :
  0 <= M -> 0 <= K < 2 ^ 53 -> E <= 0 -> M <= K * 2 ^ (- E) ->
  exists t, truncate (binary_round_aux prec emax sx M E loc_Exact)
            = cond_Zopp sx t /\ 0 <= t <= K.
Proof.
  intros HM HK HE Hle. unfold binary_round_aux.
  pose proof (shr_fexp_bound M E K HM HK HE Hle) as H1. cbn zeta in H1.
  destruct (shr_fexp prec emax M E loc_Exact) as [mrs' e'].
  cbn [fst snd] in H1. destruct H1 as (He' & Hm0 & Hm1 & Hm2).
  pose proof (round_nearest_even_bound mrs' _ Hm0 Hm1 Hm2) as [Hr0 Hr1].
  pose proof (shr_fexp_bound _ e' K Hr0 HK He' Hr1) as H2. cbn zeta in H2.
  destruct (shr_fexp prec emax _ e' loc_Exact) as [mrs'' e''].
  cbn [fst snd] in H2. destruct H2 as (He'' & Hn0 & Hn1 & _).
  destruct (shr_m mrs'') as [|m|m] eqn:Hm.
  - exists 0. destruct sx; cbn; lia.
  - replace (e'' <=? emax - prec) with true
      by (symmetry; apply Z.leb_le; unfold emax, prec; lia).
    cbn [truncate]. exists (Z.shiftl (Z.pos m) e''). split; [reflexivity|].
    rewrite <- (Z.opp_involutive e'') at 1 2.
    rewrite Z.shiftl_opp_r, Z.shiftr_div_pow2 by lia.
    assert (0 < 2 ^ (- e'')) by (apply Z.pow_pos_nonneg; lia).
    split; [apply Z.div_pos; lia | apply Z.div_le_upper_bound; lia].
  - lia.
Qed.

End Rounding.

Section SampleConversion.
Import Binary64 Wav.

Lemma valid_mantissa s m e :
  valid (S754_finite s m e) -> Z.pos m < 2 ^ 53.
Proof.
  unfold valid, valid_binary, bounded, canonical_mantissa.
  intros Hv. apply andb_prop in Hv as [Hc _]. apply Z.eqb_eq in Hc.
  assert (Hd : Z.pos (digits2_pos m) <= 53)
    by (unfold fexp, emin, prec, emax in Hc; lia).
  rewrite digits2_pos_size in Hd.
  pose proof (Pos.size_gt m) as Hs. apply Pos2Z.pos_lt_pos in Hs.
  rewrite Pos2Z.inj_pow in Hs.
  eapply Z.lt_le_trans; [exact Hs|].
  apply Z.pow_le_mono_r; lia.
Qed.

Lemma unit_range_below_one s m e :
  Z.pos m < 2 ^ 53 ->
  (e < -52 \/ e = -52 /\ Z.pos m < 4503599627370496) ->
  unit_range (S754_finite s m e).
Proof.
  intros Hm [He|[He Hlt]]; cbn [unit_range].
  - split; [lia|].
    assert (2 ^ 53 <= 2 ^ (- e)) by (apply Z.pow_le_mono_r; lia). lia.
  - subst e. split; [lia|]. change (2 ^ (- -52)) with 4503599627370496. lia.
Qed.

Lemma SFcompare_finite s1 m1 e1 s2 m2 e2 :
  SFcompare (S754_finite s1 m1 e1) (S754_finite s2 m2 e2) =
  Some match s1, s2 with
       | true, false => Lt
       | false, true => Gt
       | false, false =>
           match e1 ?= e2 with
           | Lt => Lt | Gt => Gt | Eq => Z.pos m1 ?= Z.pos m2
           end
       | true, true =>
           match e1 ?= e2 with
           | Lt => Gt | Gt => Lt | Eq => CompOpp (Z.pos m1 ?= Z.pos m2)
           end
       end.
Proof. reflexivity. Qed.

(** The clamped sample is NaN or lies between -1 and 1. *)
Lemma clamp_unit_range x : valid x -> unit_range (clamp x).
Proof.
  intros Hv.
  destruct x as [[|]|[|]| |s m e];
    [vm_compute; tauto | vm_compute; tauto | vm_compute; split; congruence
    | vm_compute; split; congruence | vm_compute; tauto | ].
  pose proof (valid_mantissa _ _ _ Hv) as Hm. clear Hv.
  unfold clamp, Math_min, one.
  destruct (SFltb (S754_finite s m e) _) eqn:Hlt1;
    [|vm_compute; split; congruence].
  unfold Math_max, minus_one.
  destruct (SFltb _ (S754_finite s m e)) eqn:Hlt2;
    [|vm_compute; split; congruence].
  apply unit_range_below_one; [assumption|].
  unfold SFltb in Hlt1, Hlt2. rewrite SFcompare_finite in Hlt1, Hlt2.
  destruct s.
  - clear Hlt1.
    destruct (Z.compare_spec (-52) e) as [He|He|He].
    + right. split; [symmetry; exact He|].
      destruct (Z.compare_spec 4503599627370496 (Z.pos m)) as [H|H|H];
        [discriminate Hlt2 | discriminate Hlt2 | exact H].
    + discriminate Hlt2.
    + left. exact He.
  - clear Hlt2.
    destruct (Z.compare_spec e (-52)) as [He|He|He].
    + right. split; [exact He|].
      destruct (Z.compare_spec (Z.pos m) 4503599627370496) as [H|H|H];
        [discriminate Hlt1 | exact H | discriminate Hlt1].
    + left. exact He.
    + discriminate Hlt1.
Qed.

Lemma binary_round_aux_sign sx M E l :
  match binary_round_aux prec emax sx M E l with
  | S754_zero s | S754_infinity s | S754_finite s _ _ => s = sx
  | S754_nan => True
  end.
Proof.
  unfold binary_round_aux.
  destruct (shr_fexp prec emax M E l) as [mrs' e'].
  destruct (shr_fexp prec emax _ e' loc_Exact) as [mrs'' e''].
  destruct (shr_m mrs''); [reflexivity| |exact I].
  destruct (e'' <=? emax - prec); reflexivity.
Qed.

(** Only a negative sample takes the 32768 branch. *)
Lemma add_half_positive m e :
  ltb (add half (S754_finite false m e)) zero = false.
Proof.
  unfold add, SFadd, half. cbn [cond_Zopp].
  rewrite <- Pos2Z.inj_add. cbn [binary_normalize]. unfold binary_round.
  destruct (shl_align _ _ _) as [mz ez].
  pose proof (binary_round_aux_sign false (Z.pos mz) ez loc_Exact) as Hs.
  destruct (binary_round_aux prec emax false (Z.pos mz) ez loc_Exact)
    as [s|s| |s m' e']; try subst s; reflexivity.
Qed.

Lemma wrap_signed_small z :
  - 2 ^ 31 <= z < 2 ^ 31 -> wrap_signed 32 z = z.
Proof.
  intros Hz. unfold wrap_signed.
  change (2 ^ 32) with 4294967296. change (2 ^ (32 - 1)) with 2147483648.
  change (2 ^ 31) with 2147483648 in Hz.
  destruct (Z.ltb_spec (z mod 4294967296) 2147483648) as [H|H];
    pose proof (Z.mod_pos_bound z 4294967296 ltac:(lia));
    pose proof (Z.div_mod z 4294967296 ltac:(lia)); lia.
Qed.

(** The scaled sample, as an integer, with its sign. *)
Lemma scale_truncate c :
  unit_range c ->
  - 32768 <= truncate (scale c) <= 32767.
Proof.
  intros Hu.
  destruct c as [[|]|s| |s m e];
    [vm_compute; split; congruence | vm_compute; split; congruence
    | destruct Hu | vm_compute; split; congruence | ].
  - destruct Hu as [He Hm].
    assert (HP : 0 < 2 ^ (- e)) by (apply Z.pow_pos_nonneg; lia).
    unfold scale. destruct (ltb _ zero) eqn:Hlt.
    + destruct s; [|rewrite add_half_positive in Hlt; discriminate].
      unfold mul, SFmul, k32768. cbn [xorb].
      destruct (binary_round_aux_truncate true
                  (Z.pos (m * 4503599627370496)) (e + -37) 32768)
        as (t & Ht & Hr); try lia.
      { rewrite Pos2Z.inj_mul.
        replace (- (e + -37)) with (37 + - e) by lia.
        rewrite Z.pow_add_r by lia. change (2 ^ 37) with 137438953472. nia. }
      rewrite Ht. cbn [cond_Zopp]. lia.
    + unfold mul, SFmul, k32767.
      destruct (binary_round_aux_truncate (xorb s false)
                  (Z.pos (m * 9006924376834048)) (e + -38) 32767)
        as (t & Ht & Hr); try lia.
      { rewrite Pos2Z.inj_mul.
        replace (- (e + -38)) with (38 + - e) by lia.
        rewrite Z.pow_add_r by lia. change (2 ^ 38) with 274877906944. nia. }
      rewrite Ht. destruct s; cbn [xorb cond_Zopp]; lia.
Qed.

Lemma sampleToInt_truncate x :
  valid x -> sampleToInt x = truncate (scale (clamp x)).
Proof.
  intros Hv. unfold sampleToInt, ToInt32.
  pose proof (scale_truncate _ (clamp_unit_range x Hv)).
  apply wrap_signed_small. change (2 ^ 31) with 2147483648. lia.
Qed.

Lemma sampleToInt_range x :
  valid x -> - 32768 <= sampleToInt x <= 32767.
Proof.
  intros Hv. rewrite sampleToInt_truncate by assumption.
  apply scale_truncate, clamp_unit_range, Hv.
Qed.

End SampleConversion.

Section Refinement.
Import Binary64 Wav.

Lemma SFltb_asym s m e s' m' e' :
  SFltb (S754_finite s m e) (S754_finite s' m' e') = true ->
  SFltb (S754_finite s' m' e') (S754_finite s m e) = false.
Proof.
  unfold SFltb. rewrite !SFcompare_finite.
  rewrite (Z.compare_antisym e e'), (Z.compare_antisym (Z.pos m) (Z.pos m')).
  destruct s, s', (e ?= e'), (Z.pos m ?= Z.pos m'); cbn; congruence.
Qed.

Lemma SFltb_total s m e s' m' e' :
  SFltb (S754_finite s m e) (S754_finite s' m' e') = false ->
  SFltb (S754_finite s' m' e') (S754_finite s m e) = false ->
  S754_finite s m e = S754_finite s' m' e'.
Proof.
  unfold SFltb. rewrite !SFcompare_finite.
  rewrite (Z.compare_antisym e e'), (Z.compare_antisym (Z.pos m) (Z.pos m')).
  destruct s, s', (Z.compare_spec e e') as [He|He|He],
    (Z.compare_spec (Z.pos m) (Z.pos m')) as [Hm|Hm|Hm];
    cbn; intros H1 H2; try discriminate; congruence.
Qed.

(** [Math.max(-1, Math.min(1, x))] is the clamp of the specification. *)
Lemma clamp_spec_clamp x : clamp x = spec_clamp x.
Proof.
  destruct x as [[|]|[|]| |s m e]; try reflexivity.
  unfold clamp, spec_clamp, gtb, ltb, Math_min, Math_max, one, minus_one.
  destruct (SFltb (S754_finite s m e) (S754_finite false _ _)) eqn:H1.
  - rewrite (SFltb_asym _ _ _ _ _ _ H1).
    destruct (SFltb (S754_finite true _ _) (S754_finite s m e)) eqn:H2.
    + rewrite (SFltb_asym _ _ _ _ _ _ H2). reflexivity.
    + destruct (SFltb (S754_finite s m e) (S754_finite true _ _)) eqn:H3;
        [reflexivity|].
      symmetry. apply SFltb_total; assumption.
  - change (SFltb (S754_finite true 4503599627370496 (-52))
                  (S754_finite false 4503599627370496 (-52))) with true.
    cbn iota.
    destruct (SFltb (S754_finite false _ _) (S754_finite s m e)) eqn:H2;
      [reflexivity|].
    rewrite (SFltb_total _ _ _ _ _ _ H1 H2). reflexivity.
Qed.

Lemma SFadd_comm x y : SFadd prec emax x y = SFadd prec emax y x.
Proof.
  destruct x as [[|]|[|]| |s m e], y as [[|]|[|]| |s' m' e'];
    try reflexivity.
  unfold SFadd. rewrite (Z.min_comm e e'). f_equal. apply Z.add_comm.
Qed.

Lemma shr_fexp_nonneg M E l :
  0 <= M -> 0 <= shr_m (fst (shr_fexp prec emax M E l)).
Proof.
  intros HM. unfold shr_fexp, shr.
  assert (H0 : 0 <= shr_m (shr_record_of_loc M l))
    by (destruct l as [|[| |]]; exact HM).
  destruct (fexp prec emax (Zdigits2 M + E) - E) as [|n|n];
    cbn [fst]; try exact H0.
  rewrite iter_pos_nat.
  destruct (iter_shr_1 (Pos.to_nat n) _ H0) as [Hm _]. rewrite Hm.
  apply Z.div_pos; [exact H0|]. apply Z.pow_pos_nonneg; lia.
Qed.

Lemma round_nearest_even_nonneg m l :
  0 <= m -> 0 <= round_nearest_even m l.
Proof.
  intros Hm. destruct l as [|[| |]]; cbn; try destruct (Z.even m); lia.
Qed.

(** Rounding a non-negative mantissa never produces NaN. *)
Lemma binary_round_aux_not_nan sx M E l :
  0 <= M -> binary_round_aux prec emax sx M E l <> S754_nan.
Proof.
  intros HM. unfold binary_round_aux.
  pose proof (shr_fexp_nonneg M E l HM) as H1.
  destruct (shr_fexp prec emax M E l) as [mrs' e']. cbn [fst] in H1.
  pose proof (shr_fexp_nonneg _ e' loc_Exact
                (round_nearest_even_nonneg _ (loc_of_shr_record mrs') H1)) as H2.
  destruct (shr_fexp prec emax _ e' loc_Exact) as [mrs'' e'']. cbn [fst] in H2.
  destruct (shr_m mrs''); [discriminate| |lia].
  destruct (e'' <=? emax - prec); discriminate.
Qed.

Lemma add_finite_not_nan s m e s' m' e' :
  add (S754_finite s m e) (S754_finite s' m' e') <> S754_nan.
Proof.
  unfold add, SFadd.
  destruct (_ + _) as [|p|p]; cbn [binary_normalize]; [discriminate| |];
    unfold binary_round; destruct (shl_align _ _ _) as [mz ez];
    apply binary_round_aux_not_nan; lia.
Qed.

Lemma SFleb_zero_ltb y :
  y <> S754_nan -> SFleb zero y = negb (ltb y zero).
Proof. destruct y as [[|]|[|]| |[|] m e]; intros H; try reflexivity; congruence. Qed.

(** The scaling of line 103 chooses as the specification says. *)
Lemma scale_spec c :
  scale c = mul c (if SFleb zero (add c half) then k32767 else k32768).
Proof.
  unfold scale, add. rewrite (SFadd_comm c half). fold (add half c).
  destruct c as [[|]|[|]| |s m e]; try reflexivity.
  rewrite SFleb_zero_ltb by (unfold half; apply add_finite_not_nan).
  destruct (ltb _ zero); reflexivity.
Qed.

(** On every binary64 value the code computes the sample of the
    specification, and the 16-bit store does not wrap. *)
Lemma sampleToInt_spec x : valid x -> sampleToInt x = spec_sample x.
Proof.
  intros Hv. rewrite sampleToInt_truncate by assumption.
  unfold spec_sample. rewrite <- clamp_spec_clamp, <- scale_spec. reflexivity.
Qed.

End Refinement.

Section Encoder.
Import Binary64 Wav.

Lemma length_le_bytes n v : length (le_bytes n v) = n.
Proof. revert v. induction n as [|n IH]; intros v; cbn; [|rewrite IH]; reflexivity. Qed.

Lemma DataView_set_st n value written k :
  DataView_set n (Z.of_nat (length written)) value
               (written ++ replicate (n + k) 0)
  = Some ((written ++ le_bytes n value) ++ replicate k 0).
Proof.
  unfold DataView_set. rewrite bool_decide_eq_true_2.
  2:{ rewrite length_app, length_replicate. lia. }
  f_equal. rewrite Nat2Z.id.
  pose proof (list_inserts_app_r (le_bytes n value) written
                (replicate (n + k) 0) 0) as Hins.
  rewrite Nat.add_0_r in Hins. rewrite Hins.
  rewrite replicate_add, list_inserts_0_r
    by (rewrite length_le_bytes, length_replicate; reflexivity).
  rewrite app_assoc. reflexivity.
Qed.

Lemma st_pos_add written bs k :
  {| view := (written ++ bs) ++ replicate k 0;
     pos := Z.of_nat (length written) + Z.of_nat (length bs) |}
  = writer_after (written ++ bs) k.
Proof. unfold writer_after. rewrite length_app, Nat2Z.inj_add. reflexivity. Qed.

Lemma setUint32_st data written k :
  setUint32 data (writer_after written (4 + k))
  = Some (writer_after (written ++ le_bytes 4 data) k).
Proof.
  unfold setUint32. cbn [writer_after view pos].
  rewrite (DataView_set_st 4 data written k). cbn [mbind option_bind].
  f_equal. apply (st_pos_add written (le_bytes 4 data) k).
Qed.

Lemma setUint16_st data written k :
  setUint16 data (writer_after written (2 + k))
  = Some (writer_after (written ++ le_bytes 2 data) k).
Proof.
  unfold setUint16. cbn [writer_after view pos].
  rewrite (DataView_set_st 2 data written k). cbn [mbind option_bind].
  f_equal. apply (st_pos_add written (le_bytes 2 data) k).
Qed.

Lemma write_sample_st c offset written k :
  write_sample c offset (writer_after written (2 + k))
  = Some (writer_after (written
              ++ le_bytes 2 (sampleToInt (default S754_nan (c !! offset)))) k).
Proof.
  unfold write_sample. cbn [writer_after view pos].
  rewrite (DataView_set_st 2 _ written k). cbn [mbind option_bind].
  f_equal. apply (st_pos_add written (le_bytes 2 _) k).
Qed.

Lemma write_frame_st channels offset written k :
  write_frame channels offset (writer_after written (2 * length channels + k))
  = Some (writer_after (written ++ frame_bytes channels offset) k).
Proof.
  revert written. induction channels as [|c rest IH]; intros written.
  - cbn. rewrite app_nil_r. reflexivity.
  - cbn [write_frame length].
    replace (2 * S (length rest) + k)%nat
      with (2 + (2 * length rest + k))%nat by lia.
    rewrite write_sample_st. cbn [mbind option_bind].
    rewrite IH. unfold frame_bytes. cbn [flat_map]. rewrite app_assoc. reflexivity.
Qed.

Lemma frame_length channels offset :
  length (frame_bytes channels offset) = (2 * length channels)%nat.
Proof.
  induction channels as [|c rest IH]; [reflexivity|].
  unfold frame_bytes in *. cbn [flat_map length]. rewrite length_app, IH.
  rewrite length_le_bytes. lia.
Qed.

Lemma frames_no_channel l : flat_map (frame_bytes []) l = [].
Proof. induction l as [|o l IH]; [reflexivity | exact IH]. Qed.

Lemma write_frames_st channels r : forall fuel offset written,
  (channels = [] \/ r <= fuel)%nat ->
  write_frames fuel channels
    (Z.of_nat (length written + r * (2 * length channels))) offset
    (writer_after written (r * (2 * length channels)))
  = Some (writer_after (written ++ flat_map (frame_bytes channels) (seq offset r)) 0).
Proof.
  destruct channels as [|c rest] eqn:Hc.
  - intros fuel offset written _. cbn [length].
    replace (r * (2 * 0))%nat with 0%nat by lia.
    rewrite frames_no_channel, app_nil_r.
    destruct fuel; cbn [write_frames writer_after pos];
      rewrite (proj2 (Z.ltb_ge _ _)) by lia; reflexivity.
  - rewrite <- Hc. assert (Hlen : (0 < length channels)%nat)
      by (rewrite Hc; cbn; lia). clear Hc c rest.
    induction r as [|r IH]; intros fuel offset written Hfuel.
    + destruct fuel; cbn [write_frames writer_after pos];
        rewrite (proj2 (Z.ltb_ge _ _)) by lia; cbn; rewrite app_nil_r;
        reflexivity.
    + destruct Hfuel as [Hnil|Hfuel]; [subst; cbn in Hlen; lia|].
      destruct fuel as [|fuel]; [lia|].
      cbn [write_frames writer_after pos].
      rewrite (proj2 (Z.ltb_lt _ _)) by lia.
      replace (S r * (2 * length channels))%nat
        with (2 * length channels + r * (2 * length channels))%nat by lia.
      rewrite (write_frame_st channels offset written). cbn [mbind option_bind].
      specialize (IH fuel (S offset) (written ++ frame_bytes channels offset)
                     ltac:(right; lia)).
      rewrite length_app, frame_length in IH.
      replace (length written + (2 * length channels + r * (2 * length channels)))%nat
        with (length written + 2 * length channels + r * (2 * length channels))%nat
        by lia.
      rewrite IH. cbn [seq flat_map]. rewrite app_assoc. reflexivity.
Qed.

Lemma frame_spec_frame channels offset :
  Forall (fun c : list float => Forall valid c) channels ->
  frame_bytes channels offset = spec_frame channels offset.
Proof.
  intros Hv. unfold frame_bytes, spec_frame.
  induction Hv as [|c rest Hc _ IH]; [reflexivity|].
  cbn [flat_map]. rewrite IH. f_equal. f_equal.
  apply sampleToInt_spec.
  destruct (c !! offset) as [x|] eqn:Hx; [|reflexivity].
  cbn [default]. rewrite Forall_forall in Hc. apply Hc.
  eapply list_elem_of_lookup_2. exact Hx.
Qed.

(** The encoder returns, and returns the header followed by the
    interleaved samples. *)
Lemma bufferToWav_bytes buffer :
  well_formed buffer ->
  bufferToWav buffer =
  Some (spec_header (buffer_length buffer) (numberOfChannels buffer)
                    (sampleRate buffer)
        ++ spec_samples buffer).
Proof.
  intros [Hlen Hch]. unfold bufferToWav, numberOfChannels, spec_samples.
  set (channels := channelData buffer) in *.
  set (F := Z.to_nat (buffer_length buffer)).
  set (D := (F * (2 * length channels))%nat).
  assert (HD : buffer_length buffer * Z.of_nat (length channels) * 2
               = Z.of_nat D) by (unfold D, F; nia || lia).
  rewrite HD. unfold ArrayBuffer.
  rewrite bool_decide_eq_true_2 by lia. cbn [mbind option_bind].
  replace (Z.to_nat (Z.of_nat D + 44))
    with (4 + (4 + (4 + (4 + (4 + (2 + (2 + (4 + (4 + (2 + (2 + (4 + (4 + D)))))))))))))%nat
    by lia.
  match goal with
  | |- context [ {| view := replicate ?n 0; pos := 0 |} ] =>
      change {| view := replicate n 0; pos := 0 |} with (writer_after [] n)
  end.
  repeat (first [rewrite setUint32_st | rewrite setUint16_st];
          cbn [mbind option_bind]).
  match goal with
  | |- context [pos (writer_after ?X ?k)] =>
      change (pos (writer_after X k)) with (Z.of_nat (length X));
      replace (length X) with 40%nat by reflexivity
  end.
  replace (Z.of_nat D + 44 - Z.of_nat 40 - 4) with (Z.of_nat D) by lia.
  match goal with
  | |- write_frames _ _ _ _ (writer_after ?X _) ≫= _ = _ => set (hdr := X)
  end.
  assert (Hhdr : length hdr = 44%nat) by reflexivity.
  replace (Z.of_nat D + 44) with (Z.of_nat (length hdr + D)) by lia.
  unfold D at 2 3. rewrite write_frames_st.
  2:{ destruct channels; [left; reflexivity | right; unfold D, F; cbn [length]; nia]. }
  cbn [mbind option_bind writer_after view replicate]. rewrite app_nil_r. f_equal.
  f_equal.
  - unfold hdr, spec_header, tag. rewrite HD.
    change (le_bytes 4 1179011410) with [82; 73; 70; 70].
    change (le_bytes 4 1163280727) with [87; 65; 86; 69].
    change (le_bytes 4 544501094) with [102; 109; 116; 32].
    change (le_bytes 4 1635017060) with [100; 97; 116; 97].
    replace (Z.of_nat D + 44 - 8) with (44 + Z.of_nat D - 8) by lia.
    replace (sampleRate buffer * 2 * Z.of_nat (length channels))
      with (sampleRate buffer * Z.of_nat (length channels) * 2) by lia.
    rewrite <- !app_assoc. reflexivity.
  - assert (Hv : Forall (fun c : list float => Forall valid c) channels)
      by (eapply Forall_impl; [exact Hch | intros c [_ H]; exact H]).
    clear -Hv. generalize 0%nat. induction F as [|n IH]; intros o;
      [reflexivity|].
    cbn [seq flat_map]. rewrite IH, frame_spec_frame by assumption.
    reflexivity.
Qed.
End Encoder.

Section EncoderClaims.
Import Binary64 Wav.

Lemma le_signed_int16 v :
  - 32768 <= v <= 32767 -> le_signed (le_bytes 2 v) = v.
Proof.
  intros Hv. unfold le_signed, wrap_signed. cbn [le_bytes le_value length].
  change (2 ^ (8 * Z.of_nat 2)) with 65536.
  change (2 ^ (8 * Z.of_nat 2 - 1)) with 32768.
  pose proof (Z.mod_pos_bound v 256 ltac:(lia)).
  pose proof (Z.mod_pos_bound (v / 256) 256 ltac:(lia)).
  pose proof (Z.div_mod v 256 ltac:(lia)).
  pose proof (Z.div_mod (v / 256) 256 ltac:(lia)).
  assert (Hq : v / 256 / 256 = 0 \/ v / 256 / 256 = -1) by lia.
  replace ((v mod 256 + 256 * ((v / 256) mod 256 + 256 * 0)) mod 65536)
    with (v mod 256 + 256 * ((v / 256) mod 256))
    by (rewrite (Z.mod_small _ 65536); lia).
  destruct (Z.ltb_spec (v mod 256 + 256 * ((v / 256) mod 256)) 32768); lia.
Qed.

Lemma length_spec_frame channels offset :
  length (spec_frame channels offset) = (2 * length channels)%nat.
Proof.
  unfold spec_frame. induction channels as [|c rest IH]; [reflexivity|].
  cbn [flat_map length]. rewrite length_app, IH. cbn [le_bytes length]. lia.
Qed.

Lemma length_spec_samples buffer :
  0 <= buffer_length buffer ->
  Z.of_nat (length (spec_samples buffer))
  = buffer_length buffer * numberOfChannels buffer * 2.
Proof.
  intros Hlen. unfold spec_samples, numberOfChannels.
  rewrite <- (Z2Nat.id (buffer_length buffer)) at 2 by assumption.
  generalize (Z.to_nat (buffer_length buffer)) as n. generalize 0%nat as o.
  intros o n. revert o.
  induction n as [|n IH]; intros o; [cbn; lia|].
  cbn [seq flat_map]. rewrite length_app, Nat2Z.inj_add, IH, length_spec_frame.
  lia.
Qed.

Lemma length_spec_header f c r : length (spec_header f c r) = 44%nat.
Proof. reflexivity. Qed.

Lemma sampleToInt_above x : gtb x one = true -> sampleToInt x = 32767.
Proof.
  intros H. unfold sampleToInt. rewrite clamp_spec_clamp. unfold spec_clamp.
  rewrite H. reflexivity.
Qed.

Lemma sampleToInt_below x : ltb x minus_one = true -> sampleToInt x = - 32768.
Proof.
  intros H. unfold sampleToInt. rewrite clamp_spec_clamp. unfold spec_clamp.
  rewrite H.
  destruct (gtb x one) eqn:Hg; [exfalso|reflexivity].
  unfold gtb, ltb in *.
  destruct x as [[|]|[|]| |s m e]; try discriminate.
  pose proof (SFltb_asym _ _ _ _ _ _ H) as H1.
  unfold one, minus_one, SFltb in *. rewrite SFcompare_finite in *.
  destruct s.
  - discriminate Hg.
  - discriminate H.
Qed.

End EncoderClaims.

Section EncoderTheorems.
Import Binary64 Wav.

Lemma two_samples_well_formed : well_formed two_samples.
Proof.
  split; [vm_compute; discriminate|].
  repeat constructor.
Qed.

(** C1: for every audio buffer the encoder returns, and the bytes after
    the header are the samples converted as the specification says: clamp
    to [-1, 1], scale by 32767 when the clamped value plus 0.5 is at least
    zero and by 32768 otherwise, truncate toward zero; the integer fits 16
    bits, so the two bytes stored read back as that integer.  The sample
    1.0 gives 32767, which divided by 32768 is not 1.0, and the sample 0.0
    gives 0. *)
Theorem C1_sample_conversion (buffer : AudioBuffer) :
  well_formed buffer ->
  (exists out, bufferToWav buffer = Some out /\
               drop 44 out = spec_samples buffer) /\
  (forall x, valid x ->
     sampleToInt x = spec_sample x /\
     le_signed (le_bytes 2 (sampleToInt x)) = spec_sample x) /\
  sampleToInt one = 32767 /\
  div (of_Z (sampleToInt one)) k32768
    = S754_finite false 9006924376834048 (-53) /\
  div (of_Z (sampleToInt one)) k32768 <> one /\
  sampleToInt zero = 0.
Proof.
  intros Hwf. split; [|split; [|split; [|split; [|split]]]].
  - eexists. split; [apply bufferToWav_bytes, Hwf|].
    apply drop_app_length'. symmetry. apply length_spec_header.
  - intros x Hx. split; [apply sampleToInt_spec, Hx|].
    rewrite le_signed_int16 by (apply sampleToInt_range, Hx).
    apply sampleToInt_spec, Hx.
  - reflexivity.
  - reflexivity.
  - discriminate.
  - reflexivity.
Qed.

Lemma C1_sample_conversion_witness :
  well_formed two_samples /\
  exists out, bufferToWav two_samples = Some out /\
              drop 44 out = spec_samples two_samples.
Proof.
  split; [exact two_samples_well_formed|].
  exact (proj1 (C1_sample_conversion two_samples two_samples_well_formed)).
Defined.

(** C2: for every audio buffer the encoder returns
    [44 + frameCount * channelCount * 2] bytes: the 44-byte little-endian
    header ("RIFF", total length minus 8, "WAVE", "fmt ", 16, format 1,
    channelCount, sampleRate, byteRate, blockAlign, 16 bits per sample,
    "data", dataLength) followed by the interleaved samples. *)
Theorem C2_wav_layout (buffer : AudioBuffer) :
  well_formed buffer ->
  exists out,
    bufferToWav buffer = Some out /\
    Z.of_nat (length out)
      = 44 + buffer_length buffer * numberOfChannels buffer * 2 /\
    out = spec_header (buffer_length buffer) (numberOfChannels buffer)
                      (sampleRate buffer)
          ++ spec_samples buffer /\
    length (spec_header (buffer_length buffer) (numberOfChannels buffer)
                        (sampleRate buffer)) = 44%nat.
Proof.
  intros Hwf. eexists. split; [apply bufferToWav_bytes, Hwf|].
  split; [|split; [reflexivity | apply length_spec_header]].
  rewrite length_app, Nat2Z.inj_add, length_spec_header,
    length_spec_samples by apply Hwf.
  lia.
Qed.

Lemma C2_wav_layout_witness :
  well_formed two_samples /\
  exists out,
    bufferToWav two_samples = Some out /\
    Z.of_nat (length out) = 48 /\
    out = spec_header 2 1 24000 ++ spec_samples two_samples /\
    length (spec_header 2 1 24000) = 44%nat.
Proof.
  split; [exact two_samples_well_formed|].
  exact (C2_wav_layout two_samples two_samples_well_formed).
Defined.

(** C10: the sample conversion is defined on every binary64 value and
    stays within 16 bits: the integer lies in [-32768, 32767] and the two
    bytes stored read back as it; a value above 1 is encoded as 1.0, a
    value below -1 as -1.0, and NaN as 0. *)
Theorem C10_sample_range (x : float) :
  valid x ->
  - 32768 <= sampleToInt x <= 32767 /\
  le_signed (le_bytes 2 (sampleToInt x)) = sampleToInt x /\
  (gtb x one = true -> sampleToInt x = sampleToInt one) /\
  (ltb x minus_one = true -> sampleToInt x = sampleToInt minus_one) /\
  sampleToInt one = 32767 /\
  sampleToInt minus_one = - 32768 /\
  sampleToInt S754_nan = 0.
Proof.
  intros Hx. pose proof (sampleToInt_range x Hx) as Hr.
  split; [exact Hr|]. split; [apply le_signed_int16, Hr|].
  split; [intros H; rewrite (sampleToInt_above x H); reflexivity|].
  split; [intros H; rewrite (sampleToInt_below x H); reflexivity|].
  repeat split.
Qed.

Lemma C10_sample_range_witness :
  valid (of_Z 7) /\ gtb (of_Z 7) one = true /\ sampleToInt (of_Z 7) = 32767.
Proof.
  assert (Hv : valid (of_Z 7)) by reflexivity.
  split; [exact Hv|]. split; [reflexivity|].
  exact (proj1 (proj2 (proj2 (C10_sample_range (of_Z 7) Hv))) eq_refl).
Defined.

End EncoderTheorems.

(* ===================================================================== *)
(** * Proofs: binary64 arithmetic on normal numbers *)
(* ===================================================================== *)

Section NormalRounding.
Import Binary64 Wav.

Lemma Zdigits2_bounds M :
  0 < M -> 2 ^ (Zdigits2 M - 1) <= M < 2 ^ Zdigits2 M.
Proof.
  intros HM. destruct M as [|p|p]; try lia. cbn [Zdigits2].
  rewrite digits2_pos_size.
  pose proof (Pos.size_gt p) as Hgt. pose proof (Pos.size_le p) as Hle.
  apply Pos2Z.pos_lt_pos in Hgt. apply Pos2Z.pos_le_pos in Hle.
  rewrite Pos2Z.inj_pow in Hgt, Hle.
  change (Z.pos p~0) with (2 * Z.pos p) in Hle.
  split; [|exact Hgt].
  replace (Z.pos (Pos.size p)) with (1 + (Z.pos (Pos.size p) - 1)) in Hle by lia.
  rewrite Z.pow_add_r in Hle by lia. change (2 ^ 1) with 2 in Hle. lia.
Qed.

Lemma Zdigits2_unique M d :
  2 ^ (d - 1) <= M < 2 ^ d -> 0 < d -> Zdigits2 M = d.
Proof.
  intros [Hlo Hhi] Hd.
  assert (HM : 0 < M).
  { assert (0 < 2 ^ (d - 1)) by (apply Z.pow_pos_nonneg; lia). lia. }
  destruct (Zdigits2_bounds M HM) as [Blo Bhi].
  assert (Hd0 : 0 < Zdigits2 M) by (destruct M; cbn; lia).
  destruct (Z.lt_trichotomy (Zdigits2 M) d) as [H|[H|H]]; [|exact H|].
  - exfalso. assert (2 ^ Zdigits2 M <= 2 ^ (d - 1))
      by (apply Z.pow_le_mono_r; lia). lia.
  - exfalso. assert (2 ^ d <= 2 ^ (Zdigits2 M - 1))
      by (apply Z.pow_le_mono_r; lia). lia.
Qed.

Lemma shr_m_of_loc M l : shr_m (shr_record_of_loc M l) = M.
Proof. destruct l as [|[| |]]; reflexivity. Qed.

Lemma inexact_of_loc M l :
  inexact (shr_record_of_loc M l) = false <-> l = loc_Exact.
Proof. destruct l as [|[| |]]; unfold inexact; cbn; split; congruence. Qed.

Lemma round_nearest_even_choice mrs :
  let r := round_nearest_even (shr_m mrs) (loc_of_shr_record mrs) in
  (r = shr_m mrs \/ r = shr_m mrs + 1) /\
  (inexact mrs = false -> r = shr_m mrs).
Proof.
  destruct mrs as [m [|] [|]]; unfold inexact; cbn;
    try destruct (Z.even m); split; auto; discriminate.
Qed.

(** The first shift of [binary_round_aux]. *)
Lemma shr_fexp_normal M E l :
  2 ^ 52 <= M ->
  let n := Zdigits2 M - 53 in
  -1074 <= E + n ->
  exists mrs,
    shr_fexp prec emax M E l = (mrs, E + n) /\
    0 <= n /\
    shr_m mrs = M / 2 ^ n /\
    2 ^ 52 <= M / 2 ^ n < 2 ^ 53 /\
    (inexact mrs = false <-> l = loc_Exact /\ M mod 2 ^ n = 0).
Proof.
  intros HM n Hn.
  assert (HM0 : 0 < M) by lia.
  destruct (Zdigits2_bounds M HM0) as [Blo Bhi]. fold n in Blo, Bhi.
  assert (Hd : 53 <= Zdigits2 M).
  { destruct (Z.le_gt_cases 53 (Zdigits2 M)) as [H|H]; [exact H|].
    exfalso. assert (2 ^ Zdigits2 M <= 2 ^ 52)
      by (apply Z.pow_le_mono_r; lia). lia. }
  assert (Hn0 : 0 <= n) by (unfold n; lia).
  assert (Hq : 2 ^ 52 <= M / 2 ^ n < 2 ^ 53).
  { assert (HP : 0 < 2 ^ n) by (apply Z.pow_pos_nonneg; lia).
    replace (Zdigits2 M - 1) with (52 + n) in Blo by (unfold n; lia).
    replace (Zdigits2 M) with (53 + n) in Bhi by (unfold n; lia).
    rewrite Z.pow_add_r in Blo, Bhi by lia.
    split; [apply Z.div_le_lower_bound; lia
           | apply Z.div_lt_upper_bound; lia]. }
  unfold shr_fexp, shr.
  replace (fexp prec emax (Zdigits2 M + E) - E) with n
    by (unfold fexp, emin, prec, emax, n in *; lia).
  destruct n as [|p|p] eqn:Hp; [| |lia].
  - exists (shr_record_of_loc M l). rewrite Z.add_0_r.
    split; [reflexivity|]. split; [lia|].
    rewrite shr_m_of_loc, Z.pow_0_r, Z.div_1_r, Z.mod_1_r in *.
    split; [reflexivity|]. split; [exact Hq|].
    rewrite inexact_of_loc. tauto.
  - eexists. split; [reflexivity|]. split; [lia|].
    rewrite iter_pos_nat.
    destruct (iter_shr_1 (Pos.to_nat p) (shr_record_of_loc M l))
      as [Hm Hi]; [rewrite shr_m_of_loc; lia|].
    rewrite positive_nat_Z, shr_m_of_loc in Hm, Hi.
    split; [exact Hm|]. split; [exact Hq|].
    rewrite Hi, inexact_of_loc. reflexivity.
Qed.

(** Rounding in the normal range: the result has a mantissa of 53 bits
    and, in units of the last place, is the integer part of the value or
    the next integer; it is the value itself when that is an integer. *)
Lemma round_normal sx M E l :
  2 ^ 52 <= M ->
  let n := Zdigits2 M - 53 in
  -1074 <= E + n -> E + n <= 970 ->
  exists m e,
    binary_round_aux prec emax sx M E l = S754_finite sx m e /\
    2 ^ 52 <= Z.pos m < 2 ^ 53 /\
    -1074 <= e <= 971 /\
    E + n <= e <= E + n + 1 /\
    (Z.pos m * 2 ^ (e - (E + n)) = M / 2 ^ n \/
     Z.pos m * 2 ^ (e - (E + n)) = M / 2 ^ n + 1) /\
    (l = loc_Exact -> M mod 2 ^ n = 0 ->
     Z.pos m * 2 ^ (e - (E + n)) = M / 2 ^ n).
Proof.
  intros HM n Hlo Hhi.
  destruct (shr_fexp_normal M E l HM Hlo) as (mrs & Hs & Hn0 & Hm & Hq & Hex).
  fold n in Hs, Hn0, Hm, Hq, Hex.
  unfold binary_round_aux. rewrite Hs.
  destruct (round_nearest_even_choice mrs) as [Hch Hexact]. cbv zeta in *.
  set (r := round_nearest_even (shr_m mrs) (loc_of_shr_record mrs)) in *.
  rewrite Hm in Hch, Hexact.
  set (q := M / 2 ^ n) in *. set (U := E + n) in *.
  assert (Hr : 2 ^ 52 <= r <= 2 ^ 53) by lia.
  destruct (Z.eq_dec r (2 ^ 53)) as [Hcarry|Hnc].
  - (* the mantissa has 54 bits: one more shift *)
    assert (Hd : Zdigits2 r = 54).
    { apply Zdigits2_unique; [|lia]. rewrite Hcarry.
      change (54 - 1) with 53. split; [lia|].
      apply Z.pow_lt_mono_r; lia. }
    unfold shr_fexp, shr. rewrite Hd.
    replace (fexp prec emax (54 + U) - U) with 1
      by (unfold fexp, emin, prec, emax; lia).
    cbn [shr_record_of_loc SpecFloat.iter_pos]. rewrite Hcarry.
    change (2 ^ 53) with 9007199254740992.
    cbn [shr_1 shr_m].
    replace (U + 1 <=? emax - prec) with true
      by (symmetry; apply Z.leb_le; unfold emax, prec; lia).
    eexists _, _. split; [reflexivity|].
    replace (U + 1 - U) with 1 by lia.
    change (2 ^ 52) with 4503599627370496.
    change (2 ^ 53) with 9007199254740992 in *.
    change (2 ^ 1) with 2.
    repeat split; try lia.
    intros Hl Hmod. assert (r = q) by (apply Hexact, Hex; auto). lia.
  - assert (Hd : Zdigits2 r = 53).
    { apply Zdigits2_unique; [|lia]. change (53 - 1) with 52. lia. }
    unfold shr_fexp, shr. rewrite Hd.
    replace (fexp prec emax (53 + U) - U) with 0
      by (unfold fexp, emin, prec, emax; lia).
    cbn [shr_record_of_loc shr_m].
    destruct r as [|m|m] eqn:Hrm; try lia.
    replace (U <=? emax - prec) with true
      by (symmetry; apply Z.leb_le; unfold emax, prec; lia).
    exists m, U. split; [reflexivity|].
    rewrite Z.sub_diag, Z.pow_0_r, Z.mul_1_r.
    repeat split; try lia.
    intros Hl Hmod. apply Hexact, Hex; auto.
Qed.

End NormalRounding.

Section PowersOfTwo.
Import Binary64.

Lemma pow2_pos e : (0 < 2 ^ e)%Q.
Proof. apply Qpower_0_lt. reflexivity. Qed.

Lemma pow2_add a b : (2 ^ (a + b) == 2 ^ a * 2 ^ b)%Q.
Proof. apply Qpower_plus. discriminate. Qed.

Lemma pow2_Z k : 0 <= k -> (inject_Z (2 ^ k) == 2 ^ k)%Q.
Proof. intros Hk. rewrite Zpower_Qpower by exact Hk. reflexivity. Qed.

Lemma pow2_le a b : a <= b -> (2 ^ a <= 2 ^ b)%Q.
Proof. intros H. apply Qpower_le_compat_l; [exact H | discriminate]. Qed.

Lemma pow2_lt a b : a < b -> (2 ^ a < 2 ^ b)%Q.
Proof. intros H. apply Qpower_lt_compat_l; [exact H | reflexivity]. Qed.

Lemma pow2_lt_inv a b : (2 ^ a < 2 ^ b)%Q -> a < b.
Proof.
  intros H. destruct (Z.lt_ge_cases a b) as [Hlt|Hge]; [exact Hlt|].
  apply pow2_le in Hge. apply Qlt_not_le in H. contradiction.
Qed.

(** A number with exponent [e] counted in units of [2^U], [U <= e]. *)
Lemma units m e U :
  U <= e -> (inject_Z m * 2 ^ e == inject_Z (m * 2 ^ (e - U)) * 2 ^ U)%Q.
Proof.
  intros H. rewrite inject_Z_mult, pow2_Z by lia.
  rewrite <- Qmult_assoc, <- pow2_add.
  replace (e - U + U) with e by lia. reflexivity.
Qed.

Lemma scaled_le a b e :
  (inject_Z a * 2 ^ e <= inject_Z b * 2 ^ e)%Q <-> a <= b.
Proof. rewrite Qmult_le_r by apply pow2_pos. rewrite Zle_Qle. reflexivity. Qed.

Lemma scaled_lt a b e :
  (inject_Z a * 2 ^ e < inject_Z b * 2 ^ e)%Q <-> a < b.
Proof. rewrite Qmult_lt_r by apply pow2_pos. rewrite Zlt_Qlt. reflexivity. Qed.

End PowersOfTwo.

Section RationalReading.
Import Binary64 Wav.

Lemma Zdigits2_ge_53 M : 2 ^ 52 <= M -> 53 <= Zdigits2 M.
Proof.
  intros HM. assert (HM0 : 0 < M) by lia.
  destruct (Zdigits2_bounds M HM0) as [_ Bhi].
  destruct (Z.le_gt_cases 53 (Zdigits2 M)) as [H|H]; [exact H|].
  exfalso. assert (2 ^ Zdigits2 M <= 2 ^ 52)
    by (apply Z.pow_le_mono_r; lia). lia.
Qed.

Lemma round_normal_Q M E l (x : Q) :
  2 ^ 52 <= M ->
  let n := Zdigits2 M - 53 in
  -1074 <= E + n -> E + n <= 970 ->
  (inject_Z M * 2 ^ E <= x)%Q -> (x < inject_Z (M + 1) * 2 ^ E)%Q ->
  (l = loc_Exact <-> (x == inject_Z M * 2 ^ E)%Q) ->
  let r := binary_round_aux prec emax false M E l in
  normal_in (E + n) (E + n + 1) r /\
  rounded x r /\
  (l = loc_Exact -> M mod 2 ^ n = 0 -> (to_Q r == x)%Q).
Proof.
  intros HM n Hlo Hhi Hxlo Hxhi Hl r.
  destruct (round_normal false M E l HM Hlo Hhi)
    as (m & e & Hr & Hm & He & HeU & Hv & Hex).
  fold n in Hr, HeU, Hv, Hex. subst r. rewrite Hr. clear Hr.
  pose proof (Zdigits2_ge_53 M HM) as Hd.
  assert (Hn0 : 0 <= n) by (unfold n; lia).
  set (U := E + n) in *.
  set (q := M / 2 ^ n) in *.
  set (v := Z.pos m * 2 ^ (e - U)) in *.
  assert (HP2 : 0 < 2 ^ n) by (apply Z.pow_pos_nonneg; lia).
  assert (Hdiv : M = 2 ^ n * q + M mod 2 ^ n) by (apply Z.div_mod; lia).
  assert (Hmod : 0 <= M mod 2 ^ n < 2 ^ n) by (apply Z.mod_pos_bound; lia).
  assert (HtoQ : (to_Q (S754_finite false m e) == inject_Z v * 2 ^ U)%Q).
  { cbn [to_Q cond_Zopp]. apply units. lia. }
  assert (HME : forall a, (inject_Z (a * 2 ^ n) * 2 ^ E == inject_Z a * 2 ^ U)%Q).
  { intros a. rewrite inject_Z_mult, pow2_Z by lia. unfold U.
    rewrite (Z.add_comm E n), pow2_add. ring. }
  assert (Hqlo : (inject_Z q * 2 ^ U <= x)%Q).
  { rewrite <- HME. eapply Qle_trans; [|exact Hxlo].
    apply scaled_le. lia. }
  assert (Hqhi : (x < inject_Z (q + 1) * 2 ^ U)%Q).
  { rewrite <- HME. eapply Qlt_le_trans; [exact Hxhi|].
    apply scaled_le. lia. }
  assert (Hv52 : 2 ^ 52 <= v).
  { unfold v. assert (1 <= 2 ^ (e - U)) by
      (assert (0 < 2 ^ (e - U)) by (apply Z.pow_pos_nonneg; lia); lia).
    nia. }
  pose proof (pow2_pos U) as HP.
  split; [cbn [normal_in]; lia|]. split; [split|].
  - (* faithful *)
    unfold faithful. rewrite HtoQ.
    assert (Hunit : (2 ^ U <= inject_Z v * 2 ^ U * ulp_ratio)%Q).
    { assert (H1 : (1 <= inject_Z v * ulp_ratio)%Q).
      { unfold ulp_ratio.
        apply Qle_trans with (inject_Z (2 ^ 52) * 2 ^ (-52))%Q;
          [vm_compute; discriminate|].
        apply Qmult_le_compat_r; [|apply Qlt_le_weak, pow2_pos].
        rewrite <- Zle_Qle. exact Hv52. }
      apply (Qmult_le_compat_r _ _ (2 ^ U)%Q) in H1;
        [|apply Qlt_le_weak; exact HP].
      rewrite Qmult_1_l in H1.
      eapply Qle_trans; [exact H1|]. apply Qle_lteq. right. ring. }
    assert (Hvq : (inject_Z v * 2 ^ U == inject_Z q * 2 ^ U
                   \/ inject_Z v * 2 ^ U == inject_Z q * 2 ^ U + 2 ^ U)%Q).
    { destruct Hv as [-> | ->]; [left; reflexivity|right].
      rewrite inject_Z_plus. change (inject_Z 1) with 1%Q. ring. }
    assert (Hqhi' : (x < inject_Z q * 2 ^ U + 2 ^ U)%Q).
    { eapply Qlt_le_trans; [exact Hqhi|]. rewrite inject_Z_plus.
      change (inject_Z 1) with 1%Q. apply Qle_lteq. right. ring. }
    set (VP := (inject_Z v * 2 ^ U)%Q) in *.
    set (QP := (inject_Z q * 2 ^ U)%Q) in *.
    set (PP := (2 ^ U)%Q) in *.
    set (eps := ulp_ratio) in *.
    assert (Ha : (VP * (1 - eps) == VP - VP * eps)%Q) by ring.
    assert (Hb : (VP * (1 + eps) == VP + VP * eps)%Q) by ring.
    rewrite Ha, Hb.
    set (VE := (VP * eps)%Q) in *.
    clearbody VP QP PP VE. destruct Hvq as [Hvq|Hvq]; split; lra.
  - (* rounding does not cross a number that can be represented *)
    intros b k Hb Hxb. rewrite HtoQ.
    assert (HUk : U <= k).
    { assert (HM0 : 0 < M) by lia.
      destruct (Zdigits2_bounds M HM0) as [Blo _].
      assert (H1 : (2 ^ (Zdigits2 M - 1 + E) < 2 ^ (53 + k))%Q).
      { rewrite !pow2_add.
        apply Qle_lt_trans with (inject_Z M * 2 ^ E)%Q.
        - rewrite <- (pow2_Z (Zdigits2 M - 1)) by lia.
          apply scaled_le. exact Blo.
        - eapply Qle_lt_trans; [exact Hxlo|].
          eapply Qle_lt_trans; [exact Hxb|].
          rewrite <- (pow2_Z 53) by lia. apply scaled_lt. lia. }
      apply pow2_lt_inv in H1. unfold U, n. lia. }
    rewrite (units b k U HUk) in Hxb |- *.
    set (B := b * 2 ^ (k - U)) in *.
    assert (HqB : q <= B).
    { apply (scaled_le q B U). eapply Qle_trans; [exact Hqlo | exact Hxb]. }
    apply scaled_le.
    destruct Hv as [Hv|Hv]; [lia|].
    destruct (Z.eq_dec q B) as [Heq|Hne]; [|lia].
    exfalso.
    assert (Hx : (x == inject_Z q * 2 ^ U)%Q).
    { apply Qle_antisym; [rewrite Heq; exact Hxb | exact Hqlo]. }
    assert (HMq : M = q * 2 ^ n).
    { assert (M <= q * 2 ^ n); [|lia].
      apply (scaled_le M (q * 2 ^ n) E). rewrite HME, <- Hx. exact Hxlo. }
    assert (Hexact : l = loc_Exact).
    { apply Hl. rewrite Hx, <- HME, <- HMq. reflexivity. }
    assert (M mod 2 ^ n = 0) by lia.
    specialize (Hex Hexact ltac:(assumption)). lia.
  - intros Hexact Hmod0. rewrite HtoQ.
    rewrite (Hex Hexact Hmod0).
    apply Hl in Hexact. rewrite Hexact.
    rewrite <- HME. replace (q * 2 ^ n) with M by lia. reflexivity.
Qed.

End RationalReading.

Section NumberOperations.
Import Binary64 Wav.

Lemma normal_in_weaken lo hi lo' hi' r :
  normal_in lo hi r -> lo' <= lo -> hi <= hi' -> normal_in lo' hi' r.
Proof.
  destruct r as [| | |[|] m e]; cbn [normal_in]; try tauto. lia.
Qed.

Lemma normal_in_inv lo hi r :
  normal_in lo hi r ->
  exists m e, r = S754_finite false m e /\
              2 ^ 52 <= Z.pos m < 2 ^ 53 /\ lo <= e <= hi.
Proof.
  destruct r as [| | |[|] m e]; cbn [normal_in]; try tauto.
  intros H. exists m, e. auto.
Qed.

Lemma to_Q_normal lo hi r :
  normal_in lo hi r -> (0 < to_Q r)%Q.
Proof.
  intros (m & e & -> & Hm & He)%normal_in_inv. cbn [to_Q cond_Zopp].
  apply Qmult_lt_0_compat; [|apply pow2_pos].
  change 0%Q with (inject_Z 0). rewrite <- Zlt_Qlt. lia.
Qed.

Lemma rounded_ext x x' r : (x == x')%Q -> rounded x r -> rounded x' r.
Proof.
  intros Hx [[H1 H2] H3]. split; [split|].
  - rewrite <- Hx. exact H1.
  - rewrite <- Hx. exact H2.
  - intros b k Hb Hle. apply H3; [exact Hb|]. rewrite Hx. exact Hle.
Qed.

Lemma Zdigits2_range M a b :
  0 <= a -> 2 ^ a <= M < 2 ^ b -> a < Zdigits2 M <= b.
Proof.
  intros Ha [Hlo Hhi].
  assert (HM : 0 < M).
  { assert (0 < 2 ^ a) by (apply Z.pow_pos_nonneg; lia). lia. }
  destruct (Zdigits2_bounds M HM) as [Blo Bhi].
  assert (Hd0 : 0 < Zdigits2 M) by (destruct M; cbn; lia).
  split.
  - destruct (Z.lt_ge_cases a (Zdigits2 M)) as [H|H]; [exact H|].
    exfalso. assert (2 ^ Zdigits2 M <= 2 ^ a)
      by (apply Z.pow_le_mono_r; lia). lia.
  - destruct (Z.le_gt_cases (Zdigits2 M) b) as [H|H]; [exact H|].
    exfalso. assert (2 ^ b <= 2 ^ (Zdigits2 M - 1))
      by (apply Z.pow_le_mono_r; lia). lia.
Qed.

(** ** Multiplication *)

Lemma mul_normal lo1 hi1 lo2 hi2 x y :
  normal_in lo1 hi1 x -> normal_in lo2 hi2 y ->
  -1074 <= lo1 + lo2 + 52 -> hi1 + hi2 + 53 <= 970 ->
  normal_in (lo1 + lo2 + 52) (hi1 + hi2 + 54) (mul x y) /\
  rounded (to_Q x * to_Q y) (mul x y).
Proof.
  intros (mx & ex & -> & Hmx & Hex)%normal_in_inv
         (my & ey & -> & Hmy & Hey)%normal_in_inv Hlo Hhi.
  unfold mul, SFmul. cbn [xorb].
  set (M := Z.pos (mx * my)).
  assert (HM : 2 ^ 104 <= M < 2 ^ 106).
  { unfold M. rewrite Pos2Z.inj_mul.
    change (2 ^ 104) with (2 ^ 52 * 2 ^ 52).
    change (2 ^ 106) with (2 ^ 53 * 2 ^ 53).
    split; [apply Z.mul_le_mono_nonneg | apply Z.mul_lt_mono_nonneg]; lia. }
  assert (Hd : 104 < Zdigits2 M <= 106)
    by (apply Zdigits2_range; [lia | exact HM]).
  assert (HM52 : 2 ^ 52 <= M).
  { assert (2 ^ 52 <= 2 ^ 104) by (apply Z.pow_le_mono_r; lia). lia. }
  assert (Hx : (to_Q (S754_finite false mx ex) * to_Q (S754_finite false my ey)
                == inject_Z M * 2 ^ (ex + ey))%Q).
  { cbn [to_Q cond_Zopp]. unfold M.
    rewrite Pos2Z.inj_mul, inject_Z_mult, pow2_add. ring. }
  destruct (round_normal_Q M (ex + ey) loc_Exact
              (inject_Z M * 2 ^ (ex + ey))%Q HM52)
    as (Hn & Hr & _); try lia.
  - apply Qle_refl.
  - apply scaled_lt. lia.
  - split; reflexivity.
  - split.
    + eapply normal_in_weaken; [exact Hn| |]; lia.
    + eapply rounded_ext; [symmetry; exact Hx | exact Hr].
Qed.

(** ** Division *)

Lemma new_location_exact nb r :
  new_location nb r = loc_Exact <-> r = 0.
Proof.
  unfold new_location, new_location_even, new_location_odd.
  destruct (Z.even nb); destruct (Z.eqb_spec r 0) as [->|Hr];
    split; try reflexivity; try discriminate; try contradiction;
    intros; congruence.
Qed.

Lemma scaled_eq a b e :
  (inject_Z a * 2 ^ e == inject_Z b * 2 ^ e)%Q <-> a = b.
Proof.
  split; [|intros ->; reflexivity].
  intros H. apply Z.le_antisymm; apply (scaled_le _ _ e);
    rewrite H; apply Qle_refl.
Qed.

Lemma div_normal lo1 hi1 lo2 hi2 x y :
  normal_in lo1 hi1 x -> normal_in lo2 hi2 y ->
  -1074 <= lo1 - hi2 - 53 -> hi1 - lo2 - 52 <= 970 ->
  normal_in (lo1 - hi2 - 53) (hi1 - lo2 - 51) (div x y) /\
  rounded (to_Q x / to_Q y) (div x y).
Proof.
  intros (mx & ex & -> & Hmx & Hex)%normal_in_inv
         (my & ey & -> & Hmy & Hey)%normal_in_inv Hlo Hhi.
  unfold div, SFdiv, SFdiv_core_binary. cbn [xorb].
  rewrite (Zdigits2_unique (Z.pos mx) 53), (Zdigits2_unique (Z.pos my) 53)
    by (change (53 - 1) with 52; lia).
  replace (Z.min (fexp prec emax (53 + ex - (53 + ey))) (ex - ey))
    with (ex - ey - 53) by (unfold fexp, emin, prec, emax; lia).
  replace (ex - ey - (ex - ey - 53)) with 53 by lia.
  rewrite Z.shiftl_mul_pow2 by lia.
  pose proof (Z_div_mod (Z.pos mx * 2 ^ 53) (Z.pos my) ltac:(lia)) as Hdm.
  destruct (Z.div_eucl (Z.pos mx * 2 ^ 53) (Z.pos my)) as [q0 r0].
  destruct Hdm as [Hdm Hr0].
  set (E := ex - ey - 53).
  assert (Hq0 : 2 ^ 52 <= q0 < 2 ^ 54).
  { change (2 ^ 54) with (2 * 2 ^ 53). change (2 ^ 53) with (2 * 2 ^ 52) in *.
    nia. }
  assert (Hd : 52 < Zdigits2 q0 <= 54)
    by (apply Zdigits2_range; [lia | exact Hq0]).
  set (X := to_Q (S754_finite false mx ex)).
  set (Y := to_Q (S754_finite false my ey)).
  assert (HY : (0 < Y)%Q) by (eapply to_Q_normal; cbn [normal_in]; eauto).
  assert (HXs : (X == inject_Z (Z.pos mx * 2 ^ 53) * 2 ^ (ex - 53))%Q).
  { unfold X. cbn [to_Q cond_Zopp]. symmetry.
    rewrite inject_Z_mult, pow2_Z, <- Qmult_assoc, <- pow2_add by lia.
    replace (53 + (ex - 53)) with ex by lia. reflexivity. }
  assert (HYs : forall a, (inject_Z a * 2 ^ E * Y
                           == inject_Z (a * Z.pos my) * 2 ^ (ex - 53))%Q).
  { intros a. unfold Y, E. cbn [to_Q cond_Zopp].
    rewrite inject_Z_mult.
    replace (ex - 53) with ((ex - ey - 53) + ey) by lia.
    rewrite pow2_add. ring. }
  assert (Hxlo : (inject_Z q0 * 2 ^ E <= X / Y)%Q).
  { apply Qle_shift_div_l; [exact HY|]. rewrite HYs, HXs.
    apply scaled_le. lia. }
  assert (Hxhi : (X / Y < inject_Z (q0 + 1) * 2 ^ E)%Q).
  { apply Qlt_shift_div_r; [exact HY|]. rewrite HYs, HXs.
    apply scaled_lt. lia. }
  assert (Hl : new_location (Z.pos my) r0 = loc_Exact
               <-> (X / Y == inject_Z q0 * 2 ^ E)%Q).
  { rewrite new_location_exact. split.
    - intros ->. apply Qle_antisym; [|exact Hxlo].
      apply Qle_shift_div_r; [exact HY|]. rewrite HYs, HXs.
      apply scaled_le. lia.
    - intros He.
      assert (Hm : (X == inject_Z q0 * 2 ^ E * Y)%Q).
      { rewrite <- He. field. apply Qnot_eq_sym, Qlt_not_eq. exact HY. }
      rewrite HYs, HXs in Hm. apply scaled_eq in Hm. lia. }
  destruct (round_normal_Q q0 E (new_location (Z.pos my) r0) (X / Y)%Q)
    as (Hn & Hr & _); try assumption; try (unfold E; lia).
  split; [|exact Hr].
  eapply normal_in_weaken; [exact Hn| |]; unfold E; lia.
Qed.

End NumberOperations.

Section SubtractionAndOrder.
Import Binary64 Wav.

(** ** Rounding an integer multiple of a power of two *)

Lemma binary_round_normal (D : positive) ez :
  let d := Zdigits2 (Z.pos D) in
  -1074 <= d + ez - 53 -> d + ez - 53 <= 970 ->
  let r := binary_round prec emax false D ez in
  normal_in (d + ez - 53) (d + ez - 52) r /\
  rounded (inject_Z (Z.pos D) * 2 ^ ez)%Q r /\
  ((53 < d -> Z.pos D mod 2 ^ (d - 53) = 0) ->
   (to_Q r == inject_Z (Z.pos D) * 2 ^ ez)%Q).
Proof.
  intros d Hlo Hhi. unfold binary_round.
  change (Z.pos (digits2_pos D)) with d.
  replace (fexp prec emax (d + ez)) with (d + ez - 53)
    by (unfold fexp, emin, prec, emax; lia).
  destruct (Zdigits2_bounds (Z.pos D) ltac:(lia)) as [Blo Bhi]. fold d in Blo, Bhi.
  assert (Hd0 : 0 < d) by (unfold d; cbn; lia).
  unfold shl_align.
  replace (d + ez - 53 - ez) with (d - 53) by lia.
  destruct (d - 53) as [|p|p] eqn:Hp.
  - (* exactly 53 bits *)
    assert (Hd : d = 53) by lia. rewrite Hd in Blo, Bhi.
    change (53 - 1) with 52 in Blo.
    destruct (round_normal_Q (Z.pos D) ez loc_Exact
                (inject_Z (Z.pos D) * 2 ^ ez)%Q)
      as (Hn & Hr & Hex); try (fold d; lia).
    + apply Qle_refl.
    + apply scaled_lt. lia.
    + split; reflexivity.
    + fold d in Hn, Hex. rewrite Hd in Hn, Hex. cbn [Z.sub Z.add] in Hn.
      split; [eapply normal_in_weaken; [exact Hn| |]; lia|].
      split; [exact Hr|]. intros _. apply Hex; [reflexivity|].
      change (53 - 53) with 0. rewrite Z.pow_0_r. apply Z.mod_1_r.
  - (* more than 53 bits *)
    assert (H52 : 2 ^ 52 <= Z.pos D).
    { assert (2 ^ 52 <= 2 ^ (d - 1)) by (apply Z.pow_le_mono_r; lia). lia. }
    destruct (round_normal_Q (Z.pos D) ez loc_Exact
                (inject_Z (Z.pos D) * 2 ^ ez)%Q)
      as (Hn & Hr & Hex); try (fold d; lia).
    + apply Qle_refl.
    + apply scaled_lt. lia.
    + split; reflexivity.
    + fold d in Hn, Hex.
      split; [eapply normal_in_weaken; [exact Hn| |]; lia|].
      split; [exact Hr|]. intros H. apply Hex; [reflexivity|].
      replace (d - 53) with (Z.pos p) by lia. apply H. lia.
  - (* fewer than 53 bits: the mantissa is shifted left *)
    change (PosDef.Pos.iter xO D p) with (shift_pos p D).
    set (M := Z.pos (shift_pos p D)).
    assert (HM : M = Z.pos D * 2 ^ (53 - d)).
    { unfold M. rewrite shift_pos_correct, Z.pow_pos_fold.
      replace (53 - d) with (Z.pos p) by lia. lia. }
    assert (HM52 : 2 ^ 52 <= M < 2 ^ 53).
    { assert (E52 : 2 ^ 52 = 2 ^ (d - 1) * 2 ^ (53 - d))
        by (rewrite <- Z.pow_add_r by lia; f_equal; lia).
      assert (E53 : 2 ^ 53 = 2 ^ d * 2 ^ (53 - d))
        by (rewrite <- Z.pow_add_r by lia; f_equal; lia).
      rewrite HM, E52, E53.
      assert (0 < 2 ^ (53 - d)) by (apply Z.pow_pos_nonneg; lia).
      split; [apply Z.mul_le_mono_nonneg_r; lia
             | apply Z.mul_lt_mono_pos_r; lia]. }
    assert (HdM : Zdigits2 M = 53)
      by (apply Zdigits2_unique; [change (53 - 1) with 52|]; lia).
    assert (Hx : (inject_Z (Z.pos D) * 2 ^ ez
                  == inject_Z M * 2 ^ (d + ez - 53))%Q).
    { rewrite HM. rewrite (units (Z.pos D) ez (d + ez - 53)) by lia.
      replace (ez - (d + ez - 53)) with (53 - d) by lia. reflexivity. }
    destruct (round_normal_Q M (d + ez - 53) loc_Exact
                (inject_Z M * 2 ^ (d + ez - 53))%Q)
      as (Hn & Hr & Hex); try (rewrite HdM; lia); try lia.
    + apply Qle_refl.
    + apply scaled_lt. lia.
    + split; reflexivity.
    + rewrite HdM in Hn, Hex.
      split; [eapply normal_in_weaken; [exact Hn| |]; lia|].
      split; [eapply rounded_ext; [symmetry; exact Hx | exact Hr]|].
      intros _. rewrite Hx. apply Hex; [reflexivity|].
      change (53 - 53) with 0. rewrite Z.pow_0_r. apply Z.mod_1_r.
Qed.

(** A positive integer up to [2^53] is a number. *)
Lemma of_Z_normal w :
  0 < w <= 2 ^ 53 ->
  normal_in (-52) 2 (of_Z w) /\ (to_Q (of_Z w) == inject_Z w)%Q.
Proof.
  intros Hw. unfold of_Z, binary_normalize.
  destruct w as [|D|D]; try lia.
  assert (Hd : 0 < Zdigits2 (Z.pos D) <= 54).
  { apply Zdigits2_range; [lia|]. change (2 ^ 0) with 1.
    change (2 ^ 54) with (2 * 2 ^ 53). lia. }
  destruct (binary_round_normal D 0) as (Hn & _ & Hex); try lia.
  split; [eapply normal_in_weaken; [exact Hn| |]; lia|].
  rewrite Hex; [change (2 ^ 0)%Q with 1%Q; ring|].
  intros Hd53.
  destruct (Zdigits2_bounds (Z.pos D) ltac:(lia)) as [Blo _].
  replace (Zdigits2 (Z.pos D)) with 54 in * by lia.
  change (54 - 1) with 53 in Blo. change (54 - 53) with 1.
  replace (Z.pos D) with (2 ^ 53) by lia. reflexivity.
Qed.

(** ** Subtraction of a smaller number *)

Lemma shl_align_fst mx ex ez :
  ez <= ex -> Z.pos (fst (shl_align mx ex ez)) = Z.pos mx * 2 ^ (ex - ez).
Proof.
  intros H. unfold shl_align.
  destruct (ez - ex) as [|p|p] eqn:Hp; cbn [fst].
  - replace (ex - ez) with 0 by lia. lia.
  - lia.
  - change (PosDef.Pos.iter xO mx p) with (shift_pos p mx).
    rewrite shift_pos_correct, Z.pow_pos_fold.
    replace (ex - ez) with (Z.pos p) by lia. lia.
Qed.

Lemma sub_normal lo hi x y :
  normal_in lo hi x -> normal_in lo hi y ->
  (to_Q y <= to_Q x)%Q -> -1022 <= lo -> hi <= 970 ->
  (sub x y = S754_zero false /\ (to_Q x == to_Q y)%Q) \/
  (normal_in (lo - 52) (hi + 1) (sub x y) /\
   rounded (to_Q x - to_Q y) (sub x y)).
Proof.
  intros (mx & ex & -> & Hmx & Hex)%normal_in_inv
         (my & ey & -> & Hmy & Hey)%normal_in_inv Hle Hlo Hhi.
  unfold sub, SFsub. cbn [cond_Zopp].
  set (ez := Z.min ex ey).
  rewrite !shl_align_fst by (unfold ez; lia).
  set (D := Z.pos mx * 2 ^ (ex - ez) - Z.pos my * 2 ^ (ey - ez)).
  assert (HX : (to_Q (S754_finite false mx ex)
                == inject_Z (Z.pos mx * 2 ^ (ex - ez)) * 2 ^ ez)%Q)
    by (cbn [to_Q cond_Zopp]; apply units; unfold ez; lia).
  assert (HY : (to_Q (S754_finite false my ey)
                == inject_Z (Z.pos my * 2 ^ (ey - ez)) * 2 ^ ez)%Q)
    by (cbn [to_Q cond_Zopp]; apply units; unfold ez; lia).
  assert (HD : (to_Q (S754_finite false mx ex) - to_Q (S754_finite false my ey)
                == inject_Z D * 2 ^ ez)%Q).
  { rewrite HX, HY. unfold D.
    replace (Z.pos mx * 2 ^ (ex - ez) - Z.pos my * 2 ^ (ey - ez))
      with (Z.pos mx * 2 ^ (ex - ez) + - (Z.pos my * 2 ^ (ey - ez))) by lia.
    rewrite inject_Z_plus, inject_Z_opp. ring. }
  assert (HD0 : 0 <= D).
  { rewrite HX, HY in Hle. apply scaled_le in Hle. unfold D. lia. }
  unfold binary_normalize.
  destruct D as [|p|p] eqn:HDp; [left|right|lia].
  - split; [reflexivity|].
    rewrite HX, HY. apply scaled_eq. lia.
  - assert (Hpx : Z.pos p < 2 ^ (53 + (ex - ez))).
    { rewrite Z.pow_add_r by (unfold ez; lia).
      assert (0 < 2 ^ (ex - ez)) by (apply Z.pow_pos_nonneg; unfold ez; lia).
      assert (0 < Z.pos my * 2 ^ (ey - ez))
        by (apply Z.mul_pos_pos; [lia|apply Z.pow_pos_nonneg; unfold ez; lia]).
      assert (Z.pos mx * 2 ^ (ex - ez) < 2 ^ 53 * 2 ^ (ex - ez))
        by (apply Z.mul_lt_mono_pos_r; lia).
      lia. }
    assert (Hd : 0 < Zdigits2 (Z.pos p) <= 53 + (ex - ez)).
    { apply Zdigits2_range; [lia|]. change (2 ^ 0) with 1. lia. }
    destruct (binary_round_normal p ez) as (Hn & Hr & _);
      try (unfold ez in *; lia).
    split.
    + eapply normal_in_weaken; [exact Hn| |]; unfold ez in *; lia.
    + eapply rounded_ext; [symmetry; exact HD | exact Hr].
Qed.

(** ** Comparison *)

Lemma normal_order ma ea mb eb :
  2 ^ 52 <= Z.pos ma < 2 ^ 53 -> 2 ^ 52 <= Z.pos mb < 2 ^ 53 -> ea < eb ->
  (inject_Z (Z.pos ma + 1) * 2 ^ ea <= inject_Z (Z.pos mb) * 2 ^ eb)%Q.
Proof.
  intros Ha Hb He.
  rewrite (units (Z.pos mb) eb ea) by lia. apply scaled_le.
  assert (2 ^ 1 <= 2 ^ (eb - ea)) by (apply Z.pow_le_mono_r; lia).
  change (2 ^ 1) with 2 in *. change (2 ^ 53) with (2 * 2 ^ 52) in *. nia.
Qed.

Lemma ltb_normal la ha lb hb a b :
  normal_in la ha a -> normal_in lb hb b ->
  (ltb a b = true <-> (to_Q a < to_Q b)%Q).
Proof.
  intros (ma & ea & -> & Hma & Hea)%normal_in_inv
         (mb & eb & -> & Hmb & Heb)%normal_in_inv.
  unfold ltb, SFltb. rewrite SFcompare_finite. cbn [to_Q cond_Zopp].
  destruct (Z.compare_spec ea eb) as [->|Hlt|Hgt].
  - rewrite scaled_lt.
    destruct (Z.compare_spec (Z.pos ma) (Z.pos mb)); split;
      try reflexivity; try discriminate; lia.
  - split; [intros _|reflexivity].
    eapply Qlt_le_trans; [|apply (normal_order ma ea mb eb); assumption].
    apply scaled_lt. lia.
  - split; [discriminate|]. intros H. exfalso.
    apply Qlt_not_le in H. apply H.
    eapply Qle_trans; [|apply (normal_order mb eb ma ea); assumption].
    apply scaled_le. lia.
Qed.

(** A normal number that is not below [m * 2^e] is that number or is at
    least the next one. *)
Lemma not_below_normal la ha a m e :
  normal_in la ha a -> 2 ^ 52 <= Z.pos m < 2 ^ 53 ->
  ltb a (S754_finite false m e) = false ->
  a = S754_finite false m e \/
  (inject_Z (Z.pos m + 1) * 2 ^ e <= to_Q a)%Q.
Proof.
  intros (ma & ea & -> & Hma & Hea)%normal_in_inv Hm.
  unfold ltb, SFltb. rewrite SFcompare_finite. cbn [to_Q cond_Zopp].
  destruct (Z.compare_spec ea e) as [->|Hlt|Hgt].
  - destruct (Z.compare_spec (Z.pos ma) (Z.pos m)) as [Heq|Hlt|Hgt];
      intros H; try discriminate.
    + left. congruence.
    + right. apply scaled_le. lia.
  - discriminate.
  - intros _. right.
    eapply Qle_trans; [apply (normal_order m e ma ea); assumption|].
    apply Qle_refl.
Qed.

End SubtractionAndOrder.

(* ===================================================================== *)
(** * Proofs: the duration estimate and the compositor *)
(* ===================================================================== *)

Section DurationProofs.
Import Binary64 Duration.

Lemma split_from_nonempty inrun cur s :
  (1 <= length (split_from inrun cur s))%nat.
Proof.
  revert inrun cur. induction s as [|c rest IH]; intros inrun cur; cbn.
  - lia.
  - destruct (isWhiteSpace c); [destruct inrun|]; cbn; try apply IH.
    specialize (IH true []). lia.
Qed.

Lemma wordCount_positive narration : 1 <= wordCount narration.
Proof.
  unfold wordCount, split_whitespace.
  pose proof (split_from_nonempty false [] narration). lia.
Qed.

Lemma estimate_rational narration :
  (estimate (T:=Q) narration == inject_Z (wordCount narration) * (1000 # 3))%Q.
Proof.
  unfold estimate, averageWPM. cbn [of_int times divide rational_arith].
  field.
Qed.

Lemma split_from_count s : forall inrun cur p,
  isWhiteSpace p = inrun ->
  length (split_from inrun cur s) =
  S (length (List.filter
               (fun pc => negb (isWhiteSpace pc.1) && isWhiteSpace pc.2)
               (zip (p :: s) s))).
Proof.
  induction s as [|c rest IH]; intros inrun cur p Hp; [reflexivity|].
  cbn [split_from zip zip_with List.filter fst snd]. rewrite Hp.
  destruct (isWhiteSpace c) eqn:Hc.
  - destruct inrun; cbn [negb andb length].
    + apply IH. exact Hc.
    + f_equal. apply IH. exact Hc.
  - rewrite andb_false_r. apply IH. exact Hc.
Qed.

(** The code counts what the specification calls words. *)
Lemma wordCount_spec narration : wordCount narration = spec_wordCount narration.
Proof.
  unfold wordCount, split_whitespace, spec_wordCount, run_starts.
  rewrite (split_from_count narration false [] 0 eq_refl). lia.
Qed.

Lemma split_from_length s : forall inrun cur,
  (length (split_from inrun cur s) <= S (length s))%nat.
Proof.
  induction s as [|c rest IH]; intros inrun cur; cbn [split_from length];
    [lia|].
  destruct (isWhiteSpace c); [destruct inrun|]; cbn [length];
    try (specialize (IH true cur); lia);
    try (specialize (IH true []); lia).
  specialize (IH false (c :: cur)). lia.
Qed.

Lemma wordCount_length narration :
  wordCount narration <= Z.of_nat (length narration) + 1.
Proof.
  unfold wordCount, split_whitespace.
  pose proof (split_from_length narration false []). lia.
Qed.

(** The characters the code takes for white space are those of the
    language's [\s]. *)
Lemma isWhiteSpace_spec c :
  isWhiteSpace c = true <-> c ∈ whitespace_code_units.
Proof.
  unfold whitespace_code_units. rewrite !elem_of_cons, elem_of_nil.
  unfold isWhiteSpace.
  rewrite !orb_true_iff, !andb_true_iff, !Z.leb_le, !Z.eqb_eq. lia.
Qed.

(** The three rounded operations of the estimate, for a count [w]. *)
Lemma estimate_binary64 (w : Z) :
  0 < w <= 2 ^ 53 ->
  let r := mul (mul (div (of_Z w) (of_Z 180)) (of_Z 60)) (of_Z 1000) in
  normal_in (-107) 115 r /\
  (inject_Z w / 180 * 60000 * (1 - 2 ^ (-50)) <= to_Q r)%Q /\
  (to_Q r <= inject_Z w / 180 * 60000 * (1 + 2 ^ (-50)))%Q.
Proof.
  intros Hw.
  destruct (of_Z_normal w Hw) as [Hnw Hqw].
  destruct (of_Z_normal 180 ltac:(split; [reflexivity|discriminate]))
    as [Hn180 Hq180].
  destruct (of_Z_normal 60 ltac:(split; [reflexivity|discriminate]))
    as [Hn60 Hq60].
  destruct (of_Z_normal 1000 ltac:(split; [reflexivity|discriminate]))
    as [Hn1000 Hq1000].
  destruct (div_normal _ _ _ _ _ _ Hnw Hn180) as [Hn1 [[H1a H1b] _]];
    [lia|lia|].
  destruct (mul_normal _ _ _ _ _ _ Hn1 Hn60) as [Hn2 [[H2a H2b] _]];
    [lia|lia|].
  destruct (mul_normal _ _ _ _ _ _ Hn2 Hn1000) as [Hn3 [[H3a H3b] _]];
    [lia|lia|].
  cbv zeta. split; [eapply normal_in_weaken; [exact Hn3| |]; lia|].
  rewrite Hqw, Hq180 in H1a, H1b.
  rewrite Hq60 in H2a, H2b. rewrite Hq1000 in H3a, H3b.
  change (inject_Z 180) with 180%Q in *.
  change (inject_Z 60) with 60%Q in *.
  change (inject_Z 1000) with 1000%Q in *.
  unfold ulp_ratio in *.
  change (2 ^ (-52))%Q with (1 # 4503599627370496)%Q in *.
  change (2 ^ (-50))%Q with (1 # 1125899906842624)%Q.
  assert (HW : (0 < inject_Z w)%Q)
    by (change 0%Q with (inject_Z 0); rewrite <- Zlt_Qlt; lia).
  pose proof (to_Q_normal _ _ _ Hn1) as P1.
  pose proof (to_Q_normal _ _ _ Hn2) as P2.
  pose proof (to_Q_normal _ _ _ Hn3) as P3.
  set (R1 := to_Q (div (of_Z w) (of_Z 180))) in *.
  set (R2 := to_Q (mul (div (of_Z w) (of_Z 180)) (of_Z 60))) in *.
  set (R3 := to_Q (mul (mul (div (of_Z w) (of_Z 180)) (of_Z 60))
                       (of_Z 1000))) in *.
  set (W := inject_Z w) in *.
  clearbody R1 R2 R3 W. split; lra.
Qed.

(** C5 (as amended): for every narration of a length a string can have
    (fewer than [2^53] code units), the estimate the program computes, the
    binary64 value of [(wordCount / 180) * 60 * 1000], is a positive normal
    number within one part in [2^50] of [max(1, wordCount) / 180 * 60000];
    the two are equal in exact arithmetic.  The words are delimited by
    white space, the characters of [\s]: [wordCount] is one more than the
    number of maximal runs of white space, hence at least 1.  The empty
    narration splits into one empty piece, counts one word and gets a third
    of a second. *)
Theorem C5_duration_estimate (narration : jsstring) :
  Z.of_nat (length narration) < 2 ^ 53 ->
  let r := estimate (T:=spec_float) narration in
  wordCount narration = spec_wordCount narration /\
  (forall c, isWhiteSpace c = true <-> c ∈ whitespace_code_units) /\
  split_whitespace (of_ascii " ab  c ")
    = [[]; of_ascii "ab"; of_ascii "c"; []] /\
  1 <= wordCount narration /\
  (estimate (T:=Q) narration == spec_duration narration)%Q /\
  normal_in (-107) 115 r /\
  (spec_duration narration * (1 - 2 ^ (-50)) <= to_Q r)%Q /\
  (to_Q r <= spec_duration narration * (1 + 2 ^ (-50)))%Q /\
  (0 < to_Q r)%Q /\
  split_whitespace [] = [[]] /\
  wordCount [] = 1 /\
  estimate (T:=spec_float) [] = S754_finite false 5864062014805334 (-44) /\
  (estimate (T:=Q) [] == 1000 # 3)%Q.
Proof.
  intros Hlen.
  pose proof (wordCount_positive narration) as Hw.
  pose proof (wordCount_length narration) as Hwl.
  pose proof (wordCount_spec narration) as Hspec.
  assert (Hsd : (spec_duration narration
                 == inject_Z (wordCount narration) / 180 * 60000)%Q).
  { unfold spec_duration. rewrite <- Hspec, Z.max_r by exact Hw.
    reflexivity. }
  destruct (estimate_binary64 (wordCount narration) ltac:(lia))
    as (Hn & Hlo & Hhi).
  cbv zeta.
  change (estimate (T:=spec_float) narration)
    with (mul (mul (div (of_Z (wordCount narration)) (of_Z 180)) (of_Z 60))
              (of_Z 1000)).
  split; [exact Hspec|]. split; [exact isWhiteSpace_spec|].
  split; [reflexivity|]. split; [exact Hw|].
  split; [rewrite estimate_rational, Hsd; field|].
  split; [exact Hn|].
  split; [rewrite Hsd; exact Hlo|]. split; [rewrite Hsd; exact Hhi|].
  split; [eapply to_Q_normal; exact Hn|].
  repeat split.
Qed.

Lemma C5_duration_estimate_witness :
  Z.of_nat (length thirty_words) < 2 ^ 53 /\
  wordCount thirty_words = spec_wordCount thirty_words /\
  (0 < to_Q (estimate (T:=spec_float) thirty_words))%Q.
Proof.
  assert (H : Z.of_nat (length thirty_words) < 2 ^ 53) by reflexivity.
  pose proof (C5_duration_estimate thirty_words H) as T. cbv zeta in T.
  split; [exact H|]. split; [exact (proj1 T)|].
  destruct T as (_ & _ & _ & _ & _ & _ & _ & _ & T & _). exact T.
Defined.

(** C5 as the specification states it fails: the value the program
    returns for a narration of 93 words is not [93 / 180 * 60000 = 31000]
    but the binary64 number next above it; and for 17 words it is not the
    binary64 value of [17 / 180 * 60000] either, the code multiplying by 60
    and then by 1000. *)
Lemma C5_estimate_is_rounded :
  wordCount (words 93) = 93 /\
  (spec_duration (words 93) == 31000)%Q /\
  estimate (T:=spec_float) (words 93)
    = S754_finite false 8521215115264001 (-38) /\
  ~ (to_Q (estimate (T:=spec_float) (words 93))
     == spec_duration (words 93))%Q /\
  wordCount (words 17) = 17 /\
  estimate (T:=spec_float) (words 17)
    <> mul (div (of_Z 17) (of_Z 180)) (of_Z 60000).
Proof.
  split; [reflexivity|]. split; [reflexivity|]. split; [reflexivity|].
  split; [|split; [reflexivity|]]; vm_compute; discriminate.
Qed.

End DurationProofs.

Section CompositorProofs.
Import Binary64 Compositor.

Lemma less_rational (x y : Q) : less x y = true <-> (x < y)%Q.
Proof.
  cbn [less rational_arith]. rewrite negb_true_iff.
  split.
  - intros H. apply Qnot_le_lt. intros Hle.
    apply Qle_bool_iff in Hle. congruence.
  - intros H. destruct (Qle_bool y x) eqn:E; [|reflexivity].
    apply Qle_bool_iff in E. apply Qlt_not_le in H. contradiction.
Qed.

Lemma drawRect_rational (W H w h : Q) :
  (0 < W)%Q -> (0 < H)%Q -> (0 < w)%Q -> (0 < h)%Q ->
  let r := drawRect W H w h in
  (0 <= dx r /\ dx r + drawWidth r <= W /\
   0 <= dy r /\ dy r + drawHeight r <= H /\
   dx r == (W - drawWidth r) / 2 /\ dy r == (H - drawHeight r) / 2 /\
   (dx r == 0 \/ dy r == 0) /\
   (dx r == 0 /\ dy r == 0 <-> W * h == w * H))%Q.
Proof.
  intros HW HH Hw Hh. unfold drawRect.
  cbn [of_int minus times divide rational_arith].
  assert (Ha : (0 < w / h)%Q) by (apply Qlt_shift_div_l; lra).
  assert (Hca : (0 < W / H)%Q) by (apply Qlt_shift_div_l; lra).
  assert (Ea : (w / h * h == w)%Q) by (field; lra).
  assert (Eca : (W / H * H == W)%Q) by (field; lra).
  set (a := (w / h)%Q) in *. set (ca := (W / H)%Q) in *.
  clearbody a ca.
  destruct (less a ca) eqn:Hlt; cbn [dx dy drawWidth drawHeight].
  - apply less_rational in Hlt.
    change (inject_Z 2) with 2%Q. unfold Qdiv.
    change (/ 2)%Q with (1 # 2)%Q.
    assert (Hp : (H * a < H * ca)%Q) by (apply Qmult_lt_l; assumption).
    assert (Hwh : (W * h == ca * H * h)%Q) by (rewrite Eca; reflexivity).
    assert (Hwh' : (w * H == a * h * H)%Q) by (rewrite Ea; reflexivity).
    assert (Hq : (a * h * H < ca * H * h)%Q).
    { assert (Hp' : (H * a * h < H * ca * h)%Q)
        by (apply Qmult_lt_r; assumption).
      lra. }
    refine (conj _ (conj _ (conj _ (conj _ (conj _ (conj _ (conj _ _)))))));
      lra.
  - assert (Hge : (ca <= a)%Q).
    { apply Qnot_lt_le. intros Hc. apply less_rational in Hc. congruence. }
    change (inject_Z 2) with 2%Q.
    assert (Eq : (W / a * a == W)%Q) by (field; lra).
    assert (Hq : (0 < W / a)%Q) by (apply Qlt_shift_div_l; lra).
    set (q := (W / a)%Q) in *. clearbody q.
    assert (Hp : (q * ca <= q * a)%Q) by (apply Qmult_le_l; assumption).
    assert (Hp2 : (ca * q <= ca * H)%Q) by lra.
    assert (HqH : (q <= H)%Q) by (apply Qmult_le_l in Hp2; assumption).
    assert (Hwh : (W * h == q * w)%Q).
    { rewrite <- Ea, <- Eq at 1. ring. }
    unfold Qdiv. change (/ 2)%Q with (1 # 2)%Q.
    refine (conj _ (conj _ (conj _ (conj _ (conj _ (conj _ (conj _ _)))))));
      try lra.
    split.
    * intros [_ He]. assert (HqE : (q == H)%Q) by lra.
      rewrite Hwh, HqE. ring.
    * intros He. rewrite Hwh in He.
      assert (HqE : (q == H)%Q).
      { apply Qmult_inj_r with w; [lra|]. rewrite He. ring. }
      lra.
Qed.
(** The offset on one axis: half of what the image leaves free. *)
Lemma offset_binary64 (X d : float) (C : Q) :
  normal_in (-110) 60 X -> normal_in (-110) 60 d ->
  (to_Q X == C)%Q -> (to_Q d <= C)%Q ->
  let o := div (sub X d) (of_Z 2) in
  zero_or_normal o /\
  (0 <= to_Q o)%Q /\ (to_Q o + to_Q d <= C)%Q /\
  ((C - to_Q d) / 2 * (1 - 2 ^ (-50)) <= to_Q o)%Q /\
  (to_Q o <= (C - to_Q d) / 2 * (1 + 2 ^ (-50)))%Q.
Proof.
  intros HX Hd HC Hle. cbv zeta.
  change (2 ^ (-50))%Q with (1 # 1125899906842624)%Q.
  destruct (sub_normal (-110) 60 X d HX Hd) as [[Hz Heq]|[Hn [[Ha Hb] _]]];
    [rewrite HC; exact Hle | lia | lia | |].
  - rewrite Hz. change (div (S754_zero false) (of_Z 2)) with zero.
    split; [left; reflexivity|]. cbn [to_Q zero].
    rewrite HC in Heq.
    unfold Qdiv. change (/ 2)%Q with (1 # 2)%Q.
    set (D := to_Q d) in *. clearbody D. repeat split; lra.
  - destruct (of_Z_normal 2 ltac:(split; [reflexivity|discriminate]))
      as [Hn2 Hq2].
    destruct (div_normal _ _ _ _ _ _ Hn Hn2) as [Hno [[Hc1 Hc2] _]];
      [lia|lia|].
    split; [right; eapply normal_in_weaken; [exact Hno| |]; lia|].
    pose proof (to_Q_normal _ _ _ Hno) as Po.
    pose proof (to_Q_normal _ _ _ Hn) as Pz.
    rewrite Hq2 in Hc1, Hc2. change (inject_Z 2) with 2%Q in *.
    rewrite HC in Ha, Hb.
    unfold ulp_ratio in *.
    change (2 ^ (-52))%Q with (1 # 4503599627370496)%Q in *.
    unfold Qdiv in *. change (/ 2)%Q with (1 # 2)%Q in *.
    set (O := to_Q (div (sub X d) (of_Z 2))) in *.
    set (Zv := to_Q (sub X d)) in *.
    set (D := to_Q d) in *. clearbody O Zv D.
    repeat split; lra.
Qed.

(** [canvas.width / canvas.height] for the canvas of the export, which is
    the number next below 16/9. *)
Lemma canvasAspect_value :
  div (of_Z 1280) (of_Z 720) = S754_finite false 8006399337547548 (-52).
Proof. reflexivity. Qed.

(** C6 (as amended): on the 1280 by 720 canvas of the export, for every
    pair of positive image dimensions (integers up to [2^53]), the draw
    rectangle the program computes in binary64 lies entirely within the
    canvas bounds, is centered up to rounding (each offset is within one
    part in [2^50] of [(canvasDimension - drawDimension) / 2]), and at
    least one of the two offsets is zero.  The draw dimensions are positive
    normal numbers and each offset is zero or a positive normal number. *)
Theorem C6_draw_rectangle (w h : Z) :
  0 < w <= 2 ^ 53 -> 0 < h <= 2 ^ 53 ->
  let r := drawRect (T:=spec_float) (of_Z 1280) (of_Z 720)
                    (of_Z w) (of_Z h) in
  within_canvas 1280 720 (exact r) /\
  nearly_centered 1280 720 (exact r) /\
  (dx r = zero \/ dy r = zero) /\
  zero_or_normal (dx r) /\ zero_or_normal (dy r) /\
  normal_in (-1074) 971 (drawWidth r) /\
  normal_in (-1074) 971 (drawHeight r).
Proof.
  intros Hw Hh.
  destruct (of_Z_normal w Hw) as [Hnw _].
  destruct (of_Z_normal h Hh) as [Hnh _].
  destruct (div_normal _ _ _ _ _ _ Hnw Hnh) as [Hna _]; [lia|lia|].
  pose proof (to_Q_normal _ _ _ Hna) as Pa.
  destruct (of_Z_normal 1280 ltac:(split; [reflexivity|discriminate]))
    as [Hn1280 Hq1280].
  destruct (of_Z_normal 720 ltac:(split; [reflexivity|discriminate]))
    as [Hn720 Hq720].
  change (inject_Z 1280) with 1280%Q in Hq1280.
  change (inject_Z 720) with 720%Q in Hq720.
  unfold drawRect.
  cbn [of_int minus times divide less binary64_arith].
  set (a := div (of_Z w) (of_Z h)) in *.
  rewrite canvasAspect_value.
  assert (Hmc : 2 ^ 52 <= 8006399337547548 < 2 ^ 53)
    by (split; [discriminate|reflexivity]).
  destruct (ltb a (S754_finite false 8006399337547548 (-52))) eqn:Hlt.
  - (* the image is narrower than the canvas *)
    apply (ltb_normal (-107) 3 (-52) (-52)) in Hlt;
      [|exact Hna|cbn [normal_in]; lia].
    assert (Hc : (to_Q (S754_finite false 8006399337547548 (-52)) < 16 # 9)%Q)
      by reflexivity.
    destruct (mul_normal _ _ _ _ _ _ Hn720 Hna) as [Hndw [_ Hbw]];
      [lia|lia|].
    assert (Hdw : (to_Q (mul (of_Z 720) a) <= 1280)%Q).
    { apply (Hbw 5 8); [split; [reflexivity|reflexivity]|].
      rewrite Hq720. change (inject_Z 5 * 2 ^ 8)%Q with 1280%Q.
      set (A := to_Q a) in *.
      set (Cv := to_Q (S754_finite false 8006399337547548 (-52))) in *.
      clearbody A Cv. lra. }
    destruct (offset_binary64 (of_Z 1280) (mul (of_Z 720) a) 1280%Q)
      as (Ho1 & Ho2 & Ho3 & Ho4 & Ho5);
      [eapply normal_in_weaken; [exact Hn1280| |]; lia
      |eapply normal_in_weaken; [exact Hndw| |]; lia
      |exact Hq1280|exact Hdw|].
    cbn [dx dy drawWidth drawHeight].
    change (div (sub (of_Z 720) (of_Z 720)) (of_Z 2)) with zero.
    unfold within_canvas, nearly_centered, exact.
    cbn [dx dy drawWidth drawHeight to_Q zero]. rewrite Hq720.
    change (2 ^ (-50))%Q with (1 # 1125899906842624)%Q in *.
    unfold Qdiv in *. change (/ 2)%Q with (1 # 2)%Q in *.
    split; [repeat split; try assumption; lra|].
    split; [repeat split; try assumption; lra|].
    split; [right; reflexivity|].
    split; [exact Ho1|]. split; [left; reflexivity|].
    split; eapply normal_in_weaken; [exact Hndw| | |exact Hn720| |]; lia.
  - (* the image is at least as wide as the canvas *)
    apply (not_below_normal (-107) 3) in Hlt; [|exact Hna|exact Hmc].
    destruct Hlt as [Hac|Hge].
    + (* the same aspect ratio: the image fills the canvas *)
      rewrite Hac. cbn [dx dy drawWidth drawHeight].
      change (div (of_Z 1280) (S754_finite false 8006399337547548 (-52)))
        with (of_Z 720).
      change (div (sub (of_Z 720) (of_Z 720)) (of_Z 2)) with zero.
      change (div (sub (of_Z 1280) (of_Z 1280)) (of_Z 2)) with zero.
      unfold within_canvas, nearly_centered, exact.
      cbn [dx dy drawWidth drawHeight to_Q zero]. rewrite Hq720, Hq1280.
      change (2 ^ (-50))%Q with (1 # 1125899906842624)%Q in *.
      unfold Qdiv in *. change (/ 2)%Q with (1 # 2)%Q in *.
      split; [repeat split; lra|]. split; [repeat split; lra|].
      split; [left; reflexivity|].
      split; [left; reflexivity|]. split; [left; reflexivity|].
      split; eapply normal_in_weaken; [exact Hn1280| | |exact Hn720| |]; lia.
    + assert (Hc : ((16 # 9) < inject_Z (8006399337547548 + 1) * 2 ^ (-52))%Q)
        by reflexivity.
      destruct (div_normal _ _ _ _ _ _ Hn1280 Hna) as [Hndh [_ Hbh]];
        [lia|lia|].
      assert (Hdh : (to_Q (div (of_Z 1280) a) <= 720)%Q).
      { apply (Hbh 45 4); [split; [reflexivity|reflexivity]|].
        rewrite Hq1280. change (inject_Z 45 * 2 ^ 4)%Q with 720%Q.
        apply Qle_shift_div_r; [exact Pa|].
        set (A := to_Q a) in *.
        set (Cv := (inject_Z (8006399337547548 + 1) * 2 ^ (-52))%Q) in *.
        clearbody A Cv. lra. }
      destruct (offset_binary64 (of_Z 720) (div (of_Z 1280) a) 720%Q)
        as (Ho1 & Ho2 & Ho3 & Ho4 & Ho5);
        [eapply normal_in_weaken; [exact Hn720| |]; lia
        |eapply normal_in_weaken; [exact Hndh| |]; lia
        |exact Hq720|exact Hdh|].
      cbn [dx dy drawWidth drawHeight].
      change (div (sub (of_Z 1280) (of_Z 1280)) (of_Z 2)) with zero.
      unfold within_canvas, nearly_centered, exact.
      cbn [dx dy drawWidth drawHeight to_Q zero]. rewrite Hq1280.
      change (2 ^ (-50))%Q with (1 # 1125899906842624)%Q in *.
      unfold Qdiv in *. change (/ 2)%Q with (1 # 2)%Q in *.
      split; [repeat split; try assumption; lra|].
      split; [repeat split; try assumption; lra|].
      split; [left; reflexivity|].
      split; [left; reflexivity|]. split; [exact Ho1|].
      split; eapply normal_in_weaken; [exact Hn1280| | |exact Hndh| |]; lia.
Qed.

Lemma C6_draw_rectangle_witness :
  let r := drawRect (T:=spec_float) (of_Z 1280) (of_Z 720)
                    (of_Z 1024) (of_Z 1024) in
  within_canvas 1280 720 (exact r) /\
  nearly_centered 1280 720 (exact r) /\
  dx r = of_Z 280 /\ dy r = zero.
Proof.
  assert (H : 0 < 1024 <= 2 ^ 53) by (split; [reflexivity|discriminate]).
  pose proof (C6_draw_rectangle 1024 1024 H H) as T. cbv zeta in T |- *.
  split; [exact (proj1 T)|]. split; [exact (proj1 (proj2 T))|].
  split; reflexivity.
Defined.

(** C6 as the specification states it fails in three ways.  An image with
    the aspect ratio of the canvas (1920 by 1080) is drawn with both
    offsets zero, in binary64 and in exact arithmetic alike.  On a canvas
    of 1 by 49 an image of 1 by 49 gets the draw height
    [1 / (1 / 49) > 49] and the vertical offset [- 2^-48], outside the
    canvas.  And for an image of 1 by 7 the horizontal offset is not
    exactly half of what the image leaves free. *)
Lemma C6_claim_fails :
  (let r := drawRect (T:=spec_float) (of_Z 1280) (of_Z 720)
                     (of_Z 1920) (of_Z 1080) in
   dx r = zero /\ dy r = zero /\ ~ exactly_one_offset_zero (exact r)) /\
  ~ exactly_one_offset_zero (drawRect (T:=Q) 1280%Q 720%Q 1920%Q 1080%Q) /\
  (let r := drawRect (T:=spec_float) (of_Z 1) (of_Z 49)
                     (of_Z 1) (of_Z 49) in
   dy r = S754_finite true 4503599627370496 (-100) /\
   (to_Q (dy r) < 0)%Q /\ ~ within_canvas 1 49 (exact r)) /\
  (let r := drawRect (T:=spec_float) (of_Z 1280) (of_Z 720)
                     (of_Z 1) (of_Z 7) in
   ~ centered 1280 720 (exact r)).
Proof.
  split; [|split; [|split]].
  - split; [reflexivity|]. split; [reflexivity|].
    unfold exactly_one_offset_zero.
    intros [[_ H]|[H _]]; apply H; reflexivity.
  - unfold exactly_one_offset_zero.
    intros [[_ H]|[H _]]; apply H; reflexivity.
  - cbv zeta. split; [reflexivity|]. split; [reflexivity|].
    intros (_ & _ & H & _). apply (Qle_not_lt _ _ H). reflexivity.
  - cbv zeta. intros [H _]. revert H. vm_compute. discriminate.
Qed.

(** C7: whatever the dimensions, the draw size is chosen by comparing the
    aspect ratios: when the canvas ratio is strictly greater than the image
    ratio the draw height is the canvas height and the draw width is that
    height times the image ratio; otherwise the draw width is the canvas
    width and the draw height is that width divided by the image ratio.
    This holds in binary64 as in exact arithmetic. *)
Theorem C7_draw_size {T : Type} `{Arith T} (W Hc imgW imgH : T) :
  let r := drawRect W Hc imgW imgH in
  let canvasAspect := divide W Hc in
  let imgAspect := divide imgW imgH in
  (drawWidth r, drawHeight r) = spec_drawSize W Hc imgW imgH /\
  (less imgAspect canvasAspect = true ->
   drawHeight r = Hc /\ drawWidth r = times (drawHeight r) imgAspect) /\
  (less imgAspect canvasAspect = false ->
   drawWidth r = W /\ drawHeight r = divide (drawWidth r) imgAspect).
Proof.
  cbv zeta. unfold drawRect, spec_drawSize.
  destruct (less (divide imgW imgH) (divide W Hc));
    cbn [drawWidth drawHeight]; repeat split; try reflexivity;
    intros; discriminate.
Qed.

Lemma C7_draw_size_witness :
  let r := drawRect (T:=spec_float) (Binary64.of_Z 1280) (Binary64.of_Z 720)
                    (Binary64.of_Z 1024) (Binary64.of_Z 1024) in
  drawHeight r = Binary64.of_Z 720 /\ drawWidth r = Binary64.of_Z 720.
Proof.
  pose proof (proj1 (proj2 (C7_draw_size (Binary64.of_Z 1280)
                (Binary64.of_Z 720) (Binary64.of_Z 1024)
                (Binary64.of_Z 1024))) eq_refl) as [H1 H2].
  split; [exact H1|]. rewrite H2, H1. reflexivity.
Defined.

End CompositorProofs.

(* ===================================================================== *)
(** * Proofs: timers and the timer-driven playback *)
(* ===================================================================== *)

Section TimerFacts.
Import Timers.

Lemma earliest_empty t : pending t = ∅ -> earliest t = None.
Proof. unfold earliest. intros ->. rewrite map_to_list_empty. reflexivity. Qed.

Lemma earliest_singleton t id tm :
  pending t = {[ id := tm ]} -> earliest t = Some (id, tm).
Proof.
  unfold earliest. intros ->. rewrite map_to_list_singleton. reflexivity.
Qed.

Lemma clearTimeout_empty id t :
  pending t = ∅ -> pending (clearTimeout id t) = ∅.
Proof. cbn. intros ->. apply delete_empty. Qed.

Lemma clearTimeout_singleton id tm t :
  pending t = {[ id := tm ]} -> pending (clearTimeout id t) = ∅.
Proof. cbn. intros ->. apply delete_singleton_eq. Qed.

End TimerFacts.

Section ViewerProofs.
Import Timers Viewer.
Variable slides : list Duration.jsstring.
Hypothesis slides_nonempty : slides <> [].

Local Abbreviation len := (slides_length slides).

Lemma slides_length_positive : 0 < len.
Proof.
  unfold slides_length. destruct slides; [congruence | cbn; lia].
Qed.

Lemma invariant_tidy s : invariant slides s -> tidy s.
Proof.
  intros [_ _ [H|(id & t & H1 & H2 & H3 & _)]]; [left; exact H|].
  right. exists id, t. auto.
Qed.

Lemma clear_ref_pending s : tidy s -> pending (timers (clear_ref s)) = ∅.
Proof.
  unfold clear_ref. intros [H|(id & t & H1 & H2 & H3)].
  - destruct (slideTimeoutRef s) as [[|n]|]; cbn; try exact H.
    rewrite H. apply delete_empty.
  - rewrite H2. destruct id as [|n]; [lia|]. cbn. rewrite H1.
    apply delete_singleton_eq.
Qed.

Lemma clear_ref_fields s :
  currentSlideIndex (clear_ref s) = currentSlideIndex s /\
  isPlaying (clear_ref s) = isPlaying s /\
  slideTimeoutRef (clear_ref s) = slideTimeoutRef s /\
  now (clear_ref s) = now s /\
  audio_ended (clear_ref s) = audio_ended s /\
  advances (clear_ref s) = advances s /\
  next_id (timers (clear_ref s)) = next_id (timers s).
Proof.
  unfold clear_ref.
  destruct (slideTimeoutRef s) as [[|n]|] eqn:E; repeat split; cbn; congruence.
Qed.

(** The effect run on a state without pending timer. *)
Lemma playback_effect_clean s :
  pending (timers s) = ∅ ->
  let s' := playback_effect slides s in
  currentSlideIndex s' = currentSlideIndex s /\
  advances s' = advances s /\ now s' = now s /\
  if isPlaying s && (currentSlideIndex s <? len - 1) then
    isPlaying s' = true /\
    slideTimeoutRef s' = Some (next_id (timers s)) /\
    next_id (timers s') = S (next_id (timers s)) /\
    exists t, pending (timers s') = {[ next_id (timers s) := t ]} /\
              captured t = currentSlideIndex s
  else
    isPlaying s' = false /\ pending (timers s') = ∅ /\
    next_id (timers s') = next_id (timers s).
Proof.
  intros He. cbv zeta. unfold playback_effect.
  assert (Ht : tidy s) by (left; exact He).
  pose proof (clear_ref_pending s Ht) as Hc.
  destruct (clear_ref_fields s) as (F1 & F2 & F3 & F4 & F5 & F6 & F7).
  destruct (isPlaying s) eqn:Hp; cbn [andb].
  - unfold scheduleNextSlide. rewrite F1.
    destruct (currentSlideIndex s <? len - 1) eqn:Hlt.
    + cbn. rewrite F1, F6, F4, F7, Hc, insert_empty.
      repeat split; try reflexivity; try assumption.
      eexists; split; reflexivity.
    + cbn. rewrite F1, F6, F4, F7.
      repeat split; try reflexivity; try assumption.
  - rewrite F1, F6, F4, F2, F7. repeat split; try reflexivity; assumption.
Qed.

(** What a re-render leaves behind. *)
Lemma commit_invariant old new :
  tidy new ->
  (1 <= next_id (timers new))%nat ->
  0 <= currentSlideIndex new < len ->
  (deps_changed old new = false -> invariant slides new) ->
  invariant slides (commit slides old new) /\
  currentSlideIndex (commit slides old new) = currentSlideIndex new /\
  advances (commit slides old new) = advances new /\
  now (commit slides old new) = now new /\
  (isPlaying new = false -> pending (timers (commit slides old new)) = ∅).
Proof.
  intros Ht Hn Hi Hsame. unfold commit.
  destruct (deps_changed old new) eqn:Hd.
  2:{ specialize (Hsame eq_refl). repeat split; try apply Hsame.
      intros Hp.
      destruct (inv_pending _ _ Hsame) as [H|(id & t & _ & _ & _ & H & _)];
        [exact H | congruence]. }
  clear Hsame Hd old.
  pose proof (clear_ref_pending new Ht) as Hc.
  destruct (clear_ref_fields new) as (F1 & F2 & F3 & F4 & F5 & F6 & F7).
  unfold cleanup.
  destruct (playback_effect_clean (clear_ref new) Hc) as (P1 & P2 & P3 & P4).
  set (s1 := playback_effect slides (clear_ref new)) in *.
  rewrite F1, F2, F7 in P4. rewrite F1 in P1. rewrite F6 in P2. rewrite F4 in P3.
  assert (Hdc : deps_changed new s1
                = negb (Bool.eqb (isPlaying new) (isPlaying s1))).
  { unfold deps_changed. rewrite P1, Z.eqb_refl, andb_true_r. reflexivity. }
  rewrite Hdc. clear Hdc.
  destruct (isPlaying new && (currentSlideIndex new <? len - 1)) eqn:Hb.
  - destruct P4 as (Q1 & Q2 & Q3 & t & Q4 & Q5).
    apply andb_prop in Hb as [Hp Hlt]. apply Z.ltb_lt in Hlt.
    rewrite Hp, Q1. cbn [Bool.eqb negb].
    repeat split; try congruence; try lia.
    right. exists (next_id (timers new)), t.
    repeat split; try assumption; try congruence; try lia.
  - destruct P4 as (Q1 & Q2 & Q3).
    assert (Hinv1 : invariant slides s1).
    { split; [lia | lia | left; exact Q2]. }
    rewrite Q1. destruct (isPlaying new) eqn:Hp; cbn [Bool.eqb negb].
    + assert (Ht1 : tidy s1) by (left; exact Q2).
      pose proof (clear_ref_pending s1 Ht1) as Hc1.
      destruct (clear_ref_fields s1) as (G1 & G2 & G3 & G4 & G5 & G6 & G7).
      destruct (playback_effect_clean (clear_ref s1) Hc1) as (R1 & R2 & R3 & R4).
      rewrite G2, Q1 in R4. cbn [andb] in R4. destruct R4 as (S1 & S2 & S3).
      repeat split; try congruence; try lia.
      left. exact S2.
    + repeat split; try apply Hinv1; try congruence.
Qed.

Lemma handlePlayPause_invariant s :
  invariant slides s ->
  invariant slides (handlePlayPause slides s) /\
  advances (handlePlayPause slides s) = advances s /\
  now (handlePlayPause slides s) = now s /\
  (isPlaying s = true ->
   pending (timers (handlePlayPause slides s)) = ∅ /\
   currentSlideIndex (handlePlayPause slides s) = currentSlideIndex s).
Proof.
  intros Hinv. pose proof (invariant_tidy s Hinv) as Ht.
  pose proof slides_length_positive as Hlen.
  destruct Hinv as [Hi Hn Hpend]. unfold handlePlayPause.
  match goal with |- context [commit slides s ?n] => set (new := n) end.
  assert (Htn : tidy new).
  { unfold new. destruct (isPlaying s); [exact Ht|].
    destruct (audio_ended s || (currentSlideIndex s =? len - 1)); exact Ht. }
  assert (Hnn : (1 <= next_id (timers new))%nat).
  { unfold new. destruct (isPlaying s); [exact Hn|].
    destruct (audio_ended s || (currentSlideIndex s =? len - 1)); exact Hn. }
  assert (Hin : 0 <= currentSlideIndex new < len).
  { unfold new. destruct (isPlaying s); [exact Hi|].
    destruct (audio_ended s || (currentSlideIndex s =? len - 1)); cbn; lia. }
  assert (Hd : deps_changed s new = true).
  { unfold deps_changed, new. destruct (isPlaying s); [reflexivity|].
    destruct (audio_ended s || (currentSlideIndex s =? len - 1)); reflexivity. }
  destruct (commit_invariant s new Htn Hnn Hin) as (C1 & C2 & C3 & C4 & C5).
  { rewrite Hd. discriminate. }
  split; [exact C1|]. rewrite C3, C4, C2.
  split; [unfold new; destruct (isPlaying s); [reflexivity|];
          destruct (audio_ended s || (currentSlideIndex s =? len - 1));
          reflexivity|].
  split; [unfold new; destruct (isPlaying s); [reflexivity|];
          destruct (audio_ended s || (currentSlideIndex s =? len - 1));
          reflexivity|].
  intros Hp. split.
  - apply C5. unfold new. rewrite Hp. reflexivity.
  - unfold new. rewrite Hp. reflexivity.
Qed.

Lemma onEnded_invariant s :
  invariant slides s ->
  invariant slides (onEnded slides s) /\
  pending (timers (onEnded slides s)) = ∅ /\
  advances (onEnded slides s) = advances s /\
  now (onEnded slides s) = now s.
Proof.
  intros Hinv. pose proof (invariant_tidy s Hinv) as Ht.
  pose proof slides_length_positive as Hlen.
  unfold onEnded.
  match goal with |- context [commit slides s ?n] => set (new := n) end.
  destruct (commit_invariant s new) as (C1 & C2 & C3 & C4 & C5).
  - exact Ht.
  - apply Hinv.
  - cbn. lia.
  - unfold deps_changed. cbn [new setCurrentSlideIndex setIsPlaying
      with_audio_ended isPlaying currentSlideIndex].
    intros Hd. apply negb_false_iff, andb_prop in Hd as [Hp Hx].
    apply Z.eqb_eq in Hx. destruct (isPlaying s) eqn:Hps; [discriminate|].
    split; cbn; [lia | apply Hinv |].
    destruct (inv_pending _ _ Hinv) as [H|(id & t & _ & _ & _ & H & _)];
      [left; exact H | congruence].
  - split; [exact C1|]. split; [apply C5; reflexivity|].
    rewrite C3, C4. split; reflexivity.
Qed.

Lemma fire_invariant s id t :
  invariant slides s ->
  pending (timers s) = {[ id := t ]} ->
  invariant slides (fire slides id t s) /\
  currentSlideIndex (fire slides id t s) = currentSlideIndex s + 1 /\
  captured t = currentSlideIndex s /\
  advances (fire slides id t s) = S (advances s) /\
  now (fire slides id t s) = Z.max (now s) (due t).
Proof.
  intros Hinv Hp.
  destruct (inv_pending _ _ Hinv) as [H|(id' & t' & H1 & H2 & H3 & H4 & H5 & H6)].
  { rewrite H in Hp. symmetry in Hp. apply map_non_empty_singleton in Hp. tauto. }
  assert (Heq : t' = t).
  { assert (Hl : ({[ id' := t' ]} : gmap nat timer) !! id = Some t)
      by (rewrite <- H1, Hp; apply lookup_singleton_eq).
    apply lookup_singleton_Some in Hl. tauto. }
  subst t'. unfold fire. cbv zeta.
  match goal with |- context [commit slides ?o ?n] =>
    set (new := n); set (s0 := o) end.
  destruct (commit_invariant s0 new) as (C1 & C2 & C3 & C4 & C5).
  - left. cbn. rewrite Hp. apply delete_singleton_eq.
  - apply Hinv.
  - cbn. destruct (inv_index _ _ Hinv). lia.
  - unfold deps_changed. cbn. intros Hd.
    apply negb_false_iff, andb_prop in Hd as [_ Hx]. apply Z.eqb_eq in Hx. lia.
  - split; [exact C1|]. rewrite C2, C3, C4. repeat split. exact H5.
Qed.

Lemma arrive_invariant target s :
  invariant slides s -> invariant slides (arrive target s).
Proof. intros [H1 H2 H3]. split; assumption. Qed.

Lemma earliest_invariant s id t :
  invariant slides s -> earliest (timers s) = Some (id, t) ->
  pending (timers s) = {[ id := t ]}.
Proof.
  intros Hinv He.
  destruct (inv_pending _ _ Hinv) as [H|(id' & t' & H1 & _)].
  - rewrite (earliest_empty _ H) in He. discriminate.
  - rewrite (earliest_singleton _ _ _ H1) in He. congruence.
Qed.

Lemma run_due_invariant fuel target s :
  invariant slides s ->
  invariant slides (run_due timers (fire slides) arrive fuel target s).
Proof.
  revert s. induction fuel as [|fuel IH]; intros s Hinv; cbn [run_due].
  - exact Hinv.
  - destruct (earliest (timers s)) as [[id t]|] eqn:He.
    + destruct (due t <=? target).
      * apply IH, fire_invariant; [exact Hinv|].
        apply earliest_invariant; assumption.
      * apply arrive_invariant, Hinv.
    + apply arrive_invariant, Hinv.
Qed.

(** The fuel of [elapse] is enough: the clock reaches its target. *)
Lemma run_due_arrives fuel target s :
  invariant slides s ->
  (Z.to_nat (len - 1 - currentSlideIndex s) < fuel)%nat ->
  now (run_due timers (fire slides) arrive fuel target s) = target.
Proof.
  revert s. induction fuel as [|fuel IH]; intros s Hinv Hf; [lia|].
  cbn [run_due].
  destruct (earliest (timers s)) as [[id t]|] eqn:He; [|reflexivity].
  destruct (due t <=? target); [|reflexivity].
  pose proof (earliest_invariant s id t Hinv He) as Hp.
  destruct (fire_invariant s id t Hinv Hp) as (F1 & F2 & F3 & F4 & F5).
  apply IH; [exact F1|]. rewrite F2.
  destruct (inv_index _ _ F1). rewrite F2 in *. lia.
Qed.

Lemma elapse_invariant dt s :
  invariant slides s -> invariant slides (elapse slides dt s).
Proof. apply run_due_invariant. Qed.

Lemma elapse_now dt s :
  invariant slides s -> now (elapse slides dt s) = now s + Z.max 0 dt.
Proof.
  intros Hinv. apply run_due_arrives; [exact Hinv|].
  destruct (inv_index _ _ Hinv). unfold slides_length in *. lia.
Qed.

(** Without a pending timer the clock runs and nothing else changes. *)
Lemma elapse_idle dt s :
  pending (timers s) = ∅ ->
  elapse slides dt s = arrive (now s + Z.max 0 dt) s.
Proof.
  intros He. unfold elapse. cbn [run_due].
  rewrite (earliest_empty _ He). reflexivity.
Qed.

Lemma mount_invariant : invariant slides mount.
Proof.
  pose proof slides_length_positive. split; cbn; [lia | lia | left; reflexivity].
Qed.

Lemma step_invariant s e :
  invariant slides s -> invariant slides (step slides s e).
Proof.
  intros Hinv. destruct e as [| |dt]; cbn [step].
  - apply handlePlayPause_invariant, Hinv.
  - apply onEnded_invariant, Hinv.
  - apply elapse_invariant, Hinv.
Qed.

Lemma run_invariant events : invariant slides (run slides events).
Proof.
  unfold run. generalize mount_invariant. generalize mount.
  induction events as [|e events IH]; intros s Hinv; cbn [foldl].
  - exact Hinv.
  - apply IH, step_invariant, Hinv.
Qed.

End ViewerProofs.

(* ===================================================================== *)
(** * Proofs: the capture and mux controller *)
(* ===================================================================== *)

Section CaptureProofs.
Import Timers Capture.
Variable generatedSlides : list Duration.jsstring.
Hypothesis slides_nonempty : generatedSlides <> [].

Local Abbreviation len := (slides_length generatedSlides).

Lemma capture_length_positive : 0 < len.
Proof.
  unfold slides_length. destruct generatedSlides; [congruence | cbn; lia].
Qed.

Lemma initial_show_invariant : invariant generatedSlides initial_show.
Proof.
  pose proof capture_length_positive.
  split; cbn; [lia | lia | left; reflexivity].
Qed.

(** [nextSlide] once the previous timer is gone. *)
Lemma nextSlide_invariant sh :
  pending (timers sh) = ∅ ->
  0 <= currentSlideIndex sh < len ->
  slideIndex sh = currentSlideIndex sh + 1 \/ slideIndex sh = 0 /\ currentSlideIndex sh = 0 ->
  let sh' := nextSlide generatedSlides sh in
  invariant generatedSlides sh' /\
  advances sh' = advances sh /\ now sh' = now sh /\
  (currentSlideIndex sh' = currentSlideIndex sh \/
   currentSlideIndex sh' = slideIndex sh /\ currentSlideIndex sh' < len).
Proof.
  intros He Hi Hs. cbv zeta. unfold nextSlide.
  destruct (len <=? slideIndex sh) eqn:Hle.
  - apply Z.leb_le in Hle.
    split; [split; [lia | lia | left; assumption]|].
    split; [reflexivity|]. split; [reflexivity|]. left. reflexivity.
  - apply Z.leb_gt in Hle. cbn. rewrite He, insert_empty.
    split; [split; cbn; [lia | lia |
              right; eexists _, _; repeat split; reflexivity]|].
    split; [reflexivity|]. split; [reflexivity|].
    right. cbn. split; [reflexivity | lia].
Qed.

Lemma startSlideShow_invariant sh :
  pending (timers sh) = ∅ -> currentSlideIndex sh = 0 ->
  invariant generatedSlides (startSlideShow generatedSlides sh) /\
  currentSlideIndex (startSlideShow generatedSlides sh) = 0 /\
  now (startSlideShow generatedSlides sh) = now sh /\
  advances (startSlideShow generatedSlides sh) = advances sh.
Proof.
  intros He Hc. pose proof capture_length_positive as Hlen.
  unfold startSlideShow.
  match goal with |- context [nextSlide generatedSlides ?x] => set (sh0 := x) end.
  destruct (nextSlide_invariant sh0) as (N1 & N2 & N3 & N4).
  - exact He.
  - cbn [sh0 currentSlideIndex]. lia.
  - right. cbn [sh0 currentSlideIndex slideIndex]. auto.
  - split; [exact N1|]. split; [|split; [exact N3 | exact N2]].
    unfold nextSlide. destruct (len <=? slideIndex sh0);
      cbn [sh0 currentSlideIndex slideIndex]; [exact Hc | reflexivity].
Qed.

Lemma capture_fire_invariant sh id t :
  invariant generatedSlides sh ->
  pending (timers sh) = {[ id := t ]} ->
  let sh' := fire generatedSlides id t sh in
  invariant generatedSlides sh' /\
  advances sh' = S (advances sh) /\
  captured t = currentSlideIndex sh /\
  (currentSlideIndex sh' = currentSlideIndex sh \/
   currentSlideIndex sh' = currentSlideIndex sh + 1 /\
   currentSlideIndex sh' < len).
Proof.
  intros Hinv Hp. cbv zeta.
  destruct (inv_pending _ _ Hinv) as [H|(id' & t' & H1 & H2 & H3 & H4)].
  { rewrite H in Hp. symmetry in Hp. apply map_non_empty_singleton in Hp. tauto. }
  assert (Heq : t' = t).
  { assert (Hl : ({[ id' := t' ]} : gmap nat timer) !! id = Some t)
      by (rewrite <- H1, Hp; apply lookup_singleton_eq).
    apply lookup_singleton_Some in Hl. tauto. }
  subst t'. unfold fire.
  match goal with |- context [nextSlide generatedSlides ?x] => set (sh0 := x) end.
  destruct (nextSlide_invariant sh0) as (N1 & N2 & N3 & N4).
  - cbn. rewrite Hp. apply delete_singleton_eq.
  - apply Hinv.
  - left. cbn. lia.
  - split; [exact N1|]. rewrite N2. split; [reflexivity|]. split; [exact H4|].
    destruct N4 as [N4|[N4 N5]]; [left; exact N4|].
    right. split; [rewrite N4; cbn; lia | exact N5].
Qed.

Lemma capture_arrive_invariant target sh :
  invariant generatedSlides sh -> invariant generatedSlides (arrive target sh).
Proof. intros [H1 H2 H3]. split; assumption. Qed.

Lemma capture_earliest sh id t :
  invariant generatedSlides sh -> earliest (timers sh) = Some (id, t) ->
  pending (timers sh) = {[ id := t ]}.
Proof.
  intros Hinv He.
  destruct (inv_pending _ _ Hinv) as [H|(id' & t' & H1 & _)].
  - rewrite (earliest_empty _ H) in He. discriminate.
  - rewrite (earliest_singleton _ _ _ H1) in He. congruence.
Qed.

Lemma capture_run_due_invariant fuel target sh :
  invariant generatedSlides sh ->
  invariant generatedSlides
    (run_due timers (fire generatedSlides) arrive fuel target sh).
Proof.
  revert sh. induction fuel as [|fuel IH]; intros sh Hinv; cbn [run_due].
  - exact Hinv.
  - destruct (earliest (timers sh)) as [[id t]|] eqn:He.
    + destruct (due t <=? target).
      * apply IH, capture_fire_invariant; [exact Hinv|].
        apply capture_earliest; assumption.
      * apply capture_arrive_invariant, Hinv.
    + apply capture_arrive_invariant, Hinv.
Qed.

Lemma capture_run_due_idle fuel target sh :
  pending (timers sh) = ∅ ->
  run_due timers (fire generatedSlides) arrive (S fuel) target sh
  = arrive target sh.
Proof. intros He. cbn [run_due]. rewrite (earliest_empty _ He). reflexivity. Qed.

(** The fuel of [elapse] is enough: each firing moves [slideIndex] on. *)
Lemma capture_run_due_arrives fuel target sh :
  invariant generatedSlides sh ->
  (Z.to_nat (len - slideIndex sh) < fuel)%nat ->
  now (run_due timers (fire generatedSlides) arrive fuel target sh) = target.
Proof.
  revert sh. induction fuel as [|fuel IH]; intros sh Hinv Hf; [lia|].
  cbn [run_due].
  destruct (earliest (timers sh)) as [[id t]|] eqn:He; [|reflexivity].
  destruct (due t <=? target); [|reflexivity].
  pose proof (capture_earliest sh id t Hinv He) as Hp.
  destruct (capture_fire_invariant sh id t Hinv Hp) as (F1 & F2 & F3 & F4).
  apply IH; [exact F1|].
  destruct (inv_pending _ _ Hinv) as [H|(id' & t' & H1 & H2 & H3 & H4)].
  { rewrite H in Hp. symmetry in Hp. apply map_non_empty_singleton in Hp. tauto. }
  destruct (inv_index _ _ Hinv) as [I1 I2].
  assert (Hs : slideIndex (fire generatedSlides id t sh) = slideIndex sh + 1).
  { unfold fire, nextSlide. cbn [slideIndex].
    destruct (len <=? slideIndex sh + 1); reflexivity. }
  rewrite Hs. lia.
Qed.

Lemma cancel_advance_pending sh :
  invariant generatedSlides sh ->
  pending (timers (cancel_advance sh)) = ∅ /\
  currentSlideIndex (cancel_advance sh) = currentSlideIndex sh /\
  advances (cancel_advance sh) = advances sh /\
  invariant generatedSlides (cancel_advance sh).
Proof.
  intros Hinv. unfold cancel_advance.
  assert (He : pending (timers (match slideTimeoutId sh with
                | Some id =>
                    {| currentSlideIndex := currentSlideIndex sh;
                       slideIndex := slideIndex sh;
                       slideTimeoutId := slideTimeoutId sh;
                       timers := clearTimeout id (timers sh);
                       now := now sh; advances := advances sh |}
                | None => sh end)) = ∅).
  { destruct (inv_pending _ _ Hinv) as [H|(id & t & H1 & H2 & _)].
    - destruct (slideTimeoutId sh); cbn; rewrite ?H; [apply delete_empty | reflexivity].
    - rewrite H2. cbn. rewrite H1. apply delete_singleton_eq. }
  split; [exact He|].
  destruct Hinv as [I1 I2 I3].
  destruct (slideTimeoutId sh) eqn:E;
    (split; [reflexivity|]; split; [reflexivity|];
     split; [exact I1 | exact I2 | left; exact He]).
Qed.

End CaptureProofs.

Section CaptureStates.
Import Timers Capture.
Variable generatedSlides : list Duration.jsstring.

Lemma made_fields cs : forall s,
  isDownloading (made cs s) = isDownloading s /\
  error (made cs s) = error s /\
  messages (made cs s) = messages s /\
  show (made cs s) = show s /\
  downloads (made cs s) = downloads s /\
  stage (made cs s) = stage s /\
  attempted (made cs s) = rev cs ++ attempted s /\
  res (made cs s) = foldl (fun r c => acquire c r) (res s) cs.
Proof.
  induction cs as [|c cs IH]; intros s; [repeat split|].
  unfold made in *. cbn [foldl].
  destruct (IH (with_res (acquire c (res s)) (log_call c s)))
    as (H1 & H2 & H3 & H4 & H5 & H6 & H7 & H8).
  rewrite H1, H2, H3, H4, H5, H6, H7, H8. cbn.
  rewrite <- app_assoc. repeat split.
Qed.

(** The outcome of the calls made up to the start of the audio. *)
Lemma start_audio_result o s :
  start_audio o s =
  match first_failure o audio_order with
  | Some (c, e) => (log_call c (made (calls_before c audio_order) s), inl e)
  | None => (made audio_order s, inr tt)
  end.
Proof.
  unfold start_audio, bind, attempt, first_failure, audio_order.
  destruct (o GetContext); [reflexivity|].
  destruct (o CaptureStream); [reflexivity|].
  destruct (o NewAudioContext); [reflexivity|].
  destruct (o FetchAudio); [reflexivity|].
  destruct (o ReadArrayBuffer); [reflexivity|].
  destruct (o DecodeAudioData); [reflexivity|].
  destruct (o CreateAudioNodes); [reflexivity|].
  destruct (o NewMediaStream); [reflexivity|].
  destruct (o NewMediaRecorder); [reflexivity|].
  destruct (o RecorderStart); [reflexivity|].
  destruct (o AudioStart); reflexivity.
Qed.

Lemma first_failure_elem o cs c e :
  first_failure o cs = Some (c, e) -> c ∈ cs /\ o c = Some e.
Proof.
  induction cs as [|c' cs IH]; cbn; [discriminate|].
  destruct (o c') eqn:Ho.
  - intros [= <- <-]. split; [apply elem_of_cons; left; reflexivity | exact Ho].
  - intros H. destruct (IH H).
    split; [apply elem_of_cons; right|]; assumption.
Qed.

Lemma first_failure_app o cs1 cs2 :
  first_failure o (cs1 ++ cs2) =
  match first_failure o cs1 with
  | Some x => Some x
  | None => first_failure o cs2
  end.
Proof.
  induction cs1 as [|c cs1 IH]; cbn; [reflexivity|].
  destruct (o c); [reflexivity | exact IH].
Qed.

(** A failure of [c] among all the calls is a failure of [c] among those
    up to the start of the audio, or of the image loading after these
    have succeeded. *)
Lemma first_failure_program o c e :
  first_failure o program_order = Some (c, e) ->
  first_failure o audio_order = Some (c, e) /\
  calls_before c program_order = calls_before c audio_order
  \/ first_failure o audio_order = None /\ c = LoadImages /\
     o LoadImages = Some e /\ calls_before c program_order = audio_order.
Proof.
  unfold program_order. rewrite first_failure_app.
  destruct (first_failure o audio_order) as [[c' e']|] eqn:Hf.
  - intros [= <- <-]. left. split; [reflexivity|].
    apply first_failure_elem in Hf as [Hin _]. unfold audio_order in Hin.
    repeat (apply elem_of_cons in Hin as [->|Hin]; [reflexivity|]).
    apply elem_of_nil in Hin. destruct Hin.
  - cbn [first_failure]. destruct (o LoadImages) as [e'|] eqn:Ho;
      [|discriminate].
    intros [= <- <-]. right. repeat split; try reflexivity; exact Ho.
Qed.

Lemma first_failure_none_program o :
  first_failure o program_order = None ->
  first_failure o audio_order = None /\ o LoadImages = None.
Proof.
  unfold program_order. rewrite first_failure_app.
  destruct (first_failure o audio_order) as [[c' e']|]; [discriminate|].
  cbn [first_failure]. destruct (o LoadImages); [discriminate|]. auto.
Qed.

Lemma context_check_other o c :
  c <> GetContext -> context_check o c = o c.
Proof. unfold context_check. destruct c; try reflexivity. congruence. Qed.

Hypothesis slides_nonempty : generatedSlides <> [].

(** A failure before the audio starts: the state [handleDownload]
    leaves. *)
Lemma handleDownload_failure o c e :
  first_failure (context_check o) audio_order = Some (c, e) ->
  handleDownload generatedSlides o true idle =
  {| isDownloading := false; error := Some (message_of e);
     messages := [message_of e];
     res := held_after (calls_before c audio_order);
     show := initial_show;
     attempted := c :: rev (calls_before c audio_order);
     stop_calls := 0; downloads := 0; stage := Finished |}.
Proof.
  intros Hff. unfold handleDownload.
  rewrite bool_decide_eq_false_2 by exact slides_nonempty. cbn [orb negb].
  rewrite start_audio_result, Hff. apply first_failure_elem in Hff as [Hin _].
  unfold audio_order in Hin.
  repeat (apply elem_of_cons in Hin as [->|Hin]; [reflexivity|]).
  apply elem_of_nil in Hin. destruct Hin.
Qed.

(** No failure before the audio starts: [handleDownload] waits for the
    images. *)
Lemma handleDownload_loading o :
  first_failure (context_check o) audio_order = None ->
  handleDownload generatedSlides o true idle = loading 0 false.
Proof.
  intros Hff. unfold handleDownload.
  rewrite bool_decide_eq_false_2 by exact slides_nonempty. cbn [orb negb].
  rewrite start_audio_result, Hff. reflexivity.
Qed.

(** While the images are awaited the clock runs and an end of the audio
    goes unheard. *)
Lemma loading_elapse t over dt :
  elapse generatedSlides dt (loading t over) = loading (t + Z.max 0 dt) over.
Proof. destruct over; reflexivity. Qed.

Lemma loading_onended o t over : onended o (loading t over) = loading t true.
Proof. destruct over; reflexivity. Qed.

Lemma loading_elapses o dts : forall t over,
  foldl (step generatedSlides o) (loading t over) (Elapse <$> dts)
  = loading (t + Schedule.elapsed dts) over.
Proof.
  induction dts as [|dt dts IH]; intros t over; cbn [fmap list_fmap foldl].
  - unfold Schedule.elapsed. cbn. rewrite Z.add_0_r. reflexivity.
  - cbn [step]. rewrite loading_elapse, IH. f_equal.
    unfold Schedule.elapsed. cbn [fmap list_fmap foldr]. lia.
Qed.

(** The images settle. *)
Lemma loading_images_failed o e t over :
  o LoadImages = Some e ->
  images_settled generatedSlides o (loading t over) = images_failed e t.
Proof.
  intros Ho. unfold images_settled, start_show, bind, attempt, catch_finally.
  destruct over; cbn [stage loading];
    rewrite (context_check_other o LoadImages) by discriminate;
    rewrite Ho; reflexivity.
Qed.

Lemma loading_images_loaded o t over :
  o LoadImages = None ->
  images_settled generatedSlides o (loading t over)
  = started generatedSlides t over.
Proof.
  intros Ho. unfold images_settled, start_show, bind, attempt, modify,
    catch_finally.
  destruct over; cbn [stage loading];
    rewrite (context_check_other o LoadImages) by discriminate;
    rewrite Ho; reflexivity.
Qed.

(** While the clock runs only the slide show changes. *)
Lemma elapses_show o dts : forall s,
  invariant generatedSlides (show s) ->
  exists sh, foldl (step generatedSlides o) s (Elapse <$> dts) = with_show sh s /\
             invariant generatedSlides sh.
Proof.
  induction dts as [|dt dts IH]; intros s Hinv; cbn [fmap list_fmap foldl].
  - exists (show s). split; [destruct s; reflexivity | exact Hinv].
  - cbn [step]. unfold elapse at 1.
    match goal with |- context [with_show ?x s] => set (sh1 := x) end.
    assert (H1 : invariant generatedSlides sh1)
      by (apply capture_run_due_invariant; assumption).
    destruct (IH (with_show sh1 s) H1) as (sh & Hsh & Hi).
    exists sh. split; [rewrite Hsh; reflexivity | exact Hi].
Qed.

(** Once the export has finished and no advance is pending, events only
    move the clock. *)
Lemma finished_events o events : forall s,
  stage s = Finished -> pending (timers (show s)) = ∅ ->
  exists t, foldl (step generatedSlides o) s events
            = with_show (arrive t (show s)) s.
Proof.
  induction events as [|e events IH]; intros s Hs Hp; cbn [foldl].
  - exists (now (show s)). destruct s as [? ? ? ? [] ? ? ? ?]. reflexivity.
  - assert (H1 : exists t, step generatedSlides o s e
                           = with_show (arrive t (show s)) s).
    { destruct e as [|dt|]; cbn [step].
      - unfold onended. rewrite Hs. exists (now (show s)).
        destruct s as [? ? ? ? [] ? ? ? ?]. reflexivity.
      - unfold elapse. rewrite capture_run_due_idle by exact Hp.
        eexists. reflexivity.
      - unfold images_settled. rewrite Hs. exists (now (show s)).
        destruct s as [? ? ? ? [] ? ? ? ?]. reflexivity. }
    destruct H1 as [t1 H1]. rewrite H1.
    destruct (IH (with_show (arrive t1 (show s)) s) Hs Hp) as [t Ht].
    exists t. rewrite Ht. reflexivity.
Qed.

End CaptureStates.

(* ===================================================================== *)
(** * The scheduler and the controller: statements *)
(* ===================================================================== *)

Section SchedulerTheorems.
Import Timers.

Lemma viewer_lookup_pending slides s id t :
  Viewer.invariant slides s ->
  pending (Viewer.timers s) !! id = Some t ->
  pending (Viewer.timers s) = {[ id := t ]} /\
  captured t = Viewer.currentSlideIndex s /\
  Viewer.isPlaying s = true /\ Viewer.slideTimeoutRef s = Some id.
Proof.
  intros Hinv Hl.
  destruct (Viewer.inv_pending _ _ Hinv)
    as [H|(id' & t' & H1 & H2 & H3 & H4 & H5 & H6)].
  - rewrite H, lookup_empty in Hl. discriminate.
  - rewrite H1 in Hl. apply lookup_singleton_Some in Hl as [-> ->]. auto.
Qed.

Lemma capture_lookup_pending slides sh id t :
  Capture.invariant slides sh ->
  pending (Capture.timers sh) !! id = Some t ->
  pending (Capture.timers sh) = {[ id := t ]}.
Proof.
  intros Hinv Hl.
  destruct (Capture.inv_pending _ _ Hinv) as [H|(id' & t' & H1 & _)].
  - rewrite H, lookup_empty in Hl. discriminate.
  - rewrite H1 in Hl. apply lookup_singleton_Some in Hl as [-> ->]. exact H1.
Qed.

(** C3: in the timer-driven scheduler a pending advance is always the one
    scheduled against the current slide index while playing; pausing and
    the end of the audio cancel it, so that after a pause no scheduled
    advance fires and the index stays where it was however long the clock
    runs.  (A state update and the effects it triggers count as one
    step.) *)
Theorem C3_stale_advance_cancelled (slides : list Duration.jsstring)
        (events : list Viewer.event) :
  slides <> [] ->
  let s := Viewer.run slides events in
  (forall id t, pending (Viewer.timers s) !! id = Some t ->
     captured t = Viewer.currentSlideIndex s /\
     Viewer.isPlaying s = true /\ Viewer.slideTimeoutRef s = Some id) /\
  pending (Viewer.timers (Viewer.onEnded slides s)) = ∅ /\
  (Viewer.isPlaying s = true ->
   let p := Viewer.handlePlayPause slides s in
   pending (Viewer.timers p) = ∅ /\
   Viewer.currentSlideIndex p = Viewer.currentSlideIndex s /\
   forall dt,
     let s' := Viewer.elapse slides dt p in
     Viewer.currentSlideIndex s' = Viewer.currentSlideIndex s /\
     Viewer.advances s' = Viewer.advances s /\
     Viewer.now s' = Viewer.now s + Z.max 0 dt /\
     pending (Viewer.timers s') = ∅).
Proof.
  intros Hne s. pose proof (run_invariant slides Hne events) as Hinv. fold s in Hinv.
  split; [|split].
  - intros id t Hl. apply (viewer_lookup_pending slides s id t Hinv Hl).
  - apply (onEnded_invariant slides Hne s Hinv).
  - intros Hp p.
    destruct (handlePlayPause_invariant slides Hne s Hinv) as (H1 & H2 & H3 & H4).
    destruct (H4 Hp) as [H5 H6]. fold p in H1, H2, H3, H5, H6.
    split; [exact H5|]. split; [exact H6|]. intros dt s'. unfold s'.
    rewrite (elapse_idle slides dt p H5). cbn. rewrite H6, H2, H3.
    repeat split. exact H5.
Qed.

Lemma C3_stale_advance_cancelled_witness :
  let s := Viewer.run Duration.five_slides
             [Viewer.PlayPause; Viewer.Elapse 25000] in
  Viewer.currentSlideIndex s = 2 /\ Viewer.isPlaying s = true /\
  let s' := Viewer.elapse Duration.five_slides 100000
              (Viewer.handlePlayPause Duration.five_slides s) in
  Viewer.currentSlideIndex s' = 2 /\ Viewer.advances s' = 2%nat /\
  Viewer.now s' = 125000.
Proof.
  assert (Hne : Duration.five_slides <> []) by discriminate.
  assert (Hp : Viewer.isPlaying (Viewer.run Duration.five_slides
             [Viewer.PlayPause; Viewer.Elapse 25000]) = true) by (vm_compute; reflexivity).
  pose proof (proj2 (proj2 (C3_stale_advance_cancelled Duration.five_slides
                [Viewer.PlayPause; Viewer.Elapse 25000] Hne)) Hp) as H.
  cbv zeta in H. destruct H as (_ & _ & H). specialize (H 100000).
  destruct H as (H1 & H2 & H3 & _).
  cbv zeta. split; [vm_compute; reflexivity|]. split; [exact Hp|].
  split; [rewrite H1; vm_compute; reflexivity|].
  split; [rewrite H2; vm_compute; reflexivity|].
  rewrite H3. vm_compute. reflexivity.
Defined.

Lemma capture_step_wellformed slides o s e :
  slides <> [] ->
  Capture.wellformed slides s ->
  Capture.wellformed slides (Capture.step slides o s e).
Proof.
  intros Hne [Hinv Hload]. destruct e as [|dt|]; cbn [Capture.step].
  - unfold Capture.onended. destruct (Capture.stage s) eqn:Hst;
      try (split; [exact Hinv | rewrite Hst; exact Hload]).
    + split; [exact Hinv|]. intros _. apply Hload. left. reflexivity.
    + unfold Capture.resume, Capture.onended_handler, Capture.attempt,
        Capture.catch_finally.
      destruct (o Capture.RecorderStop); split;
        cbn [Capture.show Capture.stage Capture.with_stage
             Capture.setIsDownloading Capture.setError Capture.download
             Capture.with_res Capture.log_call Capture.with_show];
        try apply (cancel_advance_pending slides (Capture.show s) Hinv);
        intros [H|H]; discriminate H.
  - unfold Capture.elapse. split; cbn [Capture.show Capture.with_show
      Capture.stage].
    + apply capture_run_due_invariant; assumption.
    + intros Hst. destruct (Hload Hst) as [Hp Hc].
      rewrite capture_run_due_idle by exact Hp.
      cbn [Capture.arrive Capture.timers Capture.currentSlideIndex]. auto.
  - unfold Capture.images_settled.
    destruct (Capture.stage s) eqn:Hst;
      try (split; [exact Hinv | rewrite Hst; exact Hload]).
    all: destruct (Hload ltac:(auto)) as [Hp Hc].
    all: unfold Capture.start_show, Capture.bind, Capture.attempt,
           Capture.modify, Capture.catch_finally.
    all: destruct (Capture.context_check o Capture.LoadImages); split;
           cbn [Capture.show Capture.stage Capture.with_stage
                Capture.setIsDownloading Capture.setError
                Capture.with_res Capture.log_call Capture.with_show];
           try exact Hinv;
           try (intros [H|H]; discriminate H);
           apply (startSlideShow_invariant slides Hne); assumption.
Qed.

Lemma capture_start_wellformed slides o :
  slides <> [] ->
  Capture.wellformed slides
    (Capture.handleDownload slides o true Capture.idle) /\
  Capture.currentSlideIndex
    (Capture.show (Capture.handleDownload slides o true Capture.idle)) = 0.
Proof.
  intros Hne.
  destruct (Capture.first_failure (Capture.context_check o)
              Capture.audio_order) as [[c e]|] eqn:Hff.
  - rewrite (handleDownload_failure slides Hne o c e Hff).
    split; [|reflexivity].
    split; cbn [Capture.show Capture.stage];
      [apply initial_show_invariant, Hne | intros [H|H]; discriminate H].
  - rewrite (handleDownload_loading slides Hne o Hff).
    split; [|reflexivity].
    split; cbn [Capture.show Capture.loading];
      [apply capture_arrive_invariant, initial_show_invariant, Hne|].
    intros _. split; reflexivity.
Qed.

Lemma capture_run_wellformed slides o events :
  slides <> [] ->
  Capture.wellformed slides (Capture.run slides o events).
Proof.
  intros Hne. unfold Capture.run.
  generalize (proj1 (capture_start_wellformed slides o Hne)).
  generalize (Capture.handleDownload slides o true Capture.idle).
  induction events as [|e events IH]; intros s Hinv; cbn [foldl].
  - exact Hinv.
  - apply IH, capture_step_wellformed; assumption.
Qed.

Lemma capture_run_invariant slides o events :
  slides <> [] ->
  Capture.invariant slides (Capture.show (Capture.run slides o events)).
Proof. intros Hne. apply capture_run_wellformed, Hne. Qed.

(** C9: over a non-empty slide sequence the current slide index of a
    playback session and of an export session starts at 0 and stays in
    [0, slideCount): a scheduled advance of the viewer moves it up by one
    to a value still below slideCount, and a scheduled advance of the
    export does the same or leaves it unchanged. *)
Theorem C9_index_in_range (slides : list Duration.jsstring) :
  slides <> [] ->
  let slideCount := Z.of_nat (length slides) in
  (Viewer.currentSlideIndex Viewer.mount = 0 /\
   forall events,
     let s := Viewer.run slides events in
     0 <= Viewer.currentSlideIndex s < slideCount /\
     forall id t, pending (Viewer.timers s) !! id = Some t ->
       let s' := Viewer.fire slides id t s in
       Viewer.currentSlideIndex s' = Viewer.currentSlideIndex s + 1 /\
       Viewer.currentSlideIndex s' < slideCount) /\
  (forall o,
     Capture.currentSlideIndex
       (Capture.show (Capture.handleDownload slides o true Capture.idle)) = 0 /\
     forall events,
       let sh := Capture.show (Capture.run slides o events) in
       0 <= Capture.currentSlideIndex sh < slideCount /\
       forall id t, pending (Capture.timers sh) !! id = Some t ->
         let sh' := Capture.fire slides id t sh in
         Capture.currentSlideIndex sh' = Capture.currentSlideIndex sh \/
         Capture.currentSlideIndex sh' = Capture.currentSlideIndex sh + 1 /\
         Capture.currentSlideIndex sh' < slideCount).
Proof.
  intros Hne slideCount. split.
  - split; [reflexivity|]. intros events s.
    pose proof (run_invariant slides Hne events) as Hinv. fold s in Hinv.
    split; [apply Hinv|]. intros id t Hl s'.
    destruct (viewer_lookup_pending slides s id t Hinv Hl) as (Hp & _).
    destruct (fire_invariant slides s id t Hinv Hp) as (F1 & F2 & _).
    fold s' in F1, F2. split; [exact F2|]. apply F1.
  - intros o. split; [apply capture_start_wellformed, Hne|].
    intros events sh.
    pose proof (capture_run_invariant slides o events Hne) as Hinv.
    fold sh in Hinv. split; [apply Hinv|]. intros id t Hl sh'.
    pose proof (capture_lookup_pending slides sh id t Hinv Hl) as Hp.
    destruct (capture_fire_invariant slides sh id t Hinv Hp)
      as (_ & _ & _ & F). exact F.
Qed.

Lemma C9_index_in_range_witness :
  let s := Viewer.run Duration.five_slides
             [Viewer.PlayPause; Viewer.Elapse 100000] in
  0 <= Viewer.currentSlideIndex s < 5 /\ Viewer.currentSlideIndex s = 4.
Proof.
  assert (Hne : Duration.five_slides <> []) by discriminate.
  pose proof (proj1 (proj2 (proj1 (C9_index_in_range Duration.five_slides Hne))
                [Viewer.PlayPause; Viewer.Elapse 100000])) as H.
  cbv zeta. split; [exact H | vm_compute; reflexivity].
Defined.

(** The states of an export whose calls succeed. *)
Lemma run_loading slides o pre :
  slides <> [] ->
  Capture.first_failure (Capture.context_check o) Capture.audio_order = None ->
  Capture.run slides o (Capture.Elapse <$> pre)
  = Capture.loading (Schedule.elapsed pre) false.
Proof.
  intros Hne Hff. unfold Capture.run.
  rewrite (handleDownload_loading slides Hne o Hff), loading_elapses.
  reflexivity.
Qed.

Lemma run_started slides o pre :
  slides <> [] ->
  Capture.first_failure (Capture.context_check o) Capture.program_order
    = None ->
  Capture.run slides o ((Capture.Elapse <$> pre) ++ [Capture.ImagesSettled])
  = Capture.started slides (Schedule.elapsed pre) false.
Proof.
  intros Hne Hff. apply first_failure_none_program in Hff as [Hff Himg].
  rewrite context_check_other in Himg by discriminate.
  unfold Capture.run. rewrite foldl_app.
  fold (Capture.run slides o (Capture.Elapse <$> pre)).
  rewrite (run_loading slides o pre Hne Hff). cbn [foldl Capture.step].
  apply loading_images_loaded, Himg.
Qed.

Lemma started_invariant slides t over :
  slides <> [] ->
  Capture.invariant slides (Capture.show (Capture.started slides t over)).
Proof.
  intros Hne. cbn [Capture.show Capture.started].
  apply (startSlideShow_invariant slides Hne); reflexivity.
Qed.

(** Once the audio has ended unheard, nothing stops the recorder. *)
Lemma stranded_step slides o s e :
  o Capture.LoadImages = None ->
  Capture.stop_calls s = 0%nat /\ Capture.downloads s = 0%nat /\
  Capture.isDownloading s = true /\
  (Capture.stage s = Capture.LoadingOver \/
   Capture.stage s = Capture.Stranded) ->
  let s' := Capture.step slides o s e in
  (Capture.stop_calls s' = 0%nat /\ Capture.downloads s' = 0%nat /\
   Capture.isDownloading s' = true /\
   (Capture.stage s' = Capture.LoadingOver \/
    Capture.stage s' = Capture.Stranded)) /\
  (Capture.stage s = Capture.Stranded \/ e = Capture.ImagesSettled ->
   Capture.stage s' = Capture.Stranded).
Proof.
  intros Himg (H1 & H2 & H3 & H4). cbv zeta.
  destruct e as [|dt|]; cbn [Capture.step].
  - unfold Capture.onended.
    destruct H4 as [H4|H4]; rewrite H4; repeat split; auto.
    all: intros [H|H]; [congruence | discriminate H].
  - unfold Capture.elapse.
    cbn [Capture.stop_calls Capture.downloads Capture.isDownloading
         Capture.stage Capture.with_show].
    repeat split; auto. intros [H|H]; [exact H | discriminate H].
  - unfold Capture.images_settled.
    destruct H4 as [H4|H4]; rewrite H4.
    + unfold Capture.start_show, Capture.bind, Capture.attempt,
        Capture.modify, Capture.catch_finally.
      rewrite context_check_other by discriminate. rewrite Himg.
      cbn [Capture.stop_calls Capture.downloads Capture.isDownloading
           Capture.stage Capture.with_show Capture.with_stage
           Capture.with_res Capture.log_call].
      repeat split; auto.
    + repeat split; auto.
Qed.

Lemma stranded_events slides o events : forall s,
  o Capture.LoadImages = None ->
  Capture.stop_calls s = 0%nat /\ Capture.downloads s = 0%nat /\
  Capture.isDownloading s = true /\
  (Capture.stage s = Capture.LoadingOver \/
   Capture.stage s = Capture.Stranded) ->
  let s' := foldl (Capture.step slides o) s events in
  (Capture.stop_calls s' = 0%nat /\ Capture.downloads s' = 0%nat /\
   Capture.isDownloading s' = true /\
   (Capture.stage s' = Capture.LoadingOver \/
    Capture.stage s' = Capture.Stranded)) /\
  (Capture.stage s = Capture.Stranded \/ Capture.ImagesSettled ∈ events ->
   Capture.stage s' = Capture.Stranded).
Proof.
  induction events as [|e events IH]; intros s Himg HJ; cbn [foldl]; cbv zeta.
  - split; [exact HJ|]. intros [H|H]; [exact H|].
    apply elem_of_nil in H. destruct H.
  - destruct (stranded_step slides o s e Himg HJ) as [HJ' Hst].
    destruct (IH _ Himg HJ') as [HJ'' Hst'']. split; [exact HJ''|].
    intros [H|H]; apply Hst''.
    + left. apply Hst. left. exact H.
    + apply elem_of_cons in H as [Heq|H];
        [left; apply Hst; right; symmetry; exact Heq|].
      right. exact H.
Qed.

(** C4: the claim fails on the code.  In an export whose calls all
    succeed, when the audio ends while the images are still awaited (line
    176), the handler of line 232 is not installed yet and the event is
    lost: whatever happens afterwards, [recorder.stop()] is never called,
    no file is produced and the downloading flag stays set; once the
    images have loaded the export waits for ever and the slide show runs
    to its end. *)
Theorem C4_end_during_loading_lost (slides : list Duration.jsstring)
        (o : Capture.oracle) (pre : list Z) (events : list Capture.event) :
  slides <> [] ->
  Capture.first_failure (Capture.context_check o) Capture.program_order
    = None ->
  let s := Capture.run slides o
             ((Capture.Elapse <$> pre) ++ Capture.AudioEnded :: events) in
  Capture.stop_calls s = 0%nat /\ Capture.downloads s = 0%nat /\
  Capture.isDownloading s = true /\
  Capture.stage s <> Capture.Finished /\
  (Capture.ImagesSettled ∈ events -> Capture.stage s = Capture.Stranded).
Proof.
  intros Hne Hff. cbv zeta.
  apply first_failure_none_program in Hff as [Hff Himg].
  rewrite context_check_other in Himg by discriminate.
  unfold Capture.run. rewrite foldl_app.
  fold (Capture.run slides o (Capture.Elapse <$> pre)).
  rewrite (run_loading slides o pre Hne Hff). cbn [foldl Capture.step].
  rewrite loading_onended.
  destruct (stranded_events slides o events
              (Capture.loading (Schedule.elapsed pre) true) Himg)
    as [(J1 & J2 & J3 & J4) Hst].
  { repeat split. left. reflexivity. }
  cbv zeta in *. split; [exact J1|]. split; [exact J2|]. split; [exact J3|].
  split.
  - destruct J4 as [J4|J4]; rewrite J4; discriminate.
  - intros Hin. apply Hst. right. exact Hin.
Qed.

Lemma C4_end_during_loading_lost_witness :
  let s := Capture.run Duration.five_slides Capture.all_succeed
             [Capture.Elapse 10; Capture.AudioEnded; Capture.ImagesSettled;
              Capture.Elapse 100000] in
  Capture.stop_calls s = 0%nat /\ Capture.downloads s = 0%nat /\
  Capture.isDownloading s = true /\ Capture.stage s = Capture.Stranded /\
  Capture.advances (Capture.show s) = 5%nat.
Proof.
  destruct (C4_end_during_loading_lost Duration.five_slides
              Capture.all_succeed [10]
              [Capture.ImagesSettled; Capture.Elapse 100000]
              ltac:(discriminate) eq_refl) as (H1 & H2 & H3 & _ & H4).
  cbv zeta. split; [exact H1|]. split; [exact H2|]. split; [exact H3|].
  split; [apply H4, elem_of_cons; left; reflexivity|].
  vm_compute. reflexivity.
Defined.

(** While the images are awaited and their loading is going to fail, the
    export ends in the state the failure leaves, whatever came before. *)
Lemma loading_fails slides o e events : forall t over,
  o Capture.LoadImages = Some e ->
  Capture.ImagesSettled ∈ events ->
  exists t1 t2,
    foldl (Capture.step slides o) (Capture.loading t over) events
    = Capture.with_show (Capture.arrive t2 Capture.initial_show)
        (Capture.images_failed e t1).
Proof.
  induction events as [|ev events IH]; intros t over Ho Hin.
  - apply elem_of_nil in Hin. destruct Hin.
  - cbn [foldl]. destruct ev as [|dt|]; cbn [Capture.step].
    + rewrite loading_onended. apply IH; [exact Ho|].
      apply elem_of_cons in Hin as [Hin|Hin]; [discriminate Hin | exact Hin].
    + rewrite loading_elapse. apply IH; [exact Ho|].
      apply elem_of_cons in Hin as [Hin|Hin]; [discriminate Hin | exact Hin].
    + rewrite (loading_images_failed slides o e t over Ho).
      destruct (finished_events slides o events
                  (Capture.images_failed e t) eq_refl eq_refl) as [t2 Ht].
      exists t, t2. exact Ht.
Qed.

(** C8 (as amended): an exception thrown during export is caught at the
    top of [handleDownload]: the export is abandoned at the failing call
    (no later call is made, none is repeated, no file is produced and
    later events change nothing), exactly one message is stored in the
    error state and the downloading flag is cleared.  The media resources
    acquired before the failure are all still held: the handler releases
    none of them. *)
Theorem C8_failure_aborts (slides : list Duration.jsstring)
        (o : Capture.oracle) :
  slides <> [] ->
  (forall c e events,
     Capture.first_failure (Capture.context_check o) Capture.program_order
       = Some (c, e) ->
     c <> Capture.LoadImages \/ Capture.ImagesSettled ∈ events ->
     let s := Capture.run slides o events in
     Capture.stage s = Capture.Finished /\
     Capture.isDownloading s = false /\
     Capture.error s = Some (Capture.message_of e) /\
     Capture.messages s = [Capture.message_of e] /\
     Capture.downloads s = 0%nat /\ Capture.stop_calls s = 0%nat /\
     Capture.attempted s
       = c :: rev (Capture.calls_before c Capture.program_order) /\
     Capture.res s
       = Capture.held_after (Capture.calls_before c Capture.program_order)) /\
  (forall e pre dts events,
     Capture.first_failure (Capture.context_check o) Capture.program_order
       = None ->
     o Capture.RecorderStop = Some e ->
     let s := foldl (Capture.step slides o)
                (Capture.onended o
                   (Capture.run slides o
                      ((Capture.Elapse <$> pre)
                       ++ Capture.ImagesSettled :: (Capture.Elapse <$> dts))))
                events in
     Capture.stage s = Capture.Finished /\
     Capture.isDownloading s = false /\
     Capture.error s = Some (Capture.message_of e) /\
     Capture.messages s = [Capture.message_of e] /\
     Capture.downloads s = 0%nat /\ Capture.stop_calls s = 1%nat /\
     Capture.res s = Capture.held_after Capture.program_order).
Proof.
  intros Hne. split.
  - intros c e events Hff Hev s. unfold s, Capture.run.
    destruct (first_failure_program _ c e Hff)
      as [[Hfa Hcb]|(Hfa & -> & Himg & Hcb)]; rewrite Hcb.
    + rewrite (handleDownload_failure slides Hne o c e Hfa).
      match goal with
      | |- context [foldl _ ?s0 events] =>
          destruct (finished_events slides o events s0 eq_refl eq_refl)
            as [t Ht]; rewrite Ht
      end.
      repeat split.
    + rewrite context_check_other in Himg by discriminate.
      destruct Hev as [Hev|Hev]; [congruence|].
      rewrite (handleDownload_loading slides Hne o Hfa).
      destruct (loading_fails slides o e events 0 false Himg Hev)
        as (t1 & t2 & Ht).
      rewrite Ht. repeat split.
  - intros e pre dts events Hok Hstop s.
    assert (Hrun :
      Capture.run slides o
        ((Capture.Elapse <$> pre)
         ++ Capture.ImagesSettled :: (Capture.Elapse <$> dts))
      = foldl (Capture.step slides o)
          (Capture.started slides (Schedule.elapsed pre) false)
          (Capture.Elapse <$> dts)).
    { change (Capture.ImagesSettled :: (Capture.Elapse <$> dts))
        with ([Capture.ImagesSettled] ++ (Capture.Elapse <$> dts)).
      rewrite app_assoc. unfold Capture.run at 1. rewrite foldl_app.
      fold (Capture.run slides o
              ((Capture.Elapse <$> pre) ++ [Capture.ImagesSettled])).
      rewrite (run_started slides o pre Hne Hok). reflexivity. }
    destruct (elapses_show slides o dts
                (Capture.started slides (Schedule.elapsed pre) false)
                (started_invariant slides _ _ Hne))
      as (sh & Hsh & Hinv).
    destruct (cancel_advance_pending slides sh Hinv) as (K1 & _).
    assert (Hs2 :
      Capture.onended o
        (Capture.run slides o
           ((Capture.Elapse <$> pre)
            ++ Capture.ImagesSettled :: (Capture.Elapse <$> dts))) =
      {| Capture.isDownloading := false;
         Capture.error := Some (Capture.message_of e);
         Capture.messages := [Capture.message_of e];
         Capture.res := Capture.held_after Capture.program_order;
         Capture.show := Capture.cancel_advance sh;
         Capture.attempted := Capture.RecorderStop :: rev Capture.program_order;
         Capture.stop_calls := 1; Capture.downloads := 0;
         Capture.stage := Capture.Finished |}).
    { rewrite Hrun, Hsh.
      unfold Capture.onended, Capture.resume, Capture.attempt,
        Capture.catch_finally, Capture.onended_handler.
      cbn [Capture.stage Capture.with_show Capture.started].
      cbv zeta. rewrite Hstop. reflexivity. }
    unfold s. rewrite Hs2.
    match goal with
    | |- context [foldl _ ?s0 events] =>
        destruct (finished_events slides o events s0 eq_refl K1) as [t Ht];
        rewrite Ht
    end.
    repeat split.
Qed.

Lemma C8_failure_aborts_witness :
  let s := Capture.run Duration.five_slides
             (Capture.failing Capture.DecodeAudioData
                (Capture.JsError "Unable to decode audio data"))
             [Capture.Elapse 500; Capture.ImagesSettled] in
  Capture.messages s = ["Unable to decode audio data"] /\
  Capture.isDownloading s = false /\ Capture.downloads s = 0%nat /\
  Capture.attempted s
    = [Capture.DecodeAudioData; Capture.ReadArrayBuffer; Capture.FetchAudio;
       Capture.NewAudioContext; Capture.CaptureStream; Capture.GetContext].
Proof.
  assert (Hne : Duration.five_slides <> []) by discriminate.
  assert (Hff : Capture.first_failure
                  (Capture.context_check
                     (Capture.failing Capture.DecodeAudioData
                        (Capture.JsError "Unable to decode audio data")))
                  Capture.program_order
                = Some (Capture.DecodeAudioData,
                        Capture.JsError "Unable to decode audio data"))
    by (vm_compute; reflexivity).
  assert (Hc : Capture.DecodeAudioData <> Capture.LoadImages) by discriminate.
  pose proof (proj1 (C8_failure_aborts Duration.five_slides
                (Capture.failing Capture.DecodeAudioData
                   (Capture.JsError "Unable to decode audio data")) Hne)
                Capture.DecodeAudioData _
                [Capture.Elapse 500; Capture.ImagesSettled] Hff
                (or_introl Hc)) as H.
  cbv zeta in H. destruct H as (_ & H1 & _ & H2 & H3 & _ & H4 & _).
  cbv zeta. split; [exact H2|]. split; [exact H1|]. split; [exact H3 | exact H4].
Defined.

(** C8 as the specification states it fails: when decoding the audio
    fails, the capture stream and the audio context acquired before are
    still held when the error has been stored; when an image fails to
    load, the recorder is left recording; and in both cases the message
    stored is not on screen, the error paragraph being part of the form
    that the slides replace. *)
Lemma C8_resources_still_held :
  (let s := Capture.run Duration.five_slides
              (Capture.failing Capture.DecodeAudioData
                 (Capture.JsError "Unable to decode audio data"))
              [] in
   Capture.messages s = ["Unable to decode audio data"] /\
   Capture.videoStream (Capture.res s) = true /\
   Capture.audioContext (Capture.res s) = true /\
   ~ Capture.released (Capture.res s) /\
   Capture.error s = Some "Unable to decode audio data" /\
   Capture.error_shown Duration.five_slides s = None) /\
  (let s := Capture.run Duration.five_slides
              (Capture.failing Capture.LoadImages Capture.NotAnError)
              [Capture.ImagesSettled] in
   Capture.messages s = ["Failed to generate video."] /\
   Capture.recorder (Capture.res s) = Capture.Recording /\
   ~ Capture.released (Capture.res s) /\
   Capture.error s = Some "Failed to generate video." /\
   Capture.error_shown Duration.five_slides s = None).
Proof.
  split; cbv zeta.
  - repeat split. intros (H & _). discriminate H.
  - repeat split. intros (H & _). discriminate H.
Qed.

End SchedulerTheorems.

(* ===================================================================== *)
(** * Further properties of the encoder *)
(* ===================================================================== *)


Section EncoderReadBack.
Import Binary64 Wav.

Lemma le_value_le_bytes n v :
  le_value (le_bytes n v) = v mod 2 ^ (8 * Z.of_nat n).
Proof.
  revert v. induction n as [|n IH]; intros v.
  - cbn. rewrite Z.mod_1_r. reflexivity.
  - cbn [le_bytes le_value]. rewrite IH.
    replace (8 * Z.of_nat (S n)) with (8 + 8 * Z.of_nat n) by lia.
    rewrite Z.pow_add_r by lia. change (2 ^ 8) with 256.
    rewrite Z.rem_mul_r by (try apply Z.pow_nonzero; lia). reflexivity.
Qed.

Lemma le_value_le_bytes_small n v :
  0 <= v < 2 ^ (8 * Z.of_nat n) -> le_value (le_bytes n v) = v.
Proof. intros H. rewrite le_value_le_bytes. apply Z.mod_small, H. Qed.

(** X1 -- A reader of the file finds every header quantity back: when
    the channel count, the sample rate, the byte rate and the file length
    fit their fields, the fields at the standard offsets hold the file
    length minus 8, the channel count, the sample rate, the byte rate, the
    block alignment, 16 bits per sample and the length of the data. *)
Theorem header_fields_read_back (buffer : AudioBuffer) :
  well_formed buffer ->
  numberOfChannels buffer * 2 < 2 ^ 16 ->
  0 <= sampleRate buffer < 2 ^ 32 ->
  sampleRate buffer * numberOfChannels buffer * 2 < 2 ^ 32 ->
  buffer_length buffer * numberOfChannels buffer * 2 + 36 < 2 ^ 32 ->
  exists out,
    bufferToWav buffer = Some out /\
    field out 4 4 = Z.of_nat (length out) - 8 /\
    field out 16 4 = 16 /\ field out 20 2 = 1 /\
    field out 22 2 = numberOfChannels buffer /\
    field out 24 4 = sampleRate buffer /\
    field out 28 4 = sampleRate buffer * numberOfChannels buffer * 2 /\
    field out 32 2 = numberOfChannels buffer * 2 /\
    field out 34 2 = 16 /\
    field out 40 4 = Z.of_nat (length out) - 44 /\
    field out 40 4 = buffer_length buffer * numberOfChannels buffer * 2.
Proof.
  intros Hwf Hc Hr Hb Hl.
  assert (Hn : 0 <= numberOfChannels buffer) by (unfold numberOfChannels; lia).
  assert (Hf : 0 <= buffer_length buffer) by apply Hwf.
  assert (Hd : 0 <= buffer_length buffer * numberOfChannels buffer * 2) by nia.
  assert (Hlen : Z.of_nat (length (spec_header (buffer_length buffer)
                   (numberOfChannels buffer) (sampleRate buffer)
                   ++ spec_samples buffer))
                 = 44 + buffer_length buffer * numberOfChannels buffer * 2).
  { rewrite length_app, Nat2Z.inj_add, length_spec_header,
      length_spec_samples by exact Hf. lia. }
  eexists. split; [apply bufferToWav_bytes, Hwf|].
  rewrite Hlen. unfold field, spec_header, tag.
  cbn [app drop take le_bytes].
  change (2 ^ 16) with (2 ^ (8 * Z.of_nat 2)) in Hc.
  change (2 ^ 32) with (2 ^ (8 * Z.of_nat 4)) in Hr, Hb, Hl.
  repeat split.
  all: match goal with
       | |- le_value ?l = ?v =>
           change l with (le_bytes 4 v) || change l with (le_bytes 2 v)
           || change l with (le_bytes 4 (44 + buffer_length buffer
                                * numberOfChannels buffer * 2 - 8))
           || change l with (le_bytes 4 (buffer_length buffer
                                * numberOfChannels buffer * 2))
       end.
  all: rewrite le_value_le_bytes_small; try lia; try reflexivity.
  all: cbn; lia.
Qed.

Lemma header_fields_read_back_witness :
  exists out, bufferToWav two_samples = Some out /\
              field out 22 2 = 1 /\ field out 24 4 = 24000 /\
              field out 40 4 = 4.
Proof.
  destruct (header_fields_read_back two_samples two_samples_well_formed)
    as (out & H & _ & _ & _ & H1 & H2 & _ & _ & _ & _ & H3);
    try (vm_compute; try split; congruence).
  exists out. repeat split; assumption.
Defined.

End EncoderReadBack.


Section EncoderSamples.
Import Binary64 Wav.

Lemma drop_flat_map_chunks {A} (g : A -> list Z) (k : nat) (l : list A) i :
  (forall x, length (g x) = k) ->
  drop (i * k) (flat_map g l) = flat_map g (drop i l).
Proof.
  intros Hk. revert l. induction i as [|i IH]; intros l; [reflexivity|].
  destruct l as [|x l]; [cbn; apply drop_nil|].
  cbn [flat_map drop]. rewrite <- IH.
  replace (S i * k)%nat with (length (g x) + i * k)%nat by (rewrite Hk; lia).
  apply drop_app_add.
Qed.

Lemma spec_frame_at channels offset c ch :
  channels !! c = Some ch ->
  take 2 (drop (2 * c) (spec_frame channels offset))
  = le_bytes 2 (spec_sample (default S754_nan (ch !! offset))).
Proof.
  intros Hc. unfold spec_frame.
  rewrite (Nat.mul_comm 2 c), (drop_flat_map_chunks _ 2) by reflexivity.
  apply drop_S in Hc. rewrite Hc. reflexivity.
Qed.

(** X2 -- The samples are interleaved: the 16-bit integer read at byte
    [44 + 2 * (frame * channelCount + channel)] is the converted sample of
    that frame and channel. *)
Theorem sample_read_back (buffer : AudioBuffer) (frame c : nat)
        (ch : list float) (x : float) :
  well_formed buffer ->
  channelData buffer !! c = Some ch ->
  ch !! frame = Some x ->
  exists out,
    bufferToWav buffer = Some out /\
    sample_at out (44 + 2 * (frame * length (channelData buffer) + c))
      = sampleToInt x /\
    - 32768 <= sample_at out (44 + 2 * (frame * length (channelData buffer) + c))
      <= 32767.
Proof.
  intros Hwf Hc Hx.
  destruct Hwf as [Hlen Hch]. pose proof Hch as Hch'.
  rewrite Forall_forall in Hch'.
  destruct (Hch' ch (list_elem_of_lookup_2 _ _ _ Hc)) as [Hl Hv].
  assert (Hvx : valid x).
  { rewrite Forall_forall in Hv. apply Hv. eapply list_elem_of_lookup_2, Hx. }
  assert (Hframe : (frame < Z.to_nat (buffer_length buffer))%nat).
  { apply lookup_lt_Some in Hx. lia. }
  eexists. split; [apply bufferToWav_bytes; split; assumption|].
  assert (Hs : sample_at
                 (spec_header (buffer_length buffer) (numberOfChannels buffer)
                    (sampleRate buffer) ++ spec_samples buffer)
                 (44 + 2 * (frame * length (channelData buffer) + c))
               = sampleToInt x).
  { unfold sample_at.
    rewrite <- (length_spec_header (buffer_length buffer)
                  (numberOfChannels buffer) (sampleRate buffer)) at 1.
    rewrite drop_app_add. unfold spec_samples.
    replace (2 * (frame * length (channelData buffer) + c))%nat
      with (frame * (2 * length (channelData buffer)) + 2 * c)%nat by lia.
    rewrite <- drop_drop.
    rewrite (drop_flat_map_chunks _ (2 * length (channelData buffer)))
      by (intros o; apply length_spec_frame).
    rewrite drop_seq. cbn [Nat.add].
    destruct (Z.to_nat (buffer_length buffer) - frame)%nat as [|n] eqn:Hn;
      [lia|].
    cbn [seq flat_map].
    rewrite drop_app_le
      by (rewrite length_spec_frame; apply lookup_lt_Some in Hc; lia).
    rewrite take_app_le.
    2:{ rewrite length_drop, length_spec_frame.
        apply lookup_lt_Some in Hc. lia. }
    rewrite (spec_frame_at _ _ _ _ Hc), Hx. cbn [default].
    rewrite <- sampleToInt_spec by exact Hvx.
    apply le_signed_int16, sampleToInt_range, Hvx. }
  rewrite Hs. split; [reflexivity | apply sampleToInt_range, Hvx].
Qed.

Lemma sample_read_back_witness :
  exists out, bufferToWav two_samples = Some out /\ sample_at out 44 = 32767.
Proof.
  destruct (sample_read_back two_samples 0 0 [one; zero] one
              two_samples_well_formed eq_refl eq_refl) as (out & H1 & H2 & _).
  exists out. split; [exact H1 | exact H2].
Defined.

End EncoderSamples.


Section SamplePolarity.
Import Binary64 Wav.

Lemma clamp_negative x : negative (clamp x) = negative x.
Proof.
  destruct x as [[|]|[|]| |s m e]; try reflexivity.
  unfold clamp, Math_min, one.
  destruct (SFltb (S754_finite s m e) _) eqn:Hlt1.
  - unfold Math_max, minus_one.
    destruct (SFltb _ (S754_finite s m e)) eqn:Hlt2; [reflexivity|].
    unfold SFltb in Hlt2. rewrite SFcompare_finite in Hlt2.
    destruct s; [reflexivity | discriminate Hlt2].
  - unfold SFltb in Hlt1. rewrite SFcompare_finite in Hlt1.
    destruct s; [discriminate Hlt1 | reflexivity].
Qed.

Lemma scale_polarity c :
  unit_range c ->
  if negative c then - 32768 <= truncate (scale c) <= 0
  else 0 <= truncate (scale c) <= 32767.
Proof.
  intros Hu.
  destruct c as [[|]|s| |s m e];
    [vm_compute; split; congruence | vm_compute; split; congruence
    | destruct Hu | vm_compute; split; congruence | ].
  destruct Hu as [He Hm].
  assert (HP : 0 < 2 ^ (- e)) by (apply Z.pow_pos_nonneg; lia).
  cbn [negative]. unfold scale. destruct (ltb _ zero) eqn:Hlt.
  - destruct s; [|rewrite add_half_positive in Hlt; discriminate].
    unfold mul, SFmul, k32768. cbn [xorb].
    destruct (binary_round_aux_truncate true
                (Z.pos (m * 4503599627370496)) (e + -37) 32768)
      as (t & Ht & Hr); try lia.
    { rewrite Pos2Z.inj_mul.
      replace (- (e + -37)) with (37 + - e) by lia.
      rewrite Z.pow_add_r by lia. change (2 ^ 37) with 137438953472. nia. }
    rewrite Ht. cbn [cond_Zopp]. lia.
  - unfold mul, SFmul, k32767.
    destruct (binary_round_aux_truncate (xorb s false)
                (Z.pos (m * 9006924376834048)) (e + -38) 32767)
      as (t & Ht & Hr); try lia.
    { rewrite Pos2Z.inj_mul.
      replace (- (e + -38)) with (38 + - e) by lia.
      rewrite Z.pow_add_r by lia. change (2 ^ 38) with 274877906944. nia. }
    rewrite Ht. destruct s; cbn [xorb cond_Zopp]; lia.
Qed.

(** X4 -- Polarity is kept: a sample whose sign bit is clear (NaN
    included) is stored as an integer in [0, 32767], a sample whose sign
    bit is set as an integer in [-32768, 0]. *)
Theorem sample_polarity (x : float) :
  valid x ->
  if negative x then - 32768 <= sampleToInt x <= 0
  else 0 <= sampleToInt x <= 32767.
Proof.
  intros Hv. rewrite sampleToInt_truncate by assumption.
  rewrite <- clamp_negative. apply scale_polarity, clamp_unit_range, Hv.
Qed.

Lemma sample_polarity_witness : - 32768 <= sampleToInt minus_one <= 0.
Proof. exact (sample_polarity minus_one eq_refl). Defined.

End SamplePolarity.

(* ===================================================================== *)
(** * The schedule of the slides in the viewer and in the export *)
(* ===================================================================== *)


Section ScheduleFacts.
Import Schedule.

Lemma starts_0 ds : starts ds 0 = 0.
Proof. reflexivity. Qed.

Lemma starts_S ds i d :
  ds !! i = Some d -> starts ds (S i) = starts ds i + d.
Proof.
  unfold starts. revert i. induction ds as [|x ds IH]; intros [|i] Hd;
    try discriminate Hd.
  - injection Hd as ->. cbn [take foldr]. rewrite take_0. cbn [foldr]. lia.
  - change (x + foldr Z.add 0 (take (S i) ds)
            = x + foldr Z.add 0 (take i ds) + d).
    rewrite (IH i Hd). lia.
Qed.

Lemma starts_nonneg ds i : Forall (fun d => 0 <= d) ds -> 0 <= starts ds i.
Proof.
  unfold starts. intros H. revert i.
  induction H as [|x ds Hx _ IH]; intros [|i];
    rewrite ?take_0, ?take_nil; cbn [take foldr]; try lia.
  specialize (IH i). lia.
Qed.

Lemma starts_cons d ds i : starts (d :: ds) (S i) = d + starts ds i.
Proof. reflexivity. Qed.

Lemma slide_at_cons d d' rest t :
  slide_at (d :: d' :: rest) t
  = if d <=? t then 1 + slide_at (d' :: rest) (t - d) else 0.
Proof. reflexivity. Qed.

(** [slide_at] finds the slide whose interval holds [t]. *)
Lemma slide_at_interval ds : forall i t,
  Forall (fun d => 0 <= d) ds ->
  (i < length ds)%nat ->
  starts ds i <= t ->
  ((S i < length ds)%nat -> t < starts ds (S i)) ->
  slide_at ds t = Z.of_nat i.
Proof.
  induction ds as [|d rest IH]; intros i t Hnn Hi Hlo Hhi; [cbn in Hi; lia|].
  apply Forall_cons in Hnn as [Hd Hrest].
  destruct rest as [|d' rest'].
  - cbn in Hi. cbn. lia.
  - rewrite slide_at_cons. destruct i as [|i].
    + assert (Hlt : t < starts (d :: d' :: rest') 1) by (apply Hhi; cbn; lia).
      rewrite starts_cons, starts_0 in Hlt.
      destruct (Z.leb_spec d t); lia.
    + rewrite starts_cons in Hlo.
      pose proof (starts_nonneg (d' :: rest') i Hrest).
      destruct (Z.leb_spec d t); [|lia].
      rewrite (IH i (t - d)); [lia | exact Hrest | cbn in *; lia | lia |].
      intros Hs. rewrite starts_cons in Hhi.
      assert (t < d + starts (d' :: rest') (S i)) by (apply Hhi; cbn in *; lia).
      lia.
Qed.

Lemma delays_nonneg slides : Forall (fun d => 0 <= d) (delays slides).
Proof.
  unfold delays. apply Forall_forall. intros d Hd.
  apply list_elem_of_fmap in Hd as (x & -> & _). lia.
Qed.

Lemma length_delays slides : length (delays slides) = length slides.
Proof.
  unfold delays, Duration.slideDurations. rewrite !length_map. reflexivity.
Qed.

Lemma delays_lookup slides i :
  0 <= i < Z.of_nat (length slides) ->
  delays slides !! Z.to_nat i = Some (delay_at slides i).
Proof.
  intros Hi. unfold delays, delay_at.
  destruct (Z.leb_spec 0 i); [|lia].
  rewrite list_lookup_fmap.
  destruct (Duration.slideDurations slides !! Z.to_nat i) as [d|] eqn:Hd;
    [reflexivity|].
  apply lookup_ge_None in Hd. unfold Duration.slideDurations in Hd.
  rewrite length_map in Hd. lia.
Qed.

Lemma elapsed_app dts dt :
  elapsed (dts ++ [dt]) = elapsed dts + Z.max 0 dt.
Proof.
  unfold elapsed. induction dts as [|x dts IH];
    cbn [app fmap list_fmap foldr] in *; lia.
Qed.

End ScheduleFacts.


Section ViewerSchedule.
Import Timers Viewer Schedule.
Variable slides : list Duration.jsstring.
Hypothesis slides_nonempty : slides <> [].

Local Abbreviation len := (slides_length slides).

(** The effect run on a state without pending timer, with the timer it
    sets. *)
Lemma playback_effect_exact s :
  pending (timers s) = ∅ ->
  let s' := playback_effect slides s in
  currentSlideIndex s' = currentSlideIndex s /\
  now s' = now s /\ advances s' = advances s /\
  audio_ended s' = audio_ended s /\
  next_id (timers s') = (if isPlaying s && (currentSlideIndex s <? len - 1)
                         then S (next_id (timers s)) else next_id (timers s)) /\
  if isPlaying s && (currentSlideIndex s <? len - 1) then
    isPlaying s' = true /\
    slideTimeoutRef s' = Some (next_id (timers s)) /\
    pending (timers s')
      = {[ next_id (timers s) :=
             {| due := now s + delay_at slides (currentSlideIndex s);
                captured := currentSlideIndex s |} ]}
  else
    isPlaying s' = false /\ pending (timers s') = ∅.
Proof.
  intros He. cbv zeta. unfold playback_effect.
  assert (Ht : tidy s) by (left; exact He).
  pose proof (clear_ref_pending s Ht) as Hc.
  destruct (clear_ref_fields s) as (F1 & F2 & F3 & F4 & F5 & F6 & F7).
  destruct (isPlaying s) eqn:Hp; cbn [andb].
  - unfold scheduleNextSlide. rewrite F1.
    destruct (currentSlideIndex s <? len - 1) eqn:Hlt.
    + cbn. rewrite F1, F6, F4, F5, F7, Hc, insert_empty.
      repeat split; try reflexivity; assumption.
    + cbn. rewrite F1, F6, F4, F5, F7.
      repeat split; try reflexivity; assumption.
  - rewrite F1, F6, F4, F5, F2, F7. repeat split; try reflexivity; assumption.
Qed.

(** A re-render after a change of the play flag or of the index: the
    state it leaves, with the timer that is pending. *)
Lemma commit_changed old new :
  tidy new ->
  deps_changed old new = true ->
  let c := commit slides old new in
  currentSlideIndex c = currentSlideIndex new /\
  now c = now new /\ advances c = advances new /\
  audio_ended c = audio_ended new /\
  if isPlaying new && (currentSlideIndex new <? len - 1) then
    isPlaying c = true /\
    slideTimeoutRef c = Some (next_id (timers new)) /\
    pending (timers c)
      = {[ next_id (timers new) :=
             {| due := now new + delay_at slides (currentSlideIndex new);
                captured := currentSlideIndex new |} ]}
  else
    isPlaying c = false /\ pending (timers c) = ∅.
Proof.
  intros Ht Hd. cbv zeta. unfold commit. rewrite Hd. unfold cleanup.
  pose proof (clear_ref_pending new Ht) as Hc.
  destruct (clear_ref_fields new) as (F1 & F2 & F3 & F4 & F5 & F6 & F7).
  destruct (playback_effect_exact (clear_ref new) Hc)
    as (P1 & P2 & P3 & P4 & P5 & P6).
  set (s1 := playback_effect slides (clear_ref new)) in *.
  rewrite F1, F2, ?F4, ?F7 in P6. rewrite F1 in P1. rewrite F4 in P2.
  rewrite F6 in P3. rewrite F5 in P4.
  assert (Hdc : deps_changed new s1
                = negb (Bool.eqb (isPlaying new) (isPlaying s1))).
  { unfold deps_changed. rewrite P1, Z.eqb_refl, andb_true_r. reflexivity. }
  rewrite Hdc. clear Hdc.
  destruct (isPlaying new && (currentSlideIndex new <? len - 1)) eqn:Hb.
  - destruct P6 as (Q1 & Q2 & Q3).
    apply andb_prop in Hb as [Hp Hlt].
    rewrite Hp, Q1. cbn [Bool.eqb negb].
    repeat split; assumption.
  - destruct P6 as (Q1 & Q2).
    rewrite Q1. destruct (isPlaying new) eqn:Hp; cbn [Bool.eqb negb].
    + assert (Ht1 : tidy s1) by (left; exact Q2).
      pose proof (clear_ref_pending s1 Ht1) as Hc1.
      destruct (clear_ref_fields s1) as (G1 & G2 & G3 & G4 & G5 & G6 & G7).
      destruct (playback_effect_exact (clear_ref s1) Hc1)
        as (R1 & R2 & R3 & R4 & R5 & R6).
      rewrite G2, Q1 in R6. cbn [andb] in R6. destruct R6 as (S1 & S2).
      repeat split; congruence.
    + repeat split; assumption.
Qed.

Lemma fire_on_schedule t0 s id tm :
  on_schedule slides t0 s ->
  pending (timers s) = {[ id := tm ]} ->
  on_schedule slides t0 (fire slides id tm s) /\
  now (fire slides id tm s) = due tm.
Proof.
  intros (Hinv & Hlo & Hp) Hpend.
  destruct (fire_invariant slides s id tm Hinv Hpend) as (F1 & F2 & F3 & F4 & F5).
  destruct (inv_index _ _ Hinv) as [Hi0 Hi1].
  destruct (inv_pending _ _ Hinv) as [H|(id' & t' & H1 & H2 & H3 & H4 & H5 & H6)].
  { rewrite H in Hpend. symmetry in Hpend.
    apply map_non_empty_singleton in Hpend. tauto. }
  destruct (Z.ltb_spec (currentSlideIndex s) (len - 1)) as [Hlt|]; [|lia].
  destruct Hp as (id2 & tm2 & Hp2 & Hnow & Hdue).
  assert (tm2 = tm).
  { assert (Hl : ({[ id2 := tm2 ]} : gmap nat timer) !! id = Some tm)
      by (rewrite <- Hp2, Hpend; apply lookup_singleton_eq).
    apply lookup_singleton_Some in Hl. tauto. }
  subst tm2.
  assert (Hnow' : now (fire slides id tm s) = due tm) by lia.
  split; [|exact Hnow'].
  assert (Hidx : Z.to_nat (currentSlideIndex s + 1)
                 = S (Z.to_nat (currentSlideIndex s))) by lia.
  split; [exact F1|]. rewrite F2, Hidx. split; [lia|].
  (* the timer set by the re-render *)
  unfold fire in *. cbv zeta in *.
  match goal with |- context [commit slides ?o ?n] =>
    set (new := n) in *; set (s0 := o) in * end.
  assert (Htn : tidy new).
  { left. cbn. rewrite Hpend. apply delete_singleton_eq. }
  assert (Hd : deps_changed s0 new = true).
  { unfold deps_changed. cbn.
    destruct (Z.eqb_spec (currentSlideIndex s) (currentSlideIndex s + 1));
      [lia|]. rewrite andb_false_r. reflexivity. }
  destruct (commit_changed s0 new Htn Hd) as (C1 & C2 & C3 & C4 & C5).
  assert (Hpn : isPlaying new = true) by (cbn; exact H4).
  assert (Hin : currentSlideIndex new = currentSlideIndex s + 1) by reflexivity.
  assert (Hnn : now new = Z.max (now s) (due tm)) by reflexivity.
  rewrite Hpn, Hin in C5. cbn [andb] in C5.
  destruct (Z.ltb_spec (currentSlideIndex s + 1) (len - 1)) as [Hlt2|Hge].
  - destruct C5 as (Q1 & Q2 & Q3).
    eexists _, _. split; [exact Q3|]. cbn [due].
    pose proof (delays_lookup slides (currentSlideIndex s + 1)
                  ltac:(unfold slides_length in *; lia)) as Hdl.
    rewrite Hidx in Hdl. rewrite (starts_S _ _ _ Hdl).
    assert (0 <= delay_at slides (currentSlideIndex s + 1))
      by (unfold delay_at; lia).
    lia.
  - apply C5.
Qed.

(** Letting the clock run keeps the session on schedule, and the advance
    left pending is due after the time reached. *)
Lemma run_due_on_schedule t0 fuel target s :
  on_schedule slides t0 s ->
  now s <= target ->
  (Z.to_nat (len - 1 - currentSlideIndex s) < fuel)%nat ->
  let s' := run_due timers (fire slides) arrive fuel target s in
  on_schedule slides t0 s' /\ now s' = target /\
  (currentSlideIndex s' < len - 1 ->
   target < t0 + starts (delays slides) (S (Z.to_nat (currentSlideIndex s')))).
Proof.
  cbv zeta. revert s. induction fuel as [|fuel IH]; intros s Hos Hnow Hf; [lia|].
  cbn [run_due].
  pose proof Hos as (Hinv & Hlo & Hp).
  destruct (Z.ltb_spec (currentSlideIndex s) (len - 1)) as [Hlt|Hge].
  - destruct Hp as (id & tm & Hpend & Hn & Hdue).
    rewrite (earliest_singleton _ _ _ Hpend).
    destruct (Z.leb_spec (due tm) target) as [Hle|Hgt].
    + destruct (fire_on_schedule t0 s id tm Hos Hpend) as [Hos' Hnow'].
      destruct (fire_invariant slides s id tm Hinv Hpend) as (_ & F2 & _).
      apply IH; [exact Hos' | lia | rewrite F2; lia].
    + split; [|split; [reflexivity|]].
      * split; [apply arrive_invariant, Hinv|].
        cbn [arrive currentSlideIndex now timers]. split; [lia|].
        destruct (Z.ltb_spec (currentSlideIndex s) (len - 1)); [|lia].
        exists id, tm. repeat split; [exact Hpend | lia | exact Hdue].
      * cbn [arrive currentSlideIndex]. intros _. lia.
  - rewrite (earliest_empty _ Hp).
    split; [|split; [reflexivity|]].
    + split; [apply arrive_invariant, Hinv|].
      cbn [arrive currentSlideIndex now timers]. split; [lia|].
      destruct (Z.ltb_spec (currentSlideIndex s) (len - 1)); [lia|]. exact Hp.
    + cbn [arrive currentSlideIndex]. lia.
Qed.

Lemma elapse_on_schedule t0 dt s :
  on_schedule slides t0 s ->
  let s' := elapse slides dt s in
  on_schedule slides t0 s' /\ now s' = now s + Z.max 0 dt /\
  (currentSlideIndex s' < len - 1 ->
   now s' < t0 + starts (delays slides) (S (Z.to_nat (currentSlideIndex s')))).
Proof.
  intros Hos. cbv zeta. unfold elapse.
  destruct (run_due_on_schedule t0 (S (length slides))
              (now s + Z.max 0 dt) s Hos) as (H1 & H2 & H3); [lia| |].
  { destruct Hos as (Hinv & _). destruct (inv_index _ _ Hinv).
    unfold slides_length in *. lia. }
  split; [exact H1|]. split; [exact H2|]. rewrite H2. exact H3.
Qed.

Lemma elapses_on_schedule t0 dts : forall s,
  on_schedule slides t0 s ->
  let s' := foldl (step slides) s (Elapse <$> dts) in
  on_schedule slides t0 s' /\ now s' = now s + elapsed dts.
Proof.
  induction dts as [|dt dts IH]; intros s Hos; cbn [fmap list_fmap foldl].
  - split; [exact Hos|]. unfold elapsed. cbn. lia.
  - cbn [step].
    destruct (elapse_on_schedule t0 dt s Hos) as (H1 & H2 & _).
    destruct (IH _ H1) as (I1 & I2). split; [exact I1|].
    rewrite I2, H2. unfold elapsed. cbn [fmap list_fmap foldr]. lia.
Qed.

(** A state that is on schedule and whose pending advance lies ahead
    shows the slide of the schedule. *)
Lemma on_schedule_slide_at t0 s :
  on_schedule slides t0 s ->
  (currentSlideIndex s < len - 1 ->
   now s < t0 + starts (delays slides) (S (Z.to_nat (currentSlideIndex s)))) ->
  currentSlideIndex s = slide_at (delays slides) (now s - t0).
Proof.
  intros (Hinv & Hlo & _) Hhi. destruct (inv_index _ _ Hinv) as [H0 H1].
  rewrite (slide_at_interval (delays slides)
             (Z.to_nat (currentSlideIndex s)) (now s - t0)).
  - lia.
  - apply delays_nonneg.
  - rewrite length_delays. unfold slides_length in *. lia.
  - lia.
  - rewrite length_delays. intros Hs.
    assert (currentSlideIndex s < len - 1) by (unfold slides_length; lia).
    specialize (Hhi ltac:(assumption)). lia.
Qed.

(** Pressing play on a paused session that is not at its end arms the
    advance of the current slide with its full delay. *)
Lemma play_arms s :
  invariant slides s ->
  isPlaying s = false ->
  let p := handlePlayPause slides s in
  let i := if audio_ended s || (currentSlideIndex s =? len - 1)
           then 0 else currentSlideIndex s in
  currentSlideIndex p = i /\ now p = now s /\ advances p = advances s /\
  audio_ended p = false /\
  if i <? len - 1 then
    isPlaying p = true /\
    pending (timers p)
      = {[ next_id (timers s) :=
             {| due := now s + delay_at slides i; captured := i |} ]}
  else isPlaying p = false /\ pending (timers p) = ∅.
Proof.
  intros Hinv Hp. cbv zeta. unfold handlePlayPause. rewrite Hp.
  pose proof (invariant_tidy slides s Hinv) as Ht.
  match goal with |- context [commit slides s ?n] => set (new := n) end.
  assert (Htn : tidy new).
  { unfold new.
    destruct (audio_ended s || (currentSlideIndex s =? len - 1)); exact Ht. }
  assert (Hd : deps_changed s new = true).
  { unfold deps_changed, new. rewrite Hp.
    destruct (audio_ended s || (currentSlideIndex s =? len - 1)); reflexivity. }
  destruct (commit_changed s new Htn Hd) as (C1 & C2 & C3 & C4 & C5).
  assert (E1 : currentSlideIndex new
               = if audio_ended s || (currentSlideIndex s =? len - 1)
                 then 0 else currentSlideIndex s).
  { unfold new.
    destruct (audio_ended s || (currentSlideIndex s =? len - 1)); reflexivity. }
  assert (E2 : now new = now s).
  { unfold new.
    destruct (audio_ended s || (currentSlideIndex s =? len - 1)); reflexivity. }
  assert (E3 : advances new = advances s).
  { unfold new.
    destruct (audio_ended s || (currentSlideIndex s =? len - 1)); reflexivity. }
  assert (E4 : audio_ended new = false).
  { unfold new.
    destruct (audio_ended s || (currentSlideIndex s =? len - 1)); reflexivity. }
  assert (E5 : isPlaying new = true).
  { unfold new.
    destruct (audio_ended s || (currentSlideIndex s =? len - 1)); reflexivity. }
  assert (E6 : next_id (timers new) = next_id (timers s)).
  { unfold new.
    destruct (audio_ended s || (currentSlideIndex s =? len - 1)); reflexivity. }
  rewrite E5, E1, E2, E6 in C5. cbn [andb] in C5.
  rewrite C1, C2, C3, C4, E1, E2, E3, E4.
  repeat split.
  destruct (_ <? len - 1); [|exact C5].
  destruct C5 as (Q1 & Q2 & Q3). split; assumption.
Qed.

End ViewerSchedule.


Section ViewerSession.
Import Timers Viewer Schedule.
Variable slides : list Duration.jsstring.
Hypothesis slides_nonempty : slides <> [].

Local Abbreviation len := (slides_length slides).

Lemma singleton_nonempty (id : nat) (tm : timer) :
  ({[ id := tm ]} : gmap nat timer) <> ∅.
Proof. apply map_non_empty_singleton. Qed.

Lemma handlePlayPause_playing s :
  invariant slides s -> playing_facts (handlePlayPause slides s).
Proof.
  intros Hinv. destruct (isPlaying s) eqn:Hp.
  - destruct (handlePlayPause_invariant slides slides_nonempty s Hinv)
      as (I1 & _ & _ & I4).
    destruct (I4 Hp) as [He _]. intros Hq.
    destruct (inv_pending _ _ I1) as [H|(id & t & H1 & _)];
      [|rewrite H1 in He; destruct (singleton_nonempty _ _ He)].
    exfalso. unfold handlePlayPause in Hq. rewrite Hp in Hq.
    match type of Hq with context [commit slides s ?n] => set (new := n) in * end.
    assert (Hd : deps_changed s new = true).
    { unfold deps_changed, new. rewrite Hp. reflexivity. }
    destruct (commit_changed slides s new (invariant_tidy slides s Hinv) Hd)
      as (_ & _ & _ & _ & C5).
    change (isPlaying new) with false in C5. cbn [andb] in C5.
    destruct C5 as [C5 _]. congruence.
  - destruct (play_arms slides s Hinv Hp) as (_ & _ & _ & P4 & P5).
    intros Hq. split; [|exact P4].
    destruct (_ <? len - 1).
    + destruct P5 as [_ ->]. apply singleton_nonempty.
    + destruct P5 as [P5 _]. congruence.
Qed.

Lemma onEnded_playing s :
  invariant slides s -> isPlaying (onEnded slides s) = false.
Proof.
  intros Hinv. unfold onEnded.
  match goal with |- context [commit slides s ?n] => set (new := n) end.
  destruct (deps_changed s new) eqn:Hd.
  - destruct (commit_changed slides s new) as (_ & _ & _ & _ & C5);
      [exact (invariant_tidy slides s Hinv) | exact Hd |].
    change (isPlaying new) with false in C5. cbn [andb] in C5. apply C5.
  - unfold commit. rewrite Hd. reflexivity.
Qed.

Lemma fire_playing s id tm :
  invariant slides s -> playing_facts s ->
  pending (timers s) = {[ id := tm ]} ->
  playing_facts (fire slides id tm s).
Proof.
  intros Hinv Hpf Hpend.
  destruct (inv_pending _ _ Hinv) as [H|(id' & t' & H1 & H2 & H3 & H4 & H5 & H6)].
  { rewrite H in Hpend. symmetry in Hpend.
    destruct (singleton_nonempty _ _ Hpend). }
  destruct (Hpf H4) as [_ Hae].
  unfold fire. cbv zeta.
  match goal with |- context [commit slides ?o ?n] =>
    set (new := n); set (s0 := o) end.
  assert (Htn : tidy new).
  { left. cbn. rewrite Hpend. apply delete_singleton_eq. }
  assert (Hd : deps_changed s0 new = true).
  { unfold deps_changed. cbn.
    destruct (Z.eqb_spec (currentSlideIndex s) (currentSlideIndex s + 1));
      [lia|]. rewrite andb_false_r. reflexivity. }
  destruct (commit_changed slides s0 new Htn Hd) as (C1 & C2 & C3 & C4 & C5).
  intros Hq.
  destruct (isPlaying new && (currentSlideIndex new <? len - 1)).
  - destruct C5 as (_ & _ & ->). split; [apply singleton_nonempty|].
    rewrite C4. exact Hae.
  - destruct C5 as [C5 _]. congruence.
Qed.

Lemma run_due_playing fuel target s :
  invariant slides s -> playing_facts s ->
  playing_facts (run_due timers (fire slides) arrive fuel target s).
Proof.
  revert s. induction fuel as [|fuel IH]; intros s Hinv Hpf; cbn [run_due].
  - exact Hpf.
  - destruct (earliest (timers s)) as [[id t]|] eqn:He; [|exact Hpf].
    destruct (due t <=? target); [|exact Hpf].
    pose proof (earliest_invariant slides s id t Hinv He) as Hp.
    apply IH; [apply fire_invariant; assumption | apply fire_playing; assumption].
Qed.

Lemma step_playing s e :
  invariant slides s -> playing_facts s -> playing_facts (step slides s e).
Proof.
  intros Hinv Hpf. destruct e as [| |dt]; cbn [step].
  - apply handlePlayPause_playing, Hinv.
  - intros Hq. rewrite (onEnded_playing s Hinv) in Hq. discriminate.
  - apply run_due_playing; assumption.
Qed.

Lemma run_playing events : playing_facts (run slides events).
Proof.
  unfold run.
  assert (H0 : playing_facts mount) by (intros H; discriminate H).
  generalize (mount_invariant slides slides_nonempty) H0. generalize mount.
  induction events as [|e events IH]; intros s Hinv Hpf; cbn [foldl].
  - exact Hpf.
  - apply IH; [apply step_invariant | apply step_playing]; assumption.
Qed.

End ViewerSession.

Section ViewerScheduleLemma.
Import Timers Schedule.

(** Uninterrupted playback from a fresh viewer is on schedule. *)
Lemma viewer_schedule (slides : list Duration.jsstring)
        (dts : list Z) (dt : Z) :
  slides <> [] ->
  let s := Viewer.run slides
             (Viewer.PlayPause :: (Viewer.Elapse <$> dts ++ [dt])) in
  let t := elapsed (dts ++ [dt]) in
  Viewer.now s = t /\
  Viewer.currentSlideIndex s = slide_at (delays slides) t /\
  (Viewer.isPlaying s = true
   <-> Viewer.currentSlideIndex s < Z.of_nat (length slides) - 1).
Proof.
  intros Hne. cbv zeta.
  pose proof (run_playing slides Hne
                (Viewer.PlayPause :: (Viewer.Elapse <$> dts ++ [dt]))) as Hpf.
  unfold Viewer.run in *. cbn [foldl Viewer.step] in *.
  pose proof (mount_invariant slides Hne) as Hm.
  destruct (play_arms slides Viewer.mount Hm eq_refl) as (P1 & P2 & P3 & P4 & P5).
  cbv zeta in *.
  set (p := Viewer.handlePlayPause slides Viewer.mount) in *.
  assert (Hsel : (if Viewer.audio_ended Viewer.mount
                     || (Viewer.currentSlideIndex Viewer.mount
                         =? Viewer.slides_length slides - 1)
                  then 0 else Viewer.currentSlideIndex Viewer.mount) = 0).
  { cbn [Viewer.audio_ended Viewer.currentSlideIndex Viewer.mount orb].
    destruct (0 =? Viewer.slides_length slides - 1); reflexivity. }
  rewrite Hsel in P1, P5. pose proof P1 as Hi0.
  assert (Hos : on_schedule slides 0 p).
  { split; [apply handlePlayPause_invariant; assumption|].
    rewrite Hi0, P2. cbn [Z.to_nat]. rewrite starts_0.
    split; [cbn; lia|].
    destruct (0 <? Viewer.slides_length slides - 1) eqn:Hlt; [|apply P5].
    destruct P5 as [_ P5]. eexists _, _. split; [exact P5|].
    cbn [due]. apply Z.ltb_lt in Hlt.
    pose proof (delays_lookup slides 0
                  ltac:(unfold Viewer.slides_length in *; lia)) as Hdl.
    cbn [Z.to_nat] in Hdl.
    rewrite (starts_S _ _ _ Hdl), starts_0.
    assert (0 <= delay_at slides 0) by (unfold delay_at; lia).
    cbn [Viewer.now Viewer.mount]. lia. }
  rewrite fmap_app, foldl_app in *. cbn [fmap list_fmap foldl Viewer.step] in *.
  destruct (elapses_on_schedule slides 0 dts p Hos) as (E1 & E2).
  cbv zeta in E1, E2.
  set (q := foldl (Viewer.step slides) p (Viewer.Elapse <$> dts)) in *.
  destruct (elapse_on_schedule slides 0 dt q E1) as (F1 & F2 & F3).
  cbv zeta in F1, F2, F3.
  set (s := Viewer.elapse slides dt q) in *.
  assert (Hnow : Viewer.now s = elapsed (dts ++ [dt])).
  { rewrite F2, E2, P2, elapsed_app. cbn. lia. }
  split; [exact Hnow|].
  pose proof (on_schedule_slide_at slides 0 s F1 F3) as Hat.
  rewrite Z.sub_0_r, Hnow in Hat. split; [exact Hat|].
  destruct F1 as (Hinv & _ & Hp).
  fold (Viewer.slides_length slides). split.
  - intros Hq. destruct (Hpf Hq) as [Hne' _].
    destruct (Z.ltb_spec (Viewer.currentSlideIndex s)
                         (Viewer.slides_length slides - 1)); [assumption|].
    contradiction.
  - intros Hlt.
    destruct (Z.ltb_spec (Viewer.currentSlideIndex s)
                         (Viewer.slides_length slides - 1)); [|lia].
    destruct Hp as (id & tm & Hp & _).
    destruct (Viewer.inv_pending _ _ Hinv) as [He|(id' & t' & _ & _ & _ & H4 & _)];
      [|exact H4].
    rewrite He in Hp. symmetry in Hp.
    destruct (singleton_nonempty _ _ Hp).
Qed.

End ViewerScheduleLemma.


Section CaptureSchedule.
Import Timers Capture Schedule.
Variable generatedSlides : list Duration.jsstring.
Hypothesis slides_nonempty : generatedSlides <> [].

Local Abbreviation len := (slides_length generatedSlides).
Local Abbreviation ds := (delays generatedSlides).

Lemma nextSlide_on_schedule t0 sh :
  pending (timers sh) = ∅ ->
  0 <= slideIndex sh <= len ->
  (slideIndex sh = len -> currentSlideIndex sh = len - 1) ->
  0 <= currentSlideIndex sh < len ->
  slideIndex sh = currentSlideIndex sh + 1 \/
    slideIndex sh = 0 /\ currentSlideIndex sh = 0 ->
  now sh = t0 + starts ds (Z.to_nat (slideIndex sh)) ->
  show_on_schedule generatedSlides t0 (nextSlide generatedSlides sh).
Proof.
  intros He Hs Hlast Hi Hrel Hnow.
  destruct (nextSlide_invariant generatedSlides sh He Hi Hrel)
    as (N1 & _ & _ & _).
  cbv zeta in N1. split; [exact N1|]. clear N1.
  unfold nextSlide. destruct (Z.leb_spec len (slideIndex sh)) as [Hle|Hlt].
  - assert (Hsl : slideIndex sh = len) by lia.
    specialize (Hlast Hsl). split.
    + rewrite Hnow.
      replace (Z.to_nat (slideIndex sh))
        with (S (Z.to_nat (currentSlideIndex sh))) by lia.
      pose proof (delays_lookup generatedSlides (currentSlideIndex sh)
                    ltac:(unfold slides_length in *; lia)) as Hdl.
      rewrite (starts_S _ _ _ Hdl).
      assert (0 <= delay_at generatedSlides (currentSlideIndex sh))
        by (unfold delay_at; lia).
      lia.
    + right. auto.
  - cbn [setTimeout currentSlideIndex slideIndex now timers pending].
    split; [lia|]. left. split; [reflexivity|].
    rewrite He, insert_empty. eexists _, _. split; [reflexivity|].
    cbn [due].
    change (Z.max 0 (delay_of _))
      with (delay_at generatedSlides (slideIndex sh)).
    pose proof (delays_lookup generatedSlides (slideIndex sh)
                  ltac:(unfold slides_length in *; lia)) as Hdl.
    rewrite (starts_S _ _ _ Hdl).
    assert (0 <= delay_at generatedSlides (slideIndex sh))
      by (unfold delay_at; lia).
    lia.
Qed.

Lemma startSlideShow_on_schedule sh :
  pending (timers sh) = ∅ -> currentSlideIndex sh = 0 ->
  show_on_schedule generatedSlides (now sh)
    (startSlideShow generatedSlides sh).
Proof.
  intros He Hc.
  pose proof (capture_length_positive generatedSlides slides_nonempty).
  unfold startSlideShow. apply nextSlide_on_schedule;
    cbn [currentSlideIndex slideIndex timers now Z.to_nat].
  - exact He.
  - lia.
  - lia.
  - lia.
  - right. auto.
  - rewrite starts_0. lia.
Qed.

Lemma capture_fire_on_schedule t0 sh id tm :
  show_on_schedule generatedSlides t0 sh ->
  pending (timers sh) = {[ id := tm ]} ->
  show_on_schedule generatedSlides t0 (fire generatedSlides id tm sh) /\
  now (fire generatedSlides id tm sh) = due tm /\
  slideIndex (fire generatedSlides id tm sh) = slideIndex sh + 1.
Proof.
  intros (Hinv & Hlo & Hp) Hpend.
  destruct (inv_index _ _ Hinv) as [Hi0 Hi1].
  destruct Hp as [(Hsl & id2 & tm2 & Hp2 & Hnow & Hdue)|(_ & _ & He)].
  2:{ rewrite He in Hpend. symmetry in Hpend.
      apply map_non_empty_singleton in Hpend. tauto. }
  assert (tm2 = tm).
  { assert (Hl : ({[ id2 := tm2 ]} : gmap nat timer) !! id = Some tm)
      by (rewrite <- Hp2, Hpend; apply lookup_singleton_eq).
    apply lookup_singleton_Some in Hl. tauto. }
  subst tm2. unfold fire.
  match goal with |- context [nextSlide generatedSlides ?x] => set (sh0 := x) end.
  assert (Hn0 : now sh0 = due tm) by (cbn; lia).
  split; [|split].
  - apply nextSlide_on_schedule.
    + cbn. rewrite Hpend. apply delete_singleton_eq.
    + cbn. lia.
    + cbn. lia.
    + exact (conj Hi0 Hi1).
    + left. cbn. lia.
    + rewrite Hn0, Hdue. cbn [sh0 slideIndex]. do 2 f_equal. lia.
  - unfold nextSlide. destruct (len <=? slideIndex sh0); exact Hn0.
  - unfold nextSlide. destruct (len <=? slideIndex sh0); reflexivity.
Qed.

Lemma capture_run_due_on_schedule t0 fuel target sh :
  show_on_schedule generatedSlides t0 sh ->
  now sh <= target ->
  (Z.to_nat (len - slideIndex sh) < fuel)%nat ->
  let sh' := run_due timers (fire generatedSlides) arrive fuel target sh in
  show_on_schedule generatedSlides t0 sh' /\ now sh' = target /\
  (slideIndex sh' < len ->
   target < t0 + starts ds (S (Z.to_nat (currentSlideIndex sh')))).
Proof.
  cbv zeta. revert sh.
  induction fuel as [|fuel IH]; intros sh Hos Hnow Hf; [lia|].
  cbn [run_due].
  pose proof Hos as (Hinv & Hlo & Hp).
  destruct (inv_index _ _ Hinv) as [Hi0 Hi1].
  destruct Hp as [(Hsl & id & tm & Hpend & Hn & Hdue)|(Hsl & Hlast & He)].
  - rewrite (earliest_singleton _ _ _ Hpend).
    destruct (Z.leb_spec (due tm) target) as [Hle|Hgt].
    + destruct (capture_fire_on_schedule t0 sh id tm Hos Hpend)
        as (Hos' & Hnow' & Hsl').
      apply IH; [exact Hos' | lia | rewrite Hsl'; lia].
    + split; [|split; [reflexivity|]].
      * split; [apply capture_arrive_invariant, Hinv|].
        cbn [arrive currentSlideIndex slideIndex now timers].
        split; [lia|]. left. split; [exact Hsl|].
        exists id, tm. repeat split; [exact Hpend | lia | exact Hdue].
      * cbn [arrive currentSlideIndex]. intros _. lia.
  - rewrite (earliest_empty _ He).
    split; [|split; [reflexivity|]].
    + split; [apply capture_arrive_invariant, Hinv|].
      cbn [arrive currentSlideIndex slideIndex now timers].
      split; [lia|]. right. auto.
    + cbn [arrive slideIndex]. lia.
Qed.

Lemma capture_elapses_on_schedule t0 o dts : forall s,
  show_on_schedule generatedSlides t0 (show s) ->
  exists sh,
    foldl (step generatedSlides o) s (Elapse <$> dts) = with_show sh s /\
    show_on_schedule generatedSlides t0 sh /\ now sh = now (show s) + elapsed dts /\
    (dts <> [] -> slideIndex sh < len ->
     now sh < t0 + starts ds (S (Z.to_nat (currentSlideIndex sh)))).
Proof.
  induction dts as [|dt dts IH]; intros s Hos; cbn [fmap list_fmap foldl].
  - exists (show s). split; [destruct s; reflexivity|].
    split; [exact Hos|]. split; [unfold elapsed; cbn; lia | congruence].
  - cbn [step]. unfold elapse at 1.
    match goal with |- context [with_show ?x s] => set (sh1 := x) end.
    destruct (capture_run_due_on_schedule t0 (S (length generatedSlides))
                (now (show s) + Z.max 0 dt) (show s) Hos)
      as (H1 & H2 & H3); [lia| |].
    { destruct Hos as (Hinv & _ & _).
      destruct (inv_index _ _ Hinv), (inv_slideIndex _ _ Hinv).
      unfold slides_length in *. lia. }
    fold sh1 in H1, H2, H3.
    destruct (IH (with_show sh1 s) H1) as (sh & Hsh & Hi & Hn & Hlt).
    exists sh. split; [rewrite Hsh; reflexivity|]. split; [exact Hi|].
    cbn [show with_show] in Hn. split.
    + rewrite Hn, H2. unfold elapsed. cbn [fmap list_fmap foldr]. lia.
    + intros _. destruct dts as [|dt' dts'].
      * cbn [fmap list_fmap foldl] in Hsh.
        assert (sh = sh1).
        { apply (f_equal show) in Hsh. cbn [show with_show] in Hsh.
          congruence. }
        subst sh. rewrite H2. exact H3.
      * apply Hlt. discriminate.
Qed.

Lemma show_on_schedule_slide_at t0 sh :
  show_on_schedule generatedSlides t0 sh ->
  (slideIndex sh < len ->
   now sh < t0 + starts ds (S (Z.to_nat (currentSlideIndex sh)))) ->
  currentSlideIndex sh = slide_at ds (now sh - t0).
Proof.
  intros (Hinv & Hlo & Hp) Hhi. destruct (inv_index _ _ Hinv) as [H0 H1].
  rewrite (slide_at_interval ds (Z.to_nat (currentSlideIndex sh))
             (now sh - t0)).
  - lia.
  - apply delays_nonneg.
  - rewrite length_delays. unfold slides_length in *. lia.
  - lia.
  - rewrite length_delays. intros Hs.
    assert (Hlt : slideIndex sh < len)
      by (destruct Hp as [(Hsl & _)|(_ & Hlast & _)];
          unfold slides_length in *; lia).
    specialize (Hhi Hlt). lia.
Qed.

(** An export whose calls succeed is on schedule, from the moment the
    images have loaded, while it waits for the audio to end. *)
Lemma export_schedule o pre dts dt :
  first_failure (context_check o) program_order = None ->
  let s := run generatedSlides o
             ((Elapse <$> pre) ++ ImagesSettled :: (Elapse <$> dts ++ [dt])) in
  stage s = Awaiting /\
  now (show s) = elapsed pre + elapsed (dts ++ [dt]) /\
  currentSlideIndex (show s) = slide_at ds (elapsed (dts ++ [dt])).
Proof.
  intros Hff. cbv zeta.
  set (s0 := started generatedSlides (elapsed pre) false).
  assert (Hrun :
    run generatedSlides o
      ((Elapse <$> pre) ++ ImagesSettled :: (Elapse <$> dts ++ [dt]))
    = foldl (step generatedSlides o) s0 (Elapse <$> dts ++ [dt])).
  { change (ImagesSettled :: (Elapse <$> dts ++ [dt]))
      with ([ImagesSettled] ++ (Elapse <$> dts ++ [dt])).
    rewrite app_assoc. unfold run at 1. rewrite foldl_app.
    fold (run generatedSlides o ((Elapse <$> pre) ++ [ImagesSettled])).
    rewrite (run_started generatedSlides o pre slides_nonempty Hff).
    reflexivity. }
  rewrite Hrun. clear Hrun.
  assert (Hos0 : show_on_schedule generatedSlides (elapsed pre) (show s0)).
  { unfold s0. cbn [show started].
    apply (startSlideShow_on_schedule (arrive (elapsed pre) initial_show));
      reflexivity. }
  destruct (capture_elapses_on_schedule (elapsed pre) o (dts ++ [dt]) s0 Hos0)
    as (sh & Hsh & Hos & Hn & Hlt).
  rewrite Hsh. cbn [stage show with_show s0 started].
  split; [reflexivity|].
  assert (Hz : now (show s0) = elapsed pre).
  { unfold s0. cbn [show started].
    unfold startSlideShow, nextSlide. cbn [slideIndex].
    destruct (len <=? 0); reflexivity. }
  rewrite Hz in Hn. split; [exact Hn|].
  replace (elapsed (dts ++ [dt])) with (now sh - elapsed pre) by lia.
  apply show_on_schedule_slide_at; [exact Hos|].
  apply Hlt. destruct dts; discriminate.
Qed.

End CaptureSchedule.


Section ViewerPause.
Import Timers Viewer Schedule.
Variable slides : list Duration.jsstring.
Hypothesis slides_nonempty : slides <> [].

Local Abbreviation len := (slides_length slides).

(** Pressing the button while the play flag is set. *)
Lemma pause_state s :
  invariant slides s ->
  isPlaying s = true ->
  let p := handlePlayPause slides s in
  invariant slides p /\
  isPlaying p = false /\ pending (timers p) = ∅ /\
  currentSlideIndex p = currentSlideIndex s /\ now p = now s /\
  audio_ended p = audio_ended s /\
  next_id (timers p) = next_id (timers s).
Proof.
  intros Hinv Hp. cbv zeta.
  destruct (handlePlayPause_invariant slides slides_nonempty s Hinv)
    as (I1 & _ & _ & _).
  split; [exact I1|]. clear I1.
  unfold handlePlayPause. rewrite Hp. cbn [negb].
  set (new := setIsPlaying false s).
  assert (Hd : deps_changed s new = true).
  { unfold deps_changed, new. rewrite Hp. reflexivity. }
  assert (Htn : tidy new) by exact (invariant_tidy slides s Hinv).
  destruct (commit_changed slides s new Htn Hd) as (C1 & C2 & C3 & C4 & C5).
  change (isPlaying new) with false in C5. cbn [andb] in C5.
  destruct C5 as [C5 C6].
  repeat split; try assumption.
  unfold commit. rewrite Hd. unfold cleanup.
  destruct (clear_ref_fields new) as (_ & _ & _ & _ & _ & _ & F7).
  assert (Hc : pending (timers (clear_ref new)) = ∅)
    by (apply clear_ref_pending, Htn).
  destruct (playback_effect_exact slides (clear_ref new) Hc)
    as (P1 & _ & _ & _ & P5 & P6).
  destruct (clear_ref_fields new) as (F1 & F2 & _).
  rewrite F2 in P5, P6. change (isPlaying new) with false in P5, P6.
  cbn [andb] in P5, P6. destruct P6 as [P6 _].
  set (s1 := playback_effect slides (clear_ref new)) in *.
  assert (Hdc : deps_changed new s1 = false).
  { unfold deps_changed. rewrite P1, F1, P6, Z.eqb_refl. reflexivity. }
  rewrite Hdc, P5, F7. reflexivity.
Qed.

End ViewerPause.

Section SchedulerExtras.
Import Timers Schedule.

(** X5 -- Uninterrupted playback follows the schedule of the estimated
    durations: once the clock has run for [t] milliseconds after the play
    button was pressed on a fresh viewer, the slide on screen is the one
    the schedule gives for [t], and the play flag is set exactly while
    that slide is not the last. *)
Theorem viewer_follows_schedule (slides : list Duration.jsstring)
        (dts : list Z) (dt : Z) :
  slides <> [] ->
  let s := Viewer.run slides
             (Viewer.PlayPause :: (Viewer.Elapse <$> dts ++ [dt])) in
  let t := elapsed (dts ++ [dt]) in
  Viewer.now s = t /\
  Viewer.currentSlideIndex s = slide_at (delays slides) t /\
  (Viewer.isPlaying s = true
   <-> Viewer.currentSlideIndex s < Z.of_nat (length slides) - 1).
Proof. intros Hne. exact (viewer_schedule slides dts dt Hne). Qed.

Lemma viewer_follows_schedule_witness :
  Duration.five_slides <> [] /\
  Viewer.currentSlideIndex
    (Viewer.run Duration.five_slides
       [Viewer.PlayPause; Viewer.Elapse 12000; Viewer.Elapse 13000]) = 2.
Proof.
  split; [discriminate|].
  destruct (viewer_follows_schedule Duration.five_slides [12000] 13000
              ltac:(discriminate)) as (_ & H & _).
  cbv zeta in H. etransitivity; [exact H|]. vm_compute. reflexivity.
Defined.

(** X6 -- An export whose calls succeed follows the same schedule from
    the moment the images have loaded, while it waits for the audio to
    end: [t] milliseconds after that moment the frame drawn is the slide
    the schedule gives for [t], which is the slide the viewer shows [t]
    milliseconds into uninterrupted playback. *)
Theorem export_follows_schedule (slides : list Duration.jsstring)
        (o : Capture.oracle) (pre dts : list Z) (dt : Z) :
  slides <> [] ->
  Capture.first_failure (Capture.context_check o) Capture.program_order
    = None ->
  let s := Capture.run slides o
             ((Capture.Elapse <$> pre)
              ++ Capture.ImagesSettled :: (Capture.Elapse <$> dts ++ [dt])) in
  let t := elapsed (dts ++ [dt]) in
  Capture.stage s = Capture.Awaiting /\
  Capture.now (Capture.show s) = elapsed pre + t /\
  Capture.currentSlideIndex (Capture.show s) = slide_at (delays slides) t /\
  Capture.currentSlideIndex (Capture.show s)
    = Viewer.currentSlideIndex
        (Viewer.run slides
           (Viewer.PlayPause :: (Viewer.Elapse <$> dts ++ [dt]))).
Proof.
  intros Hne Hff. cbv zeta.
  destruct (export_schedule slides Hne o pre dts dt Hff) as (E1 & E2 & E3).
  destruct (viewer_schedule slides dts dt Hne) as (_ & V2 & _).
  cbv zeta in *. repeat split; try assumption. congruence.
Qed.

Lemma export_follows_schedule_witness :
  Capture.currentSlideIndex
    (Capture.show
       (Capture.run Duration.five_slides Capture.all_succeed
          [Capture.Elapse 40; Capture.ImagesSettled;
           Capture.Elapse 12000; Capture.Elapse 13000])) = 2.
Proof.
  destruct (export_follows_schedule Duration.five_slides Capture.all_succeed
              [40] [12000] 13000 ltac:(discriminate) eq_refl)
    as (_ & _ & H & _).
  cbv zeta in H. etransitivity; [exact H|]. vm_compute. reflexivity.
Defined.

(** X7 -- In every state of a viewer session the play flag is set exactly
    while an advance is pending, and then the slide shown is not the last
    and the audio has not ended.  On the last slide the flag is therefore
    clear, and pressing the button there goes back to the first slide. *)
Theorem play_flag_tracks_pending_advance (slides : list Duration.jsstring)
        (events : list Viewer.event) :
  slides <> [] ->
  let s := Viewer.run slides events in
  let last := Z.of_nat (length slides) - 1 in
  (Viewer.isPlaying s = true <-> pending (Viewer.timers s) <> ∅) /\
  (Viewer.isPlaying s = true ->
   Viewer.currentSlideIndex s < last /\ Viewer.audio_ended s = false) /\
  (Viewer.currentSlideIndex s = last ->
   Viewer.isPlaying s = false /\
   Viewer.currentSlideIndex (Viewer.handlePlayPause slides s) = 0).
Proof.
  intros Hne. cbv zeta.
  pose proof (run_invariant slides Hne events) as Hinv.
  pose proof (run_playing slides Hne events) as Hpf.
  set (s := Viewer.run slides events) in *.
  fold (Viewer.slides_length slides).
  assert (Hpend : pending (Viewer.timers s) <> ∅ ->
                  Viewer.isPlaying s = true
                  /\ Viewer.currentSlideIndex s < Viewer.slides_length slides - 1).
  { intros Hn.
    destruct (Viewer.inv_pending _ _ Hinv)
      as [He|(id & t & _ & _ & _ & H4 & _ & H6)]; [contradiction|].
    split; assumption. }
  assert (Hlast : Viewer.currentSlideIndex s = Viewer.slides_length slides - 1
                  -> Viewer.isPlaying s = false).
  { intros Hl. destruct (Viewer.isPlaying s) eqn:Hp; [|reflexivity].
    destruct (Hpf Hp) as [Hn _]. destruct (Hpend Hn). lia. }
  split; [|split].
  - split; [intros Hp; apply Hpf, Hp | intros Hn; apply Hpend, Hn].
  - intros Hp. destruct (Hpf Hp) as [Hn Ha]. split; [apply Hpend, Hn | exact Ha].
  - intros Hl. split; [apply Hlast, Hl|].
    destruct (play_arms slides s Hinv (Hlast Hl)) as (P1 & _).
    rewrite P1, Hl, Z.eqb_refl, orb_true_r. reflexivity.
Qed.

Lemma play_flag_tracks_pending_advance_witness :
  Viewer.isPlaying
    (Viewer.run Duration.five_slides
       [Viewer.PlayPause; Viewer.Elapse 40000]) = true
  <-> pending (Viewer.timers
                 (Viewer.run Duration.five_slides
                    [Viewer.PlayPause; Viewer.Elapse 40000])) <> ∅.
Proof.
  exact (proj1 (play_flag_tracks_pending_advance Duration.five_slides
                  [Viewer.PlayPause; Viewer.Elapse 40000]
                  ltac:(discriminate))).
Defined.

(** X8 -- Pausing and resuming gives the current slide its whole delay
    again: however long the slide had been shown and however long the
    pause lasts, the advance armed on resuming is due one full slide
    delay after the resume. *)
Theorem resume_restarts_slide_delay (slides : list Duration.jsstring)
        (events : list Viewer.event) (dt : Z) :
  slides <> [] ->
  let s := Viewer.run slides events in
  Viewer.isPlaying s = true ->
  let paused := Viewer.elapse slides dt (Viewer.handlePlayPause slides s) in
  let r := Viewer.handlePlayPause slides paused in
  Viewer.currentSlideIndex paused = Viewer.currentSlideIndex s /\
  pending (Viewer.timers paused) = ∅ /\
  Viewer.currentSlideIndex r = Viewer.currentSlideIndex s /\
  Viewer.isPlaying r = true /\
  Viewer.now r = Viewer.now s + Z.max 0 dt /\
  exists id,
    pending (Viewer.timers r)
    = {[ id := {| due := Viewer.now r
                         + delay_at slides (Viewer.currentSlideIndex s);
                  captured := Viewer.currentSlideIndex s |} ]}.
Proof.
  intros Hne. cbv zeta.
  pose proof (run_invariant slides Hne events) as Hinv.
  pose proof (run_playing slides Hne events) as Hpf.
  set (s := Viewer.run slides events) in *.
  intros Hp. destruct (Hpf Hp) as [Hn Ha].
  assert (Hlt : Viewer.currentSlideIndex s < Viewer.slides_length slides - 1).
  { destruct (Viewer.inv_pending _ _ Hinv)
      as [He|(id & t & _ & _ & _ & _ & _ & H6)]; [contradiction | exact H6]. }
  destruct (pause_state slides Hne s Hinv Hp)
    as (Q0 & Q1 & Q2 & Q3 & Q4 & Q5 & Q6).
  cbv zeta in *.
  set (p := Viewer.handlePlayPause slides s) in *.
  rewrite (elapse_idle slides dt p Q2).
  set (q := Viewer.arrive (Viewer.now p + Z.max 0 dt) p).
  assert (Hq : Viewer.invariant slides q) by (apply arrive_invariant, Q0).
  destruct (play_arms slides q Hq Q1) as (P1 & P2 & P3 & P4 & P5).
  cbv zeta in *.
  assert (Hsel : (if Viewer.audio_ended q
                     || (Viewer.currentSlideIndex q
                         =? Viewer.slides_length slides - 1)
                  then 0 else Viewer.currentSlideIndex q)
                 = Viewer.currentSlideIndex s).
  { cbn [q Viewer.arrive Viewer.audio_ended Viewer.currentSlideIndex].
    rewrite Q5, Ha, Q3. cbn [orb].
    destruct (Z.eqb_spec (Viewer.currentSlideIndex s)
                         (Viewer.slides_length slides - 1)); [lia|reflexivity]. }
  rewrite Hsel in P1, P5.
  destruct (Z.ltb_spec (Viewer.currentSlideIndex s)
                       (Viewer.slides_length slides - 1)); [|lia].
  destruct P5 as [P5 P6].
  assert (Hnq : Viewer.now q = Viewer.now s + Z.max 0 dt)
    by (cbn [q Viewer.arrive Viewer.now]; lia).
  split; [exact Q3|]. split; [exact Q2|]. split; [exact P1|].
  split; [exact P5|]. split; [lia|].
  eexists. rewrite P2. exact P6.
Qed.

Lemma resume_restarts_slide_delay_witness :
  Viewer.isPlaying
    (Viewer.handlePlayPause Duration.five_slides
       (Viewer.elapse Duration.five_slides 3000
          (Viewer.handlePlayPause Duration.five_slides
             (Viewer.run Duration.five_slides
                [Viewer.PlayPause; Viewer.Elapse 4000])))) = true.
Proof.
  destruct (resume_restarts_slide_delay Duration.five_slides
              [Viewer.PlayPause; Viewer.Elapse 4000] 3000
              ltac:(discriminate) eq_refl) as (_ & _ & _ & H & _).
  exact H.
Defined.

(** X18 -- When the audio ends after the images have loaded, however
    long the loading took and however the estimated schedule relates to
    the audio, the pending advance is cancelled before [recorder.stop()]
    is called, that call is made exactly once, and whatever happens
    afterwards no further advance fires and no further stop is issued. *)
Theorem audio_end_stops_once (slides : list Duration.jsstring)
        (o : Capture.oracle) (pre dts : list Z)
        (events : list Capture.event) :
  slides <> [] ->
  Capture.first_failure (Capture.context_check o) Capture.program_order
    = None ->
  let s1 := Capture.run slides o
              ((Capture.Elapse <$> pre)
               ++ Capture.ImagesSettled :: (Capture.Elapse <$> dts)) in
  let s2 := Capture.onended o s1 in
  let s3 := foldl (Capture.step slides o) s2 events in
  Capture.stage s1 = Capture.Awaiting /\ Capture.stop_calls s1 = 0%nat /\
  pending (Capture.timers (Capture.show (Capture.onended_handler s1))) = ∅ /\
  s2 = Capture.resume o (Capture.onended_handler s1) /\
  Capture.stop_calls s2 = 1%nat /\ Capture.stop_calls s3 = 1%nat /\
  Capture.advances (Capture.show s3) = Capture.advances (Capture.show s1) /\
  Capture.currentSlideIndex (Capture.show s3)
    = Capture.currentSlideIndex (Capture.show s1) /\
  pending (Capture.timers (Capture.show s3)) = ∅ /\
  Capture.stage s3 = Capture.Finished /\
  (o Capture.RecorderStop = None -> Capture.downloads s3 = 1%nat).
Proof.
  intros Hne Hok s1 s2 s3.
  assert (Hrun :
    s1 = foldl (Capture.step slides o)
           (Capture.started slides (elapsed pre) false)
           (Capture.Elapse <$> dts)).
  { unfold s1.
    change (Capture.ImagesSettled :: (Capture.Elapse <$> dts))
      with ([Capture.ImagesSettled] ++ (Capture.Elapse <$> dts)).
    rewrite app_assoc. unfold Capture.run at 1. rewrite foldl_app.
    fold (Capture.run slides o
            ((Capture.Elapse <$> pre) ++ [Capture.ImagesSettled])).
    rewrite (run_started slides o pre Hne Hok). reflexivity. }
  destruct (elapses_show slides o dts
              (Capture.started slides (elapsed pre) false)
              (started_invariant slides _ _ Hne))
    as (sh & Hsh & Hinv).
  rewrite <- Hrun in Hsh. cbn [Capture.with_show Capture.started] in Hsh.
  destruct (cancel_advance_pending slides sh Hinv) as (K1 & K2 & K3 & K4).
  assert (Hs2 : s2 = Capture.resume o (Capture.onended_handler s1)).
  { unfold s2, Capture.onended. rewrite Hsh. reflexivity. }
  assert (Hfin : Capture.stage s2 = Capture.Finished /\
                 Capture.show s2 = Capture.cancel_advance sh /\
                 Capture.stop_calls s2 = 1%nat /\
                 (o Capture.RecorderStop = None -> Capture.downloads s2 = 1%nat)).
  { rewrite Hs2, Hsh. unfold Capture.resume, Capture.attempt,
      Capture.catch_finally, Capture.onended_handler.
    destruct (o Capture.RecorderStop); repeat split; intros; discriminate. }
  destruct Hfin as (G1 & G2 & G3 & G4).
  destruct (finished_events slides o events s2 G1) as [t Ht].
  { rewrite G2. exact K1. }
  fold s3 in Ht.
  split; [rewrite Hsh; reflexivity|]. split; [rewrite Hsh; reflexivity|].
  split; [rewrite Hsh; exact K1|]. split; [exact Hs2|]. split; [exact G3|].
  rewrite Ht. cbn [Capture.stop_calls Capture.with_show Capture.show
                   Capture.arrive Capture.advances Capture.currentSlideIndex
                   Capture.timers Capture.downloads Capture.stage].
  rewrite G2, K2, K3, Hsh. repeat split; try assumption.
Qed.

Lemma audio_end_stops_once_witness :
  let s1 := Capture.run Duration.five_slides Capture.all_succeed
              [Capture.Elapse 40; Capture.ImagesSettled;
               Capture.Elapse 25000] in
  let s3 := foldl (Capture.step Duration.five_slides Capture.all_succeed)
              (Capture.onended Capture.all_succeed s1)
              [Capture.Elapse 100000; Capture.AudioEnded] in
  Capture.currentSlideIndex (Capture.show s1) = 2 /\
  Capture.stop_calls s3 = 1%nat /\
  Capture.advances (Capture.show s3) = Capture.advances (Capture.show s1) /\
  Capture.downloads s3 = 1%nat.
Proof.
  assert (Hne : Duration.five_slides <> []) by discriminate.
  pose proof (audio_end_stops_once Duration.five_slides Capture.all_succeed
                [40] [25000] [Capture.Elapse 100000; Capture.AudioEnded]
                Hne eq_refl) as H.
  cbv zeta in H. destruct H as (_ & _ & _ & _ & _ & H1 & H2 & _ & _ & _ & H3).
  cbv zeta. split; [vm_compute; reflexivity|].
  split; [exact H1|]. split; [exact H2 | exact (H3 eq_refl)].
Defined.

End SchedulerExtras.

(* ===================================================================== *)
(** * The compositor, the narration script and the display *)
(* ===================================================================== *)


Section CompositorExtras.
Import Compositor.

(** X9 -- The image keeps its aspect ratio and is drawn as large as the
    canvas allows: in exact arithmetic, for positive dimensions, the drawn
    width and height are in the proportion of the image, and no rectangle
    of that proportion that fits the canvas is wider or higher. *)
Theorem image_fits_largest (W Hc w h : Q) :
  (0 < W)%Q -> (0 < Hc)%Q -> (0 < w)%Q -> (0 < h)%Q ->
  let r := drawRect W Hc w h in
  (drawWidth r * h == drawHeight r * w)%Q /\
  (0 < drawWidth r)%Q /\ (0 < drawHeight r)%Q /\
  forall a b : Q,
    (a * h == b * w)%Q -> (a <= W)%Q -> (b <= Hc)%Q ->
    (a <= drawWidth r)%Q /\ (b <= drawHeight r)%Q.
Proof.
  intros HW HH Hw Hh. unfold drawRect.
  cbn [of_int minus times divide rational_arith].
  assert (Ha : (0 < w / h)%Q) by (apply Qlt_shift_div_l; lra).
  assert (Ea : (w / h * h == w)%Q) by (field; lra).
  assert (Eb : (W / (w / h) * w == W * h)%Q) by (field; split; lra).
  assert (Hp : (0 < W / (w / h))%Q) by (apply Qlt_shift_div_l; lra).
  destruct (less (w / h) (W / Hc))%Q eqn:Hlt;
    cbn [dx dy drawWidth drawHeight].
  - split; [rewrite <- Qmult_assoc, Ea; reflexivity|].
    split; [apply Qmult_lt_0_compat; assumption|].
    split; [assumption|].
    intros a b Hab Ha' Hb'. split; [|exact Hb'].
    apply (Qmult_le_r _ _ h Hh). rewrite <- Qmult_assoc, Ea, Hab.
    apply Qmult_le_compat_r; lra.
  - split; [rewrite Eb; reflexivity|].
    split; [assumption|]. split; [assumption|].
    intros a b Hab Ha' Hb'. split; [exact Ha'|].
    apply (Qmult_le_r _ _ w Hw). rewrite Eb, <- Hab.
    apply Qmult_le_compat_r; lra.
Qed.

Lemma image_fits_largest_witness :
  (drawWidth (drawRect 1280%Q 720%Q 1000%Q 1000%Q) == 720)%Q /\
  (drawHeight (drawRect 1280%Q 720%Q 1000%Q 1000%Q) == 720)%Q.
Proof.
  destruct (image_fits_largest 1280%Q 720%Q 1000%Q 1000%Q
              eq_refl eq_refl eq_refl eq_refl) as (_ & _ & _ & _).
  split; reflexivity.
Defined.

(** X19 -- In exact arithmetic, for every pair of positive canvas
    dimensions and positive image dimensions, the rectangle drawn lies
    within the canvas and is centered, and at least one offset is zero;
    exactly one is zero unless the image has the aspect ratio of the
    canvas, in which case the image fills the canvas and both are zero. *)
Theorem draw_rectangle_exact (W Hc w h : Q) :
  (0 < W)%Q -> (0 < Hc)%Q -> (0 < w)%Q -> (0 < h)%Q ->
  let r := drawRect W Hc w h in
  within_canvas W Hc r /\ centered W Hc r /\
  (dx r == 0 \/ dy r == 0)%Q /\
  (exactly_one_offset_zero r <-> ~ (W * h == w * Hc)%Q) /\
  ((W * h == w * Hc)%Q -> (dx r == 0 /\ dy r == 0)%Q).
Proof.
  intros HW HH Hw Hh r.
  destruct (drawRect_rational W Hc w h HW HH Hw Hh)
    as (H1 & H2 & H3 & H4 & H5 & H6 & H7 & H8).
  fold r in H1, H2, H3, H4, H5, H6, H7, H8.
  unfold within_canvas, centered, exactly_one_offset_zero.
  repeat split; try assumption.
  - intros [[Hx Hy]|[Hx Hy]] He; apply H8 in He; tauto.
  - intros Hne. destruct H7 as [Hx|Hy].
    + left. split; [assumption | intros Hy; apply Hne, H8; tauto].
    + right. split; [intros Hx; apply Hne, H8; tauto | assumption].
  - apply H8; assumption.
  - apply H8; assumption.
Qed.

Lemma draw_rectangle_exact_witness :
  let r := drawRect (T:=Q) 1280%Q 720%Q 1024%Q 1024%Q in
  within_canvas 1280%Q 720%Q r /\ centered 1280%Q 720%Q r /\
  (dx r == 280)%Q /\ (dy r == 0)%Q.
Proof.
  assert (H1 : (0 < 1280)%Q) by reflexivity.
  assert (H2 : (0 < 720)%Q) by reflexivity.
  assert (H3 : (0 < 1024)%Q) by reflexivity.
  pose proof (draw_rectangle_exact 1280%Q 720%Q 1024%Q 1024%Q H1 H2 H3 H3)
    as H.
  cbv zeta in *.
  split; [exact (proj1 H)|]. split; [exact (proj1 (proj2 H))|].
  split; reflexivity.
Defined.

End CompositorExtras.


Section ScriptProofs.
Import Duration Script.

(** The number of pieces does not depend on the piece being read. *)
Lemma length_split_from s : forall b cur cur',
  length (split_from b cur s) = length (split_from b cur' s).
Proof.
  induction s as [|c s IH]; intros b cur cur'; cbn [split_from];
    [reflexivity|].
  destruct (isWhiteSpace c); [destruct b|]; cbn [length]; auto.
Qed.

Lemma length_split_from_app s : forall b cur t,
  (length (split_from b cur (s ++ t)) + 1
   = length (split_from b cur s)
     + length (split_from (ends_in_space b s) [] t))%nat.
Proof.
  induction s as [|c s IH]; intros b cur t.
  - cbn [app split_from ends_in_space length].
    rewrite (length_split_from t b cur []). lia.
  - cbn [app split_from ends_in_space].
    pose proof (IH true cur t). pose proof (IH true [] t).
    pose proof (IH false (c :: cur) t).
    destruct (isWhiteSpace c) eqn:Hc; [destruct b|]; cbn [length]; lia.
Qed.

Lemma ends_in_space_last s : forall b c,
  last s = Some c -> ends_in_space b s = isWhiteSpace c.
Proof.
  induction s as [|x s IH]; intros b c Hl; [discriminate|].
  cbn [ends_in_space]. destruct s as [|y s].
  - cbn in Hl. injection Hl as ->. reflexivity.
  - apply IH. exact Hl.
Qed.

Lemma trimmed_ends p : trimmed p -> ends_in_space false p = false.
Proof.
  intros [_ (c & Hl & Hc)]. rewrite (ends_in_space_last p false c Hl). exact Hc.
Qed.

(** After a separator, a text that starts with a word adds all its
    pieces. *)
Lemma length_split_after_space p :
  (exists c, head p = Some c /\ isWhiteSpace c = false) ->
  length (split_from true [] p) = length (split_from false [] p).
Proof.
  intros (c & Hh & Hc). destruct p as [|x p]; [discriminate|].
  cbn in Hh. injection Hh as ->. cbn [split_from]. rewrite Hc. reflexivity.
Qed.

Lemma join_space_head p rest c :
  head p = Some c -> head (join_space (p :: rest)) = Some c.
Proof.
  intros Hh. destruct p as [|x p]; [discriminate|].
  cbn [join_space]. destruct rest; exact Hh.
Qed.

Lemma wordCount_join ns :
  ns <> [] -> Forall trimmed ns ->
  wordCount (join_space ns) = foldr Z.add 0 (wordCount <$> ns).
Proof.
  intros Hne Hall. induction Hall as [|p rest Hp Hrest IH]; [congruence|].
  destruct rest as [|q rest'].
  - cbn [join_space fmap list_fmap foldr]. lia.
  - specialize (IH ltac:(discriminate)).
    change (join_space (p :: q :: rest'))
      with (p ++ 32 :: join_space (q :: rest')).
    cbn [fmap list_fmap foldr] in *. rewrite <- IH.
    unfold wordCount, split_whitespace.
    pose proof (length_split_from_app p false [] (32 :: join_space (q :: rest')))
      as Happ.
    rewrite (trimmed_ends p Hp) in Happ.
    assert (Hsp : length (split_from false [] (32 :: join_space (q :: rest')))
                  = S (length (split_from false [] (join_space (q :: rest'))))).
    { cbn [split_from]. change (isWhiteSpace 32) with true. cbn [length rev].
      f_equal. apply length_split_after_space.
      apply Forall_cons in Hrest as [[(c & Hh & Hc) _] _].
      exists c. split; [apply join_space_head, Hh | exact Hc]. }
    lia.
Qed.

Lemma total_rational ns :
  (total (T:=Q) 0%Q Qplus ns
   == inject_Z (foldr Z.add 0%Z (wordCount <$> ns)) * (1000 # 3))%Q.
Proof.
  unfold total. induction ns as [|n ns IH]; cbn [foldr fmap list_fmap].
  - reflexivity.
  - rewrite IH, estimate_rational, inject_Z_plus. ring.
Qed.

(** X10 -- The slide estimates add up to the estimate of the whole
    narration script: when no narration is empty or starts or ends with
    white space, the script sent to the speech service, the narrations
    joined by single spaces, has as many words as the slides together, so
    in exact arithmetic its estimated duration is the sum of the slide
    durations. *)
Theorem slide_estimates_add_up (narrations : list jsstring) :
  narrations <> [] -> Forall trimmed narrations ->
  wordCount (join_space narrations)
    = foldr Z.add 0 (wordCount <$> narrations) /\
  (estimate (T:=Q) (join_space narrations)
   == total (T:=Q) 0%Q Qplus narrations)%Q.
Proof.
  intros Hne Hall. pose proof (wordCount_join narrations Hne Hall) as Hw.
  split; [exact Hw|].
  rewrite estimate_rational, total_rational, Hw. reflexivity.
Qed.

Lemma slide_estimates_add_up_witness :
  wordCount (join_space five_slides) = 150.
Proof.
  assert (Ht : trimmed thirty_words).
  { split; eexists; (split; [reflexivity|reflexivity]). }
  assert (Hall : Forall trimmed five_slides).
  { unfold five_slides. cbn [replicate].
    repeat (apply Forall_cons_2; [exact Ht|]). apply Forall_nil_2. }
  destruct (slide_estimates_add_up five_slides ltac:(discriminate) Hall)
    as [H _].
  etransitivity; [exact H|]. vm_compute. reflexivity.
Defined.

(** An empty narration between two others is not counted on its own: the
    two separators around it form one run of white space. *)
Lemma wordCount_join_empty_narration :
  wordCount (join_space [of_ascii "a"; []; of_ascii "b"]) = 2 /\
  foldr Z.add 0 (wordCount <$> [of_ascii "a"; []; of_ascii "b"]) = 3.
Proof. split; reflexivity. Qed.

End ScriptProofs.


Section ViewerDisplay.
Import Script.

Lemma progress_rational (i n : Z) :
  0 < n ->
  (progressPercentage (T:=Q) i n * inject_Z n == inject_Z (i + 1) * 100)%Q.
Proof.
  intros Hn. unfold progressPercentage.
  cbn [of_int times divide rational_arith]. change (inject_Z 100) with 100%Q.
  field. change 0%Q with (inject_Z 0). rewrite inject_Z_injective. lia.
Qed.

(** X11 -- What the viewer displays is always defined: in every state of
    a session the current index selects a slide, and the progress bar, in
    exact arithmetic, is above 0 and at most 100 per cent, and full
    exactly on the last slide. *)
Theorem progress_in_range (slides : list Duration.jsstring)
        (events : list Viewer.event) :
  slides <> [] ->
  let i := Viewer.currentSlideIndex (Viewer.run slides events) in
  let n := Z.of_nat (length slides) in
  (exists slide, currentSlide slides i = Some slide) /\
  (0 < progressPercentage (T:=Q) i n)%Q /\
  (progressPercentage (T:=Q) i n <= 100)%Q /\
  ((progressPercentage (T:=Q) i n == 100)%Q <-> i = n - 1).
Proof.
  intros Hne. cbv zeta.
  pose proof (run_invariant slides Hne events) as Hinv.
  destruct (Viewer.inv_index _ _ Hinv) as [H0 H1].
  unfold Viewer.slides_length in H1.
  set (i := Viewer.currentSlideIndex (Viewer.run slides events)) in *.
  set (n := Z.of_nat (length slides)) in *.
  assert (Hn : 0 < n) by lia.
  pose proof (progress_rational i n Hn) as Hp.
  assert (HnQ : (0 < inject_Z n)%Q).
  { change 0%Q with (inject_Z 0). rewrite <- Zlt_Qlt. lia. }
  assert (Hi1 : (0 < inject_Z (i + 1))%Q).
  { change 0%Q with (inject_Z 0). rewrite <- Zlt_Qlt. lia. }
  assert (Hle : (inject_Z (i + 1) <= inject_Z n)%Q)
    by (rewrite <- Zle_Qle; lia).
  set (p := progressPercentage (T:=Q) i n) in *. clearbody p.
  assert (Hiff : i = n - 1 <-> (inject_Z (i + 1) == inject_Z n)%Q).
  { rewrite inject_Z_injective. lia. }
  set (N := inject_Z n) in *. set (K := inject_Z (i + 1)) in *.
  clearbody N K.
  split; [|split; [|split]].
  - unfold currentSlide. destruct (Z.leb_spec 0 i); [|lia].
    apply lookup_lt_is_Some. unfold n in *. lia.
  - destruct (Qlt_le_dec 0 p) as [|Hneg]; [assumption|]. exfalso.
    pose proof (Qmult_le_compat_r p 0 N Hneg (Qlt_le_weak _ _ HnQ)). lra.
  - destruct (Qlt_le_dec 100 p) as [Hgt|]; [|assumption]. exfalso.
    pose proof (Qmult_lt_compat_r 100 p N HnQ Hgt). lra.
  - rewrite Hiff. split.
    + intros Heq. rewrite Heq in Hp. lra.
    + intros Hi. rewrite Hi in Hp.
      apply (Qmult_inj_r _ _ N); [lra | rewrite Hp; ring].
Qed.

Lemma progress_in_range_witness :
  (progressPercentage (T:=Q)
     (Viewer.currentSlideIndex
        (Viewer.run Duration.five_slides
           [Viewer.PlayPause; Viewer.Elapse 10000])) 5 <= 100)%Q.
Proof.
  exact (proj1 (proj2 (proj2
    (progress_in_range Duration.five_slides
       [Viewer.PlayPause; Viewer.Elapse 10000] ltac:(discriminate))))).
Defined.

End ViewerDisplay.

(* ===================================================================== *)
(** * Generating a presentation *)
(* ===================================================================== *)


Section GenerateProofs.
Import Duration Generate.

Lemma trimStart_blank t :
  forallb isWhiteSpace t = true -> trimStart t = [].
Proof.
  induction t as [|c t IH]; [reflexivity|]. cbn [forallb trimStart].
  intros H. apply andb_prop in H as [Hc Ht]. rewrite Hc. exact (IH Ht).
Qed.

Lemma trimStart_not_blank t :
  forallb isWhiteSpace t = false ->
  exists c rest, trimStart t = c :: rest /\ isWhiteSpace c = false.
Proof.
  induction t as [|c t IH]; [discriminate|]. cbn [forallb trimStart].
  destruct (isWhiteSpace c) eqn:Hc; cbn [andb]; intros H.
  - exact (IH H).
  - exists c, t. split; [reflexivity | exact Hc].
Qed.

Lemma trimStart_ends_word l c :
  isWhiteSpace c = false -> trimStart (l ++ [c]) <> [].
Proof.
  intros Hc. induction l as [|x l IH]; cbn [app trimStart].
  - rewrite Hc. discriminate.
  - destruct (isWhiteSpace x); [exact IH | discriminate].
Qed.

(** The trimmed topic is empty exactly when the topic holds white space
    only. *)
Lemma trim_blank t : trim t = [] <-> forallb isWhiteSpace t = true.
Proof.
  unfold trim. split.
  - intros H. destruct (forallb isWhiteSpace t) eqn:Hb; [reflexivity|].
    exfalso. destruct (trimStart_not_blank t Hb) as (c & rest & Hr & Hc).
    rewrite Hr in H. cbn [rev] in H.
    apply (f_equal (@rev Z)) in H. rewrite rev_involutive in H. cbn in H.
    exact (trimStart_ends_word (rev rest) c Hc H).
  - intros H. rewrite (trimStart_blank t H). reflexivity.
Qed.

Lemma replace_whitespace_nonempty t b :
  t <> [] -> (b = false \/ trim t <> []) -> replace_whitespace b t <> [].
Proof.
  revert b. induction t as [|c t IH]; intros b Hne Hb; [congruence|].
  cbn [replace_whitespace].
  destruct (isWhiteSpace c) eqn:Hc; [|discriminate].
  destruct b; [|discriminate].
  destruct Hb as [Hb|Hb]; [discriminate|].
  assert (Ht : trim t <> []).
  { intros Ht. apply Hb. apply trim_blank. cbn [forallb]. rewrite Hc.
    apply trim_blank in Ht. exact Ht. }
  apply IH; [|right; exact Ht].
  intros ->. apply Ht. reflexivity.
Qed.

Lemma replace_whitespace_clean t : forall b,
  Forall (fun c => isWhiteSpace c = false) (replace_whitespace b t).
Proof.
  induction t as [|c t IH]; intros b; cbn [replace_whitespace];
    [apply Forall_nil_2|].
  destruct (isWhiteSpace c) eqn:Hc.
  - destruct b; [apply IH|]. apply Forall_cons_2; [reflexivity | apply IH].
  - apply Forall_cons_2; [exact Hc | apply IH].
Qed.

Lemma initial_invariant : invariant initial.
Proof.
  split; cbn; try tauto; try congruence.
  split; [discriminate | congruence].
Qed.

Lemma step_invariant_generate s e : invariant s -> invariant (step s e).
Proof.
  intros Hinv. pose proof Hinv as [Hl Hm Ht Ha He].
  destruct e as [text| | |r|r|r|r]; cbn [step]; unfold shown.
  - (* typing in the topic field *)
    destruct (bool_decide (generatedSlides s = [])) eqn:Hg; cbv iota;
      [|exact Hinv].
    case_eq (isLoading s); intros Hload; [exact Hinv|].
    apply bool_decide_eq_true in Hg.
    assert (Hidle : running s = Idle).
    { destruct (running s) eqn:Hr; try reflexivity;
        exfalso; assert (isLoading s = true) by (apply Hl; discriminate);
        congruence. }
    split; cbn; try assumption.
    + congruence.
    + rewrite Hidle. exact I.
  - (* the generate button *)
    destruct (bool_decide (generatedSlides s = [])) eqn:Hg; cbv iota;
      [|exact Hinv].
    case_eq (isLoading s); intros Hload; [exact Hinv|].
    unfold handleGenerate.
    destruct (bool_decide (trim (topic s) = [])) eqn:Hb.
    + split; cbn; assumption.
    + apply bool_decide_eq_false in Hb.
      split; cbn; try tauto; try congruence.
      split; intros; [discriminate | reflexivity].
  - (* the reset button *)
    destruct (bool_decide (generatedSlides s = [])) eqn:Hg; cbv iota;
      [exact Hinv|].
    apply bool_decide_eq_false in Hg.
    split; cbn; try assumption; try tauto.
    destruct (running s) eqn:Hr; try exact I;
      destruct He as [He _]; contradiction.
  - (* the script *)
    destruct (running s) eqn:Hr; try exact Hinv.
    destruct r as [e|scriptSlides]; cbn.
    + split; cbn; try tauto; try reflexivity; try assumption.
      split; [discriminate | congruence].
    + split; cbn; try assumption; try discriminate.
      * split; [discriminate | intros _; apply Hl; discriminate].
      * intros Hf. assert (isLoading s = true) by (apply Hl; discriminate).
        congruence.
      * intros _. apply Ha. discriminate.
  - (* the images *)
    destruct (running s) eqn:Hr; try exact Hinv.
    destruct He as [He1 He2].
    destruct r as [e|base64Images]; cbn.
    + split; cbn; try tauto; try reflexivity; try assumption.
      split; [discriminate | congruence].
    + split; cbn; try (intros; assumption); try exact I.
      * split; [discriminate | intros _; apply Hl; discriminate].
      * intros Hf. assert (isLoading s = true) by (apply Hl; discriminate).
        congruence.
      * intros _. apply Ha. discriminate.
  - (* the narration *)
    destruct (running s) eqn:Hr; try exact Hinv.
    destruct r as [e|b64]; cbn.
    + split; cbn; try tauto; try reflexivity; try assumption.
      split; [discriminate | congruence].
    + split; cbn; try assumption; try exact I.
      * split; [discriminate | intros _; apply Hl; discriminate].
      * intros Hf. assert (isLoading s = true) by (apply Hl; discriminate).
        congruence.
      * intros _. apply Ha. discriminate.
  - (* the audio *)
    destruct (running s) eqn:Hr; try exact Hinv.
    destruct r as [e|url]; cbn.
    + split; cbn; try tauto; try reflexivity; try assumption.
      split; [discriminate | congruence].
    + split; cbn; try tauto; try reflexivity; try assumption.
      split; [discriminate | congruence].
Qed.

Lemma run_invariant_generate events : invariant (run events).
Proof.
  unfold run. generalize initial_invariant. generalize initial.
  induction events as [|e events IH]; intros s Hinv; cbn [foldl].
  - exact Hinv.
  - apply IH, step_invariant_generate, Hinv.
Qed.

End GenerateProofs.


Section PromiseFacts.
Import Generate.

Lemma first_rejection_elem {A} (settled : list (Z * outcome A)) t e :
  first_rejection settled = Some (t, e) ->
  (t, inl e) ∈ settled /\
  forall t' e', (t', inl e') ∈ settled -> t <= t'.
Proof.
  revert t e. induction settled as [|[t0 r] rest IH]; intros t e H;
    [discriminate|].
  cbn [first_rejection] in H. destruct r as [e0|a].
  - destruct (first_rejection rest) as [[t1 e1]|] eqn:Hr.
    + destruct (IH t1 e1 eq_refl) as [Hin Hmin].
      destruct (Z.ltb_spec t1 t0); injection H as <- <-.
      * split; [apply elem_of_cons; right; exact Hin|].
        intros t' e' Hel. apply elem_of_cons in Hel as [Heq|Hel].
        -- injection Heq as -> _. lia.
        -- exact (Hmin t' e' Hel).
      * split; [apply elem_of_cons; left; reflexivity|].
        intros t' e' Hel. apply elem_of_cons in Hel as [Heq|Hel].
        -- injection Heq as -> _. lia.
        -- pose proof (Hmin t' e' Hel). lia.
    + injection H as <- <-.
      split; [apply elem_of_cons; left; reflexivity|].
      intros t' e' Hel. apply elem_of_cons in Hel as [Heq|Hel].
      * injection Heq as -> _. lia.
      * exfalso. clear IH. induction rest as [|[t2 r2] rest IH2];
          [apply elem_of_nil in Hel; exact Hel|].
        cbn [first_rejection] in Hr. destruct r2 as [e2|a2].
        -- destruct (first_rejection rest) as [[? ?]|];
             [destruct (_ <? _)|]; discriminate.
        -- apply elem_of_cons in Hel as [Heq|Hel]; [discriminate|].
           exact (IH2 Hr Hel).
  - destruct (IH t e H) as [Hin Hmin].
    split; [apply elem_of_cons; right; exact Hin|].
    intros t' e' Hel. apply elem_of_cons in Hel as [Heq|Hel];
      [discriminate | exact (Hmin t' e' Hel)].
Qed.

Lemma first_rejection_none {A} (settled : list (Z * outcome A)) :
  first_rejection settled = None ->
  settled = map (fun a => (a.1, inr a.2))
                (zip (map fst settled) (values settled)).
Proof.
  induction settled as [|[t0 r] rest IH]; intros H; [reflexivity|].
  cbn [first_rejection] in H. destruct r as [e0|a].
  - destruct (first_rejection rest) as [[? ?]|]; [destruct (_ <? _)|];
      discriminate.
  - cbn [values map zip zip_with fst snd]. f_equal. exact (IH H).
Qed.

Lemma first_rejection_some {A} (settled : list (Z * outcome A)) t e :
  (t, inl e) ∈ settled -> first_rejection settled <> None.
Proof.
  induction settled as [|[t0 r] rest IH]; intros Hel;
    [apply elem_of_nil in Hel; destruct Hel|].
  cbn [first_rejection]. apply elem_of_cons in Hel as [Heq|Hel].
  - injection Heq as <- <-.
    destruct (first_rejection rest) as [[? ?]|]; [destruct (_ <? _)|];
      discriminate.
  - specialize (IH Hel). destruct r.
    + destruct (first_rejection rest) as [[? ?]|]; [destruct (_ <? _)|];
        discriminate.
    + exact IH.
Qed.

End PromiseFacts.

Section GenerateTheorems.
Import Duration Generate.

(** X12 -- The generate button asks for nothing when the topic holds
    white space only: the message "Please enter a topic." is shown and no
    request is made.  Otherwise one script request is made, for the topic
    as it was typed, the previous slides, audio and error are cleared and
    the loading flag is set. *)
Theorem generate_needs_topic (s : state) :
  shown s = Form -> isLoading s = false ->
  let s' := step s ClickGenerate in
  if forallb isWhiteSpace (topic s) then
    s' = setError (Some "Please enter a topic.") s /\
    requests s' = requests s /\ isLoading s' = false /\
    error_shown s' = Some "Please enter a topic."
  else
    requests s' = requests s ++ [ScriptRequest (topic s)] /\
    isLoading s' = true /\ error s' = None /\
    generatedSlides s' = [] /\ audioUrl s' = [] /\
    running s' = AwaitScript /\ topic s' = topic s.
Proof.
  intros Hform Hload. cbv zeta. cbn [step]. rewrite Hform, Hload.
  unfold handleGenerate.
  destruct (forallb isWhiteSpace (topic s)) eqn:Hb.
  - rewrite bool_decide_eq_true_2 by (apply trim_blank; exact Hb).
    repeat split; try assumption.
    unfold error_shown, shown in *. cbn [generatedSlides setError error].
    destruct (bool_decide (generatedSlides s = [])); [reflexivity|discriminate].
  - rewrite bool_decide_eq_false_2.
    + repeat split.
    + intros H. apply trim_blank in H. congruence.
Qed.

Lemma generate_needs_topic_witness :
  requests (step (step initial (Input (of_ascii "The Moon"))) ClickGenerate)
  = [ScriptRequest (of_ascii "The Moon")].
Proof.
  destruct (generate_needs_topic (step initial (Input (of_ascii "The Moon")))
              eq_refl eq_refl) as (H & _).
  exact H.
Defined.

(** X13 -- In every state the component reaches the loading flag is set
    exactly while a generation is running and the loading message is
    empty otherwise; and while a presentation is on screen the topic holds
    a character that is not white space, so the file offered for download
    is named after the topic, never "presentation.webm", and its name
    holds no white space. *)
Theorem presentation_keeps_topic (events : list event) :
  let s := run events in
  (isLoading s = true <-> running s <> Idle) /\
  (isLoading s = false -> loadingMessage s = "") /\
  (running s <> Idle -> audioUrl s = []) /\
  (shown s = Presentation ->
   forallb isWhiteSpace (topic s) = false /\
   fileName (topic s)
     = replace_whitespace false (topic s) ++ of_ascii ".webm" /\
   replace_whitespace false (topic s) <> [] /\
   Forall (fun c => isWhiteSpace c = false) (fileName (topic s))).
Proof.
  cbv zeta. destruct (run_invariant_generate events) as [Hl Hm Ht Ha _].
  split; [exact Hl|]. split; [exact Hm|]. split; [exact Ha|].
  intros Hs. unfold shown in Hs.
  destruct (bool_decide (generatedSlides (run events) = [])) eqn:Hg;
    [discriminate|].
  apply bool_decide_eq_false in Hg. specialize (Ht Hg).
  assert (Hne : replace_whitespace false (topic (run events)) <> []).
  { apply replace_whitespace_nonempty; [|left; reflexivity].
    intros H0. apply Ht. rewrite H0. reflexivity. }
  split; [|split; [|split]].
  - destruct (forallb isWhiteSpace (topic (run events))) eqn:Hb;
      [|reflexivity].
    apply trim_blank in Hb. contradiction.
  - unfold fileName.
    destruct (replace_whitespace false (topic (run events)));
      [contradiction | reflexivity].
  - exact Hne.
  - unfold fileName.
    destruct (replace_whitespace false (topic (run events))) eqn:Hr;
      [contradiction|].
    rewrite <- Hr. apply Forall_app. split; [apply replace_whitespace_clean|].
    vm_compute. repeat constructor.
Qed.

(** X14 -- A failure after the slides were set is silent: when the
    narration request or the audio processing fails, the slides stay on
    screen without audio, the message stored is not displayed because the
    error paragraph belongs to the form, and the download button does
    nothing. *)
Theorem late_failure_is_silent (events : list event) (e : Capture.exn)
        (o : Capture.oracle) (cs : Capture.state) :
  let s := run events in
  generatedSlides s <> [] ->
  running s = AwaitNarration \/ running s = AwaitAudio ->
  let s' := match running s with
            | AwaitNarration => step s (NarrationSettled (inl e))
            | _ => step s (AudioSettled (inl e))
            end in
  shown s' = Presentation /\
  generatedSlides s' = generatedSlides s /\
  audioUrl s' = [] /\
  error s' = Some (message_of e) /\
  error_shown s' = None /\
  isLoading s' = false /\ running s' = Idle /\
  download_refused s' = true /\
  Capture.handleDownload
    (map (fun g => narration (slide g)) (generatedSlides s')) o
    (negb (bool_decide (audioUrl s' = []))) cs = cs.
Proof.
  cbv zeta. destruct (run_invariant_generate events) as [_ _ _ Ha _].
  set (s := run events) in *. clearbody s. intros Hg Hr.
  assert (Hau : audioUrl s = []).
  { apply Ha. destruct Hr as [Hr|Hr]; rewrite Hr; discriminate. }
  assert (Hs' : (match running s with
                 | AwaitNarration => step s (NarrationSettled (inl e))
                 | _ => step s (AudioSettled (inl e))
                 end) = catch e s).
  { destruct Hr as [Hr|Hr]; rewrite Hr; cbn [step]; rewrite Hr; reflexivity. }
  rewrite Hs'. unfold shown, error_shown, download_refused, shown.
  unfold catch, finally, wait_at, setLoadingMessage, setIsLoading, setError.
  cbn [generatedSlides audioUrl error isLoading running].
  rewrite Hau. rewrite (bool_decide_eq_false_2 _ Hg).
  repeat split. unfold Capture.handleDownload.
  change (negb (bool_decide (@nil Z = []))) with false.
  cbn [negb]. rewrite orb_true_r. reflexivity.
Qed.

Lemma late_failure_is_silent_witness :
  error_shown
    (step (run [Input (of_ascii "The Moon"); ClickGenerate;
                ScriptSettled (inr [{| title := of_ascii "Phases";
                                       narration := of_ascii "The Moon has phases";
                                       imagePrompt := of_ascii "a crescent" |}]);
                ImagesSettled (inr [Some (of_ascii "iVBORw0KGgo=")])])
          (NarrationSettled (inl (Capture.JsError "Audio generation failed."))))
  = None.
Proof.
  destruct (late_failure_is_silent
              [Input (of_ascii "The Moon"); ClickGenerate;
               ScriptSettled (inr [{| title := of_ascii "Phases";
                                      narration := of_ascii "The Moon has phases";
                                      imagePrompt := of_ascii "a crescent" |}]);
               ImagesSettled (inr [Some (of_ascii "iVBORw0KGgo=")])]
              (Capture.JsError "Audio generation failed.")
              Capture.all_succeed Capture.idle
              ltac:(vm_compute; discriminate) (or_introl eq_refl))
    as (_ & _ & _ & _ & H & _).
  exact H.
Defined.

(** X15 -- One image that fails takes the whole generation with it: when
    any of the image requests is rejected, no slide is set, the form stays
    on screen, the loading flag is cleared, and the message stored is that
    of the rejection that came first. *)
Theorem failed_image_fails_generation (events : list event)
        (scriptSlides : list Slide)
        (settled : list (Z * outcome (option jsstring)))
        (t0 : Z) (e0 : Capture.exn) :
  let s := run events in
  running s = AwaitImages scriptSlides ->
  (t0, inl e0) ∈ settled ->
  let s' := step s (ImagesSettled (Promise_all settled)) in
  generatedSlides s' = [] /\ shown s' = Form /\
  isLoading s' = false /\ running s' = Idle /\
  requests s' = requests s /\
  exists t e,
    (t, inl e) ∈ settled /\
    (forall t' e', (t', inl e') ∈ settled -> t <= t') /\
    error s' = Some (message_of e).
Proof.
  cbv zeta. destruct (run_invariant_generate events) as [_ _ _ _ He].
  set (s := run events) in *. clearbody s. intros Hr Hel.
  rewrite Hr in He. destruct He as [Hg _].
  cbn [step]. rewrite Hr. unfold Promise_all.
  destruct (first_rejection settled) as [[t e]|] eqn:Hf.
  2:{ destruct (first_rejection_some settled t0 e0 Hel Hf). }
  destruct (first_rejection_elem settled t e Hf) as [Hin Hmin].
  change (images_settled scriptSlides (inl e) s) with (catch e s).
  unfold shown, catch, finally, wait_at, setLoadingMessage, setIsLoading,
    setError.
  cbn [generatedSlides isLoading running requests error].
  rewrite Hg. repeat split. exists t, e. auto.
Qed.

Lemma failed_image_fails_generation_witness :
  shown
    (step (run [Input (of_ascii "The Moon"); ClickGenerate;
                ScriptSettled (inr [{| title := of_ascii "Phases";
                                       narration := of_ascii "The Moon has phases";
                                       imagePrompt := of_ascii "a crescent" |}])])
          (ImagesSettled
             (Promise_all
                [(5, inl (Capture.JsError
                            "Image generation failed or returned no data."))])))
  = Form.
Proof.
  destruct (failed_image_fails_generation
              [Input (of_ascii "The Moon"); ClickGenerate;
               ScriptSettled (inr [{| title := of_ascii "Phases";
                                      narration := of_ascii "The Moon has phases";
                                      imagePrompt := of_ascii "a crescent" |}])]
              [{| title := of_ascii "Phases";
                  narration := of_ascii "The Moon has phases";
                  imagePrompt := of_ascii "a crescent" |}]
              [(5, inl (Capture.JsError
                          "Image generation failed or returned no data."))]
              5 (Capture.JsError "Image generation failed or returned no data.")
              eq_refl ltac:(apply elem_of_cons; left; reflexivity))
    as (_ & H & _).
  exact H.
Defined.

(** X16 -- A generation in which every step succeeds: the slides set are
    the slides of the script, in order, each with the data URL of its
    image; one image is requested per slide and the narration requested
    is the narrations joined by spaces; at the end the audio URL is
    stored, no error is left, and the loading flag and message are
    cleared. *)
Theorem successful_generation (s : state) (scriptSlides : list Slide)
        (base64Images : list (option jsstring)) (base64Audio url : jsstring) :
  shown s = Form -> isLoading s = false ->
  forallb isWhiteSpace (topic s) = false ->
  let s' := foldl step s
              [ClickGenerate; ScriptSettled (inr scriptSlides);
               ImagesSettled (inr base64Images);
               NarrationSettled (inr base64Audio);
               AudioSettled (inr url)] in
  map slide (generatedSlides s') = scriptSlides /\
  (forall i sl, scriptSlides !! i = Some sl ->
     generatedSlides s' !! i
     = Some {| slide := sl;
               imageUrl := of_ascii "data:image/png;base64,"
                           ++ template (base64Images !! i) |}) /\
  requests s'
    = requests s ++ ScriptRequest (topic s)
      :: map (fun sl => ImageRequest (imagePrompt sl)) scriptSlides
      ++ [NarrationRequest (Script.join_space (map narration scriptSlides))] /\
  audioUrl s' = url /\ error s' = None /\
  isLoading s' = false /\ loadingMessage s' = "" /\ running s' = Idle /\
  topic s' = topic s.
Proof.
  intros Hform Hload Hb. cbv zeta. cbn [foldl].
  cbn [step]. rewrite Hform, Hload. unfold handleGenerate.
  rewrite bool_decide_eq_false_2
    by (intros H; apply trim_blank in H; congruence).
  cbn [running wait_at script_settled request_all setLoadingMessage
       setAudioUrl setGeneratedSlides setError setIsLoading
       images_settled narration_settled audio_settled finally
       generatedSlides requests audioUrl error isLoading loadingMessage topic].
  assert (Hmap : map slide (slidesWithImages scriptSlides base64Images)
                 = scriptSlides).
  { unfold slidesWithImages. apply list_eq. intros i.
    rewrite list_lookup_fmap, list_lookup_imap.
    destruct (scriptSlides !! i); reflexivity. }
  split; [exact Hmap|]. split.
  { intros i sl Hi. unfold slidesWithImages.
    rewrite list_lookup_imap, Hi. reflexivity. }
  split.
  { unfold fullNarrationScript.
    rewrite <- (map_map slide narration), Hmap.
    rewrite <- !app_assoc. reflexivity. }
  repeat split.
Qed.

Lemma successful_generation_witness :
  audioUrl
    (foldl step (step initial (Input (of_ascii "The Moon")))
       [ClickGenerate; ScriptSettled (inr []); ImagesSettled (inr []);
        NarrationSettled (inr (of_ascii "UklGRg=="));
        AudioSettled (inr (of_ascii "blob:1"))])
  = of_ascii "blob:1".
Proof.
  destruct (successful_generation
              (step initial (Input (of_ascii "The Moon"))) [] []
              (of_ascii "UklGRg==") (of_ascii "blob:1")
              eq_refl eq_refl eq_refl) as (_ & _ & _ & H & _).
  exact H.
Defined.

(** X17 -- The two services treat a response without data differently.
    When the first part of the response has inline data whose [data] is
    missing, the image service resolves, with [undefined], and the slide
    gets the URL "data:image/png;base64,undefined"; the narration service
    rejects with "Audio generation failed.", as it does for empty data.
    What the narration service resolves with is never empty. *)
Theorem missing_data_image_accepted (response : Response) (p : Part) :
  first_part response = Some p ->
  inlineData p = Some None ->
  generateImageForSlide (inr response) = inr None /\
  generateNarrationAudio (inr response)
    = inl (Capture.JsError "Audio generation failed.") /\
  (forall sl,
     slidesWithImages [sl] [None]
     = [{| slide := sl;
           imageUrl := of_ascii "data:image/png;base64,undefined" |}]) /\
  (forall r data, generateNarrationAudio r = inr data -> data <> []).
Proof.
  intros Hp Hd. unfold generateImageForSlide, generateNarrationAudio.
  rewrite Hp. cbn [mbind option_bind]. rewrite Hd.
  repeat split.
  intros r data H. destruct r as [e|r]; [discriminate|].
  destruct (first_part r ≫= inlineData) as [[[|c rest]|]|];
    try discriminate.
  injection H as <-. discriminate.
Qed.

Lemma missing_data_image_accepted_witness :
  generateImageForSlide
    (inr {| candidates :=
              Some [{| content :=
                         Some {| parts :=
                                   Some [{| inlineData := Some None |}] |} |}]
         |}) = inr None.
Proof.
  exact (proj1 (missing_data_image_accepted
                  {| candidates :=
                       Some [{| content :=
                                  Some {| parts :=
                                            Some [{| inlineData := Some None |}]
                                       |} |}] |}
                  {| inlineData := Some None |} eq_refl eq_refl)).
Defined.

End GenerateTheorems.
